(** * SeekBar (src/js/control-bar/progress-control/seek-bar.js)

    A shallow embedding of video.js' [SeekBar] component and of the
    player it drives, with the properties of its percent computation,
    its scrub session (mouse down / move / up), its keyboard steps and
    its throttled display update.

    JavaScript numbers are IEEE 754 binary64 values; they are modelled
    by Rocq's primitive [float], whose operations are the binary64 ones
    ([NaN], signed zeros and infinities included).  Universal facts
    about them go through [Prim2SF] and the [SpecFloat] definitions. *)

From Stdlib Require Import Floats ZArith Lia List Bool String.
Import ListNotations.

Set Warnings "-inexact-float".

Local Open Scope float_scope.

(** ** The player, as the seek bar sees it *)

Module Player.

(** The calls by which the seek bar changes the player. *)
Inductive call : Type :=
| CurrentTime (seconds : float)   (* player.currentTime(seconds) *)
| Play                            (* player.play() *)
| Pause                           (* player.pause() *)
| Scrubbing (isScrubbing : bool). (* player.scrubbing(isScrubbing) *)

Definition call_eqb (a b : call) : bool :=
  match a, b with
  | Play, Play | Pause, Pause => true
  | Scrubbing x, Scrubbing y => Bool.eqb x y
  | CurrentTime x, CurrentTime y => PrimFloat.Leibniz.eqb x y
  | _, _ => false
  end.

(** The playback state of the spec's data model, the cached current
    time, and the calls received so far, oldest first. *)
Record t : Type := mk {
  time_ : float;             (* the live clock *)
  duration_ : float;
  scrubbing_ : bool;
  paused_ : bool;
  cache_currentTime : float; (* getCache().currentTime *)
  calls : list call
}.

(** Modelled from the spec: player.js is not under src/.  The spec's
    ClockSource answers [currentTime()], [duration()], [scrubbing()],
    [paused()] and [getCache().currentTime] from its playback state,
    without changing it. *)
Definition currentTime (p : t) : float := time_ p.
Definition duration (p : t) : float := duration_ p.
Definition scrubbing (p : t) : bool := scrubbing_ p.
Definition paused (p : t) : bool := paused_ p.
Definition getCache_currentTime (p : t) : float := cache_currentTime p.

(** A call received is added to the log. *)
Definition record (c : call) (p : t) : t :=
  mk (time_ p) (duration_ p) (scrubbing_ p) (paused_ p)
     (cache_currentTime p) (calls p ++ [c]).

(** Modelled from the spec: player.js is not under src/.  The spec's
    ClockSource validates a seek target itself and fails closed: a
    negative target is clamped to 0, a target past the duration to the
    duration, and a target in range is applied as it is.  A seek
    changes the clock and nothing else of the playback state. *)
Definition clampSeek (seconds d : float) : float :=
  if seconds <? 0 then 0
  else if d <? seconds then d
  else seconds.

Definition setCurrentTime (seconds : float) (p : t) : t :=
  let p := record (CurrentTime seconds) p in
  mk (clampSeek seconds (duration_ p)) (duration_ p) (scrubbing_ p)
     (paused_ p) (cache_currentTime p) (calls p).

(** Modelled from the spec: player.js is not under src/.
    [scrubbing(b)] sets the flag that [scrubbing()] reads; [pause()]
    and [play()] make [paused()] true and false. *)
Definition setScrubbing (b : bool) (p : t) : t :=
  let p := record (Scrubbing b) p in
  mk (time_ p) (duration_ p) b (paused_ p) (cache_currentTime p) (calls p).

Definition pause (p : t) : t :=
  let p := record Pause p in
  mk (time_ p) (duration_ p) (scrubbing_ p) true (cache_currentTime p)
     (calls p).

Definition play (p : t) : t :=
  let p := record Play p in
  mk (time_ p) (duration_ p) (scrubbing_ p) false (cache_currentTime p)
     (calls p).

(** How often [play()] was called, and the seek targets received,
    oldest first. *)
Definition plays (p : t) : nat :=
  List.length (filter (call_eqb Play) (calls p)).

Fixpoint seeksOf (cs : list call) : list float :=
  match cs with
  | [] => []
  | CurrentTime s :: cs => s :: seeksOf cs
  | _ :: cs => seeksOf cs
  end.

Definition seeks (p : t) : list float := seeksOf (calls p).

End Player.

(** ** The seek bar *)

(** The component's own state: the player it is attached to, the
    [videoWasPlaying] field ([undefined], here [None], until the first
    mouse down), the two ARIA attributes of its element (absent until
    [update] sets them) and the percents handed to the
    [PlayProgressBar], oldest first. *)
Record SeekBar : Type := mkSeekBar {
  player_ : Player.t;
  videoWasPlaying : option bool;
  aria_valuenow : option string;
  aria_valuetext : option string;
  bar : list float
}.

(** Methods are state transformers over the seek bar and, through it,
    over the player it calls. *)
Definition M (A : Type) : Type := SeekBar -> A * SeekBar.

Definition ret {A : Type} (a : A) : M A := fun this => (a, this).

Definition bind {A B : Type} (m : M A) (k : A -> M B) : M B :=
  fun this => let (a, this') := m this in k a this'.

Definition exec {A : Type} (m : M A) (this : SeekBar) : SeekBar :=
  snd (m this).

Definition eval {A : Type} (m : M A) (this : SeekBar) : A :=
  fst (m this).

Declare Scope method_scope.
Delimit Scope method_scope with method.
Notation "x <- m ;; k" := (bind m (fun x => k))
  (at level 61, m at next level, right associativity) : method_scope.
Notation "m ;; k" := (bind m (fun _ => k))
  (at level 61, right associativity) : method_scope.
Local Open Scope method_scope.

(** Reading from the player, calling it, and the seek bar's own
    fields.  [if (this.videoWasPlaying)] takes [undefined] as false. *)
Definition get {A : Type} (f : Player.t -> A) : M A :=
  fun this => (f (player_ this), this).

Definition call (f : Player.t -> Player.t) : M unit :=
  fun this =>
    (tt, mkSeekBar (f (player_ this)) (videoWasPlaying this)
           (aria_valuenow this) (aria_valuetext this) (bar this)).

Definition set_videoWasPlaying (b : bool) : M unit :=
  fun this =>
    (tt, mkSeekBar (player_ this) (Some b) (aria_valuenow this)
           (aria_valuetext this) (bar this)).

Definition get_videoWasPlaying : M bool :=
  fun this =>
    (match videoWasPlaying this with Some b => b | None => false end, this).

Definition setAttributes (now text : string) : M unit :=
  fun this =>
    (tt, mkSeekBar (player_ this) (videoWasPlaying this) (Some now)
           (Some text) (bar this)).

Definition bar_update (percent : float) : M unit :=
  fun this =>
    (tt, mkSeekBar (player_ this) (videoWasPlaying this)
           (aria_valuenow this) (aria_valuetext this)
           (bar this ++ [percent])).

(** The number of seconds the [step*] functions move the timeline. *)
Definition STEP_SECONDS : float := 5.

Section SeekBar.

(** What the seek bar takes from modules that are not in src/:
    [Slider.calculateDistance] (pointer event to a ratio along the
    track), [Slider.update] (the percent the slider reports),
    [formatTime] and [Number.prototype.toFixed]. *)
Variable Event : Type.
Variable calculateDistance : Event -> float.
Variable Slider_update : SeekBar -> float.
Variable formatTime : float -> float -> string.
Variable toFixed : float -> nat -> string.

(** Modelled from the spec: slider.js is not under src/.  The spec's
    [begin] and [end] name no effect of the generic slider on the
    playback state or on the session, so the inherited handlers leave
    the seek bar as it is. *)
Definition Slider_handleMouseDown (event : Event) : M unit := ret tt.
Definition Slider_handleMouseUp (event : Event) : M unit := ret tt.

(** Update the seek bar's UI: the percent comes from [super.update()],
    the time from the cache while scrubbing ("allows for smooth
    scrubbing, when player can't keep up"). *)
Definition update : M float :=
  percent <- (fun this => (Slider_update this, this)) ;;
  duration <- get Player.duration ;;
  scrubbing <- get Player.scrubbing ;;
  time <- (if scrubbing then get Player.getCache_currentTime
           else get Player.currentTime) ;;
  setAttributes (toFixed (percent * 100) 2) (formatTime time duration) ;;
  bar_update percent ;;
  ret percent.

(** Get the percentage of media played so far:
    [percent >= 1 ? 1 : percent]. *)
Definition getPercent : M float :=
  scrubbing <- get Player.scrubbing ;;
  time <- (if scrubbing then get Player.getCache_currentTime
           else get Player.currentTime) ;;
  duration <- get Player.duration ;;
  let percent := time / duration in
  ret (if 1 <=? percent then 1 else percent).

(** Handle mouse down on seek bar. *)
Definition handleMouseDown (event : Event) : M unit :=
  call (Player.setScrubbing true) ;;
  paused <- get Player.paused ;;
  set_videoWasPlaying (negb paused) ;;
  call Player.pause ;;
  Slider_handleMouseDown event.

(** Handle mouse move on seek bar; "don't let video end while
    scrubbing".  [duration()] is read twice, as in the source. *)
Definition handleMouseMove (event : Event) : M unit :=
  duration <- get Player.duration ;;
  let newTime := calculateDistance event * duration in
  duration' <- get Player.duration ;;
  let newTime := if newTime =? duration' then newTime - 0.1 else newTime in
  call (Player.setCurrentTime newTime).

(** Handle mouse up on seek bar. *)
Definition handleMouseUp (event : Event) : M unit :=
  Slider_handleMouseUp event ;;
  call (Player.setScrubbing false) ;;
  wasPlaying <- get_videoWasPlaying ;;
  if wasPlaying then call Player.play else ret tt.

(** Move more quickly fast forward, and rewind, for keyboard-only
    users. *)
Definition stepForward : M unit :=
  now <- get Player.currentTime ;;
  call (Player.setCurrentTime (now + STEP_SECONDS)).

Definition stepBack : M unit :=
  now <- get Player.currentTime ;;
  call (Player.setCurrentTime (now - STEP_SECONDS)).

End SeekBar.

(** ** The seek bar's entry points, as a script *)

(** The methods that the pointer, the keyboard, the player's events
    and the slider can invoke. *)
Inductive op (Event : Type) : Type :=
| MouseDown (event : Event)
| MouseMove (event : Event)
| MouseUp (event : Event)
| Update
| GetPercent
| StepForward
| StepBack.

Arguments MouseDown {Event} event.
Arguments MouseMove {Event} event.
Arguments MouseUp {Event} event.
Arguments Update {Event}.
Arguments GetPercent {Event}.
Arguments StepForward {Event}.
Arguments StepBack {Event}.

Definition isMouseUp {Event : Type} (o : op Event) : bool :=
  match o with MouseUp _ => true | _ => false end.

Section Script.

Variable Event : Type.
Variable calculateDistance : Event -> float.
Variable Slider_update : SeekBar -> float.
Variable formatTime : float -> float -> string.
Variable toFixed : float -> nat -> string.

(** One invocation, and a series of them in order. *)
Definition step (o : op Event) : M unit :=
  match o with
  | MouseDown event => handleMouseDown Event event
  | MouseMove event => handleMouseMove Event calculateDistance event
  | MouseUp event => handleMouseUp Event event
  | Update => update Slider_update formatTime toFixed ;; ret tt
  | GetPercent => getPercent ;; ret tt
  | StepForward => stepForward
  | StepBack => stepBack
  end.

Fixpoint steps (os : list (op Event)) : M unit :=
  match os with
  | [] => ret tt
  | o :: os => step o ;; steps os
  end.

End Script.

(** ** The throttled update *)

Module Fn.

(** Modelled from the spec: utils/fn.js is not under src/.  The spec's
    rate limiter coalesces the calls of one window into one trailing
    execution: a call while nothing is pending schedules one deferred
    call for the end of the window, [wait] milliseconds later; a call
    while a deferred call is pending replaces that call and keeps the
    end of its window; the deferred call runs when its window ends.
    [pending] holds the deadlines of the deferred calls not yet run. *)
Record throttled : Type := mk {
  wait : Z;
  pending : list Z
}.

Definition throttle (wait : Z) : throttled := mk wait [].




End Fn.


(** A seek bar in its event loop: the component, its throttled [update]
    and the instants (in milliseconds) at which [update] really ran. *)
Record Loop : Type := mkLoop {
  seekBar : SeekBar;
  throttledUpdate : Fn.throttled;
  ran : list Z
}.


Section EventLoop.

Variable Slider_update : SeekBar -> float.
Variable formatTime : float -> float -> string.
Variable toFixed : float -> nat -> string.

(** The player's own state at each instant: it advances on its own,
    whatever the seek bar does. *)
Variable clock : Z -> Player.t.

(** [this.update = Fn.throttle(Fn.bind(this, this.update), 50)] *)
Definition constructor (this : SeekBar) : Loop :=
  mkLoop this (Fn.throttle 50) [].






End EventLoop.

(** ** What the spec says, to compare the code with *)

(** The spec's [currentDisplayTime()]: the cached scrub time while
    scrubbing, the live clock otherwise. *)
Definition currentDisplayTime (p : Player.t) : float :=
  if Player.scrubbing p then Player.getCache_currentTime p
  else Player.currentTime p.

(** The spec's [clamp(x, lo, hi)] into the closed range [lo, hi]. *)
Definition clamp (x lo hi : float) : float :=
  if x <? lo then lo else if hi <? x then hi else x.

(** ** Exact values of binary64 numbers *)

Module Binary64.

Local Open Scope Z_scope.

(** Every finite binary64 number is a whole multiple of 2^-1074, the
    smallest subnormal: [scaled m e] is the value m * 2^e counted in
    these units, an integer for every exponent a float can have. *)
Definition scaled (m : positive) (e : Z) : Z := Zpos m * 2 ^ (e + 1074).

Definition val (x : spec_float) : Z :=
  match x with
  | S754_finite s m e => if s then - scaled m e else scaled m e
  | _ => 0
  end.

(** Finite and not negative (either zero counts). *)
Definition fin_nonneg (x : spec_float) : bool :=
  match x with
  | S754_zero _ => true
  | S754_finite false m e => bounded prec emax m e
  | _ => false
  end.

(** Rounding to 53 significant bits, to nearest with ties to even, on
    these integers: [ulp_exp V] is the exponent of the last place that
    a 53-bit mantissa for [V] keeps. *)
Definition ulp_exp (V : Z) : Z := Z.max (Z.log2 V + 1 - 53) 0.

Definition round_shift (M n : Z) : Z :=
  let q := M / 2 ^ n in
  let r := M mod 2 ^ n in
  if 2 * r <? 2 ^ n then q
  else if 2 ^ n <? 2 * r then q + 1
  else if Z.even q then q else q + 1.

Definition rnd (V : Z) : Z :=
  let g := ulp_exp V in round_shift V g * 2 ^ g.

Definition representable (V : Z) : Prop := V mod 2 ^ ulp_exp V = 0.

(** The record [SpecFloat.shr] holds after [k] one-bit right shifts of
    [M]: the quotient, the last bit shifted out, and whether a bit
    shifted out before it was set. *)
Definition shifted (M k : Z) : shr_record :=
  Build_shr_record (M / 2 ^ k) (Z.odd (M / 2 ^ (k - 1)))
    (negb (M mod 2 ^ (k - 1) =? 0)).

(** Not below zero: a zero of either sign, or a positive number or
    infinity; and its mirror image, where [NaN] is let through since
    the code's comparisons let it through. *)
Definition signNonneg (x : spec_float) : bool :=
  match x with
  | S754_zero _ => true
  | S754_infinity s => negb s
  | S754_nan => false
  | S754_finite s _ _ => negb s
  end.


(** Below zero: a negative number or minus infinity. *)
Definition negative (x : spec_float) : bool :=
  match x with
  | S754_infinity s | S754_finite s _ _ => s
  | _ => false
  end.

(** 0.1 as the double nearest to it, [0x1.999999999999ap-4], in units
    of 2^-1074. *)
Definition tenth : Z := 7205759403792794 * 2 ^ 1018.

(** The quotient A / B rounded to the nearest whole number, ties to
    even. *)
Definition round_div (A B : Z) : Z :=
  let q := A / B in
  let r := A mod B in
  if 2 * r <? B then q
  else if B <? 2 * r then q + 1
  else if Z.even q then q else q + 1.

(** The record [SpecFloat] keeps of a quotient A / B: its whole part,
    whether the rest is a half or more, and whether the rest is
    neither nothing nor a half. *)
Definition ratio_record (A B : Z) : shr_record :=
  Build_shr_record (A / B) (B <=? 2 * (A mod B))
    (negb ((A mod B =? 0) || (2 * (A mod B) =? B))).

(** Dividing m_x * 2^e_x by m_y * 2^e_y, as [SFdiv] does: the exponent
    the whole quotient is taken at, the numerator shifted for it, and
    the exponent and the mantissa of the rounded result. *)
Definition quotient_exp (mx : positive) (ex : Z) (my : positive) (ey : Z) : Z :=
  Z.min (fexp prec emax (Zpos (digits2_pos mx) + ex - (Zpos (digits2_pos my) + ey)))
    (ex - ey).

Definition numerator (mx : positive) (ex : Z) (my : positive) (ey : Z) : Z :=
  Zpos mx * 2 ^ (ex - ey - quotient_exp mx ex my ey).

Definition result_exp (mx : positive) (ex : Z) (my : positive) (ey : Z) : Z :=
  fexp prec emax
    (Zdigits2 (numerator mx ex my ey / Zpos my) + quotient_exp mx ex my ey).

Definition result_mantissa (mx : positive) (ex : Z) (my : positive) (ey : Z) : Z :=
  round_div (numerator mx ex my ey)
    (Zpos my * 2 ^ (result_exp mx ex my ey - quotient_exp mx ex my ey)).

(** [STEP_SECONDS], in units of 2^-1074. *)
Definition five : Z := 5 * 2 ^ 1074.

(** 2^1024 in units of 2^-1074: every finite binary64 is below it. *)
Definition overflow : Z := 2 ^ 2098.

End Binary64.

(** The exact value of a float in units of 2^-1074 seconds, and whether
    it is a number at all (neither [NaN] nor an infinity). *)
Definition ticks (x : float) : Z := Binary64.val (Prim2SF x).

Definition isFinite (x : float) : bool :=
  match Prim2SF x with
  | S754_zero _ | S754_finite _ _ _ => true
  | _ => false
  end.

(** [r] is [t] up to rounding: both are numbers and they differ by at
    most 2^-50 of the magnitude [t + STEP_SECONDS] the steps work at
    (two roundings of relative error 2^-53 each fit in it). *)
Definition withinTolerance (r t : float) : Prop :=
  isFinite r = true /\ isFinite t = true /\
  (2 ^ 50 * Z.abs (ticks r - ticks t) <= ticks t + ticks STEP_SECONDS)%Z.

(** ** Concrete players to evaluate on *)

(** A player at [time] of [length] seconds that is not scrubbing and
    has received no call yet, and a fresh seek bar attached to it. *)
Definition examplePlayer (time length : float) (paused : bool) : Player.t :=
  Player.mk time length false paused time [].

Definition exampleSeekBar (p : Player.t) : SeekBar :=
  mkSeekBar p None None None [].

(** Stand-ins for the collaborators: a slider that reports
    [getPercent] as it is, and empty texts. *)
Definition plainSliderUpdate (this : SeekBar) : float := eval getPercent this.
Definition emptyFormatTime (time duration : float) : string := EmptyString.
Definition emptyToFixed (x : float) (digits : nat) : string := EmptyString.


(** ** The handlers by kind, and the calls counted *)

(** The entry points whose body calls [pause()] (the mouse down) and
    [currentTime(seconds)] (a drag and the two keyboard steps). *)
Definition isMouseDown {Event : Type} (o : op Event) : bool :=
  match o with MouseDown _ => true | _ => false end.

Definition isSeek {Event : Type} (o : op Event) : bool :=
  match o with MouseMove _ | StepForward | StepBack => true | _ => false end.

(** How often [pause()] and [scrubbing(b)] were called. *)
Definition pauses (p : Player.t) : nat :=
  List.length (filter (Player.call_eqb Player.Pause) (Player.calls p)).

Definition isScrubbingCall (c : Player.call) : bool :=
  match c with Player.Scrubbing _ => true | _ => false end.

Definition scrubbingCalls (p : Player.t) : nat :=
  List.length (filter isScrubbingCall (Player.calls p)).

(** The percent the [PlayProgressBar] was handed last, if any. *)
Definition barPercent (this : SeekBar) : option float :=
  List.last (map Some (bar this)) None.

(** ** Default options *)

(** [children.splice(start, 0, item)]: [item] goes in before the
    element at index [start], or at the end when there is none. *)
Definition splice_insert {A : Type} (start : nat) (item : A) (l : list A) : list A :=
  firstn start l ++ item :: skipn start l.

(** [IE_VERSION] (utils/browser.js, not under src/) is [null], here
    [None], or the version as a number.  [!IE_VERSION] holds of
    [null], 0 and [NaN]; [IE_VERSION > 8] is false of [null]. *)
Definition falsy (v : option float) : bool :=
  match v with
  | None => true
  | Some x => (x =? 0) || is_nan x
  end.

Definition above8 (v : option float) : bool :=
  match v with
  | None => false
  | Some x => 8 <? x
  end.

Record Options : Type := mkOptions {
  children : list string;
  barName : string
}.

(** [SeekBar.prototype.options_], after the module has run:
    [if (!IE_VERSION || IE_VERSION > 8)
       options_.children.splice(1, 0, 'mouseTimeDisplay')]. *)
Definition options_ (IE_VERSION : option float) : Options :=
  let children := ["loadProgressBar"; "playProgressBar"]%string in
  mkOptions
    (if falsy IE_VERSION || above8 IE_VERSION
     then splice_insert 1 "mouseTimeDisplay"%string children
     else children)
    "playProgressBar"%string.

(** Proof steps that recur: the calls a handler adds, then counts. *)
Ltac added_calls := split; [reflexivity|]; cbn; repeat split; lia.

(** ** Integer rounding *)

Module Rounding.

Import Binary64.
Local Open Scope Z_scope.

(** *** The last place *)

Lemma ulp_exp_nonneg V : 0 <= ulp_exp V.
Proof. unfold ulp_exp; lia. Qed.

Lemma ulp_exp_mono a b : 0 < a -> a <= b -> ulp_exp a <= ulp_exp b.
Proof.
  intros Ha Hab. unfold ulp_exp.
  pose proof (Z.log2_le_mono a b Hab). lia.
Qed.

Lemma ulp_exp_upper V : 0 < V -> V < 2 ^ (ulp_exp V + 53).
Proof.
  intros HV. destruct (Z.log2_spec V HV) as [_ H].
  eapply Z.lt_le_trans; [exact H|].
  apply Z.pow_le_mono_r; [lia|]. unfold ulp_exp.
  pose proof (Z.log2_nonneg V). lia.
Qed.

Lemma ulp_exp_lower V : 0 < V -> 0 < ulp_exp V -> 2 ^ (ulp_exp V + 52) <= V.
Proof.
  intros HV Hg. destruct (Z.log2_spec V HV) as [H _].
  replace (ulp_exp V + 52) with (Z.log2 V); [exact H|].
  unfold ulp_exp in *. lia.
Qed.

(** *** Rounding goes to one of the two neighbours *)

Lemma round_shift_cases M n : 0 <= M -> 0 <= n ->
  let q := M / 2 ^ n in
  let r := M mod 2 ^ n in
  (round_shift M n = q /\ 2 * r <= 2 ^ n) \/
  (round_shift M n = q + 1 /\ 2 ^ n <= 2 * r).
Proof.
  intros HM Hn q r. unfold round_shift. fold q r.
  destruct (Z.ltb_spec (2 * r) (2 ^ n)); [left; lia|].
  destruct (Z.ltb_spec (2 ^ n) (2 * r)); [right; lia|].
  destruct (Z.even q); [left|right]; lia.
Qed.

Lemma rnd_cases V : 0 <= V ->
  let g := ulp_exp V in
  let q := V / 2 ^ g in
  let r := V mod 2 ^ g in
  (rnd V = q * 2 ^ g /\ 2 * r <= 2 ^ g) \/
  (rnd V = (q + 1) * 2 ^ g /\ 2 ^ g <= 2 * r).
Proof.
  intros HV g q r. unfold rnd. fold g.
  destruct (round_shift_cases V g HV (ulp_exp_nonneg V)) as [[-> H]|[-> H]];
    [left|right]; split; auto.
Qed.

(** A representable value is kept. *)
Lemma rnd_exact V : 0 <= V -> representable V -> rnd V = V.
Proof.
  intros HV HR. unfold representable in HR. unfold rnd, round_shift.
  set (g := ulp_exp V) in *.
  assert (0 < 2 ^ g) by (apply Z.pow_pos_nonneg; [lia|apply ulp_exp_nonneg]).
  rewrite HR. replace (2 * 0 <? 2 ^ g) with true by (symmetry; apply Z.ltb_lt; lia).
  pose proof (Z.div_mod V (2 ^ g)). lia.
Qed.

(** The relative error is at most 2^-53. *)
Lemma rnd_error V : 0 <= V -> 2 ^ 53 * Z.abs (rnd V - V) <= V.
Proof.
  intros HV.
  set (g := ulp_exp V).
  assert (Hg : 0 <= g) by apply ulp_exp_nonneg.
  assert (Hp : 0 < 2 ^ g) by (apply Z.pow_pos_nonneg; lia).
  pose proof (Z.div_mod V (2 ^ g) ltac:(lia)) as Hdm.
  pose proof (Z.mod_pos_bound V (2 ^ g) Hp) as Hr.
  assert (Herr : 2 * Z.abs (rnd V - V) <= 2 ^ g /\ (g = 0 -> rnd V = V)).
  { destruct (rnd_cases V HV) as [[-> H]|[-> H]]; fold g in H |- *; split; try lia.
    - intros ->. change (2 ^ 0) with 1 in *. lia.
    - intros ->. change (2 ^ 0) with 1 in *. lia. }
  destruct Herr as [Herr Hz].
  destruct (Z.eq_dec g 0) as [E|E].
  - rewrite (Hz E). replace (V - V) with 0 by lia. simpl. lia.
  - assert (0 < V).
    { destruct (Z.eq_dec V 0); [|lia]. subst V. unfold g, ulp_exp in E. simpl in E. lia. }
    pose proof (ulp_exp_lower V H ltac:(fold g; lia)) as Hl. fold g in Hl.
    rewrite Z.pow_add_r in Hl by lia.
    change (2 ^ 52) with 4503599627370496 in Hl.
    change (2 ^ 53) with 9007199254740992. lia.
Qed.

Lemma representable_multiple c g :
  0 < c -> representable c -> 0 <= g -> g <= ulp_exp c -> c mod 2 ^ g = 0.
Proof.
  intros Hc HR Hg Hle. unfold representable in HR.
  apply Z.mod_divide in HR; [|apply Z.pow_nonzero; [lia|apply ulp_exp_nonneg]].
  apply Z.mod_divide; [apply Z.pow_nonzero; lia|].
  eapply Z.divide_trans; [|exact HR].
  exists (2 ^ (ulp_exp c - g)). rewrite <- Z.pow_add_r by lia. f_equal. lia.
Qed.

(** Rounding does not cross a representable value. *)
Lemma rnd_lower c V : 0 < c -> representable c -> c <= V -> c <= rnd V.
Proof.
  intros Hc HR Hle.
  set (g := ulp_exp V).
  assert (Hg : 0 <= g) by apply ulp_exp_nonneg.
  assert (Hp : 0 < 2 ^ g) by (apply Z.pow_pos_nonneg; lia).
  assert (Hq : c <= V / 2 ^ g * 2 ^ g).
  { pose proof (ulp_exp_mono c V Hc Hle) as Hm. fold g in Hm.
    destruct (Z.eq_dec (ulp_exp c) g) as [E|E].
    - pose proof (representable_multiple c g Hc HR Hg ltac:(lia)) as Hd.
      pose proof (Z.div_mod c (2 ^ g) ltac:(lia)).
      pose proof (Z.div_le_mono c V (2 ^ g) Hp Hle). nia.
    - assert (Hgpos : 0 < g) by (pose proof (ulp_exp_nonneg c); lia).
      pose proof (ulp_exp_upper c Hc) as Hu.
      pose proof (ulp_exp_lower V ltac:(lia) Hgpos) as Hl. fold g in Hl.
      assert (2 ^ (ulp_exp c + 53) <= 2 ^ (g + 52)) by (apply Z.pow_le_mono_r; lia).
      assert (Hq52 : 2 ^ 52 <= V / 2 ^ g).
      { apply Z.div_le_lower_bound; [lia|].
        rewrite <- Z.pow_add_r by lia. exact Hl. }
      assert (2 ^ (g + 52) <= V / 2 ^ g * 2 ^ g)
        by (rewrite Z.pow_add_r by lia; nia).
      lia. }
  destruct (rnd_cases V ltac:(lia)) as [[-> H]|[-> H]]; fold g; lia.
Qed.

Lemma rnd_upper c V : 0 <= V -> representable c -> V <= c -> rnd V <= c.
Proof.
  intros HV HR Hle.
  destruct (Z.eq_dec V 0) as [->|HV0].
  { unfold rnd, round_shift, ulp_exp. simpl. lia. }
  set (g := ulp_exp V).
  assert (Hg : 0 <= g) by apply ulp_exp_nonneg.
  assert (Hp : 0 < 2 ^ g) by (apply Z.pow_pos_nonneg; lia).
  pose proof (Z.div_mod V (2 ^ g) ltac:(lia)) as Hdm.
  pose proof (Z.mod_pos_bound V (2 ^ g) Hp) as Hr.
  destruct (Z.eq_dec (V mod 2 ^ g) 0) as [E|E].
  { rewrite rnd_exact; [lia|lia|exact E]. }
  pose proof (ulp_exp_mono V c ltac:(lia) Hle) as Hm. fold g in Hm.
  pose proof (representable_multiple c g ltac:(lia) HR Hg Hm) as Hd.
  pose proof (Z.div_mod c (2 ^ g) ltac:(lia)) as Hc.
  assert (V / 2 ^ g < c / 2 ^ g) by nia.
  destruct (rnd_cases V ltac:(lia)) as [[-> H']|[-> H']]; fold g; nia.
Qed.

(** *** [SpecFloat]'s shifts and rounding, on integers *)

Lemma digits2_pos_log2 m : Zpos (digits2_pos m) = Z.log2 (Zpos m) + 1.
Proof.
  assert (E : forall p, digits2_pos p = Pos.size p) by (induction p; simpl; congruence).
  rewrite E. destruct m; simpl; lia.
Qed.

Lemma iter_pos_iter {A} (f : A -> A) p : forall x, SpecFloat.iter_pos f p x = Pos.iter f x p.
Proof.
  induction p; intros x; simpl; rewrite ?IHp; auto.
  rewrite <- !Pos.iter_swap. reflexivity.
Qed.

Lemma shr_1_nonneg m r s : 0 <= m ->
  shr_1 (Build_shr_record m r s) = Build_shr_record (m / 2) (Z.odd m) (r || s).
Proof.
  intros Hm. rewrite <- Z.div2_div.
  destruct m as [|[p|p|]|p]; try lia; reflexivity.
Qed.

Lemma pow2_pred k : 1 <= k -> 2 ^ k = 2 ^ (k - 1) * 2.
Proof.
  intros Hk. replace k with (Z.succ (k - 1)) at 1 by lia.
  rewrite Z.pow_succ_r by lia. lia.
Qed.

Lemma shifted_succ M k : 0 <= M -> 1 <= k ->
  shr_1 (shifted M k) = shifted M (k + 1).
Proof.
  intros HM Hk. unfold shifted.
  assert (Hp : 0 < 2 ^ k) by (apply Z.pow_pos_nonneg; lia).
  assert (Hp' : 0 < 2 ^ (k - 1)) by (apply Z.pow_pos_nonneg; lia).
  rewrite shr_1_nonneg by (apply Z.div_pos; lia).
  replace (k + 1 - 1) with k by lia.
  f_equal.
  - rewrite Z.div_div by lia. f_equal.
    rewrite (pow2_pred (k + 1)) by lia. f_equal. f_equal. lia.
  - rewrite (pow2_pred k Hk). rewrite Z.rem_mul_r by lia.
    rewrite Zodd_mod.
    pose proof (Z.mod_pos_bound M (2 ^ (k - 1)) Hp').
    pose proof (Z.mod_pos_bound (M / 2 ^ (k - 1)) 2 ltac:(lia)).
    destruct (Z.eqb_spec ((M / 2 ^ (k - 1)) mod 2) 1) as [E1|E1];
    destruct (Z.eqb_spec (M mod 2 ^ (k - 1)) 0) as [E2|E2]; simpl;
    symmetry; rewrite ?negb_true_iff, ?negb_false_iff; try apply Z.eqb_neq; try apply Z.eqb_eq; nia.
Qed.

Lemma iter_shr_1 M p : 0 <= M ->
  SpecFloat.iter_pos shr_1 p (Build_shr_record M false false) = shifted M (Zpos p).
Proof.
  intros HM. rewrite iter_pos_iter.
  induction p using Pos.peano_ind.
  - change (Pos.iter shr_1 (Build_shr_record M false false) 1)
      with (shr_1 (Build_shr_record M false false)).
    rewrite shr_1_nonneg by lia. unfold shifted.
    change (2 ^ (1 - 1)) with 1. change (2 ^ 1) with 2.
    rewrite Z.div_1_r, Z.mod_1_r. reflexivity.
  - rewrite Pos.iter_succ, IHp, shifted_succ by lia. f_equal. lia.
Qed.

Lemma round_shifted M k : 0 <= M -> 1 <= k ->
  round_nearest_even (shr_m (shifted M k)) (loc_of_shr_record (shifted M k))
  = round_shift M k.
Proof.
  intros HM Hk. unfold shifted, round_shift.
  cbn [shr_m loc_of_shr_record].
  assert (Hp' : 0 < 2 ^ (k - 1)) by (apply Z.pow_pos_nonneg; lia).
  pose proof (pow2_pred k Hk) as E.
  assert (ER : M mod 2 ^ k
               = M mod 2 ^ (k - 1) + 2 ^ (k - 1) * ((M / 2 ^ (k - 1)) mod 2)).
  { rewrite E. apply Z.rem_mul_r; lia. }
  rewrite Zodd_mod.
  pose proof (Z.mod_pos_bound M (2 ^ (k - 1)) Hp').
  pose proof (Z.mod_pos_bound (M / 2 ^ (k - 1)) 2 ltac:(lia)).
  set (b := (M / 2 ^ (k - 1)) mod 2) in *.
  set (l := M mod 2 ^ (k - 1)) in *.
  set (R := M mod 2 ^ k) in *.
  set (q := M / 2 ^ k).
  destruct (Z.eqb_spec b 1) as [E1|E1];
  destruct (Z.eqb_spec l 0) as [E2|E2];
  cbn [negb round_nearest_even];
  destruct (Z.ltb_spec (2 * R) (2 ^ k));
  destruct (Z.ltb_spec (2 ^ k) (2 * R)); try nia; try reflexivity.
Qed.

Lemma fexp_eq x : fexp prec emax x = Z.max (x - 53) (-1074).
Proof. reflexivity. Qed.

Lemma pos_iter_xO m d : Zpos (Pos.iter xO m d) = Zpos m * 2 ^ Zpos d.
Proof.
  induction d using Pos.peano_ind.
  - simpl. lia.
  - rewrite Pos.iter_succ, Pos2Z.inj_xO, IHd, Pos2Z.inj_succ, Z.pow_succ_r by lia. lia.
Qed.

Lemma shl_align_spec mx ex ex' :
  Zpos (fst (shl_align mx ex ex')) = Zpos mx * 2 ^ (ex - Z.min ex ex')
  /\ snd (shl_align mx ex ex') = Z.min ex ex'.
Proof.
  unfold shl_align. destruct (ex' - ex) as [|d|d] eqn:E; cbn [fst snd].
  - replace (Z.min ex ex') with ex by lia. rewrite Z.sub_diag. simpl. lia.
  - replace (Z.min ex ex') with ex by lia. rewrite Z.sub_diag. simpl. lia.
  - replace (Z.min ex ex') with ex' by lia. rewrite pos_iter_xO.
    replace (ex - ex') with (Zpos d) by lia. auto.
Qed.

Lemma scaled_log2 m e : -1074 <= e ->
  Z.log2 (scaled m e) + 1 = Zpos (digits2_pos m) + e + 1074.
Proof.
  intros He. unfold scaled. rewrite Z.log2_mul_pow2 by lia.
  rewrite digits2_pos_log2. lia.
Qed.

Lemma ulp_exp_scaled m e : -1074 <= e ->
  ulp_exp (scaled m e) = fexp prec emax (Zpos (digits2_pos m) + e) + 1074.
Proof.
  intros He. unfold ulp_exp. rewrite scaled_log2, fexp_eq by lia. lia.
Qed.

Lemma scaled_pos m e : -1074 <= e -> 0 < scaled m e.
Proof.
  intros. unfold scaled. apply Z.mul_pos_pos; [lia|]. apply Z.pow_pos_nonneg; lia.
Qed.

Lemma round_shift_scale M n k : 0 <= M -> 0 <= n -> 0 <= k ->
  round_shift (M * 2 ^ k) (n + k) = round_shift M n.
Proof.
  intros HM Hn Hk. unfold round_shift.
  assert (Hpn : 0 < 2 ^ n) by (apply Z.pow_pos_nonneg; lia).
  assert (Hpk : 0 < 2 ^ k) by (apply Z.pow_pos_nonneg; lia).
  rewrite Z.pow_add_r by lia.
  rewrite Z.div_mul_cancel_r by lia.
  rewrite Z.mul_mod_distr_r by lia.
  set (q := M / 2 ^ n). set (r := M mod 2 ^ n).
  destruct (Z.ltb_spec (2 * (r * 2 ^ k)) (2 ^ n * 2 ^ k));
  destruct (Z.ltb_spec (2 * r) (2 ^ n)); try nia; try reflexivity.
  destruct (Z.ltb_spec (2 ^ n * 2 ^ k) (2 * (r * 2 ^ k)));
  destruct (Z.ltb_spec (2 ^ n) (2 * r)); try nia; reflexivity.
Qed.

(** Canonical floats are exactly representable. *)
Lemma canonical_representable m e : -1074 <= e ->
  canonical_mantissa prec emax m e = true -> representable (scaled m e).
Proof.
  intros He Hc. unfold canonical_mantissa in Hc. apply Z.eqb_eq in Hc.
  unfold representable. rewrite ulp_exp_scaled, Hc by lia.
  unfold scaled. apply Z.mod_mul. apply Z.pow_nonzero; lia.
Qed.

Lemma bounded_range m e : bounded prec emax m e = true ->
  canonical_mantissa prec emax m e = true /\ -1074 <= e <= 971.
Proof.
  unfold bounded. intros H. apply andb_true_iff in H. destruct H as [Hc He].
  split; [exact Hc|]. apply Z.leb_le in He. change (emax - prec) with 971 in He.
  unfold canonical_mantissa in Hc. apply Z.eqb_eq in Hc. rewrite fexp_eq in Hc. lia.
Qed.

(** *** [binary_round] is [rnd] *)

(** A mantissa that already fits is kept. *)
Lemma binary_round_aux_exact sx mz ez :
  fexp prec emax (Zpos (digits2_pos mz) + ez) = ez ->
  binary_round_aux prec emax sx (Zpos mz) ez loc_Exact
  = if ez <=? 971 then S754_finite sx mz ez else S754_infinity sx.
Proof.
  intros Hc. unfold binary_round_aux, shr_fexp.
  cbn [Zdigits2 shr_record_of_loc]. rewrite Hc, Z.sub_diag.
  cbn [shr shr_m loc_of_shr_record round_nearest_even Zdigits2 shr_record_of_loc].
  rewrite Hc, Z.sub_diag. cbn [shr shr_m]. reflexivity.
Qed.

Lemma digits_53 m : 2 ^ 52 <= Zpos m < 2 ^ 53 -> Zpos (digits2_pos m) = 53.
Proof.
  intros H. rewrite digits2_pos_log2.
  rewrite (Z.log2_unique (Zpos m) 52); lia.
Qed.

Lemma shift_mantissa_range M e p : -1074 <= e ->
  fexp prec emax (Zpos (digits2_pos M) + e) - e = Zpos p ->
  2 ^ 52 <= Zpos M / 2 ^ Zpos p < 2 ^ 53.
Proof.
  intros He Hp. rewrite fexp_eq in Hp.
  assert (Hd : Zpos (digits2_pos M) = Zpos p + 53) by lia.
  rewrite digits2_pos_log2 in Hd.
  destruct (Z.log2_spec (Zpos M) ltac:(lia)) as [Hl Hu].
  replace (Z.log2 (Zpos M)) with (52 + Zpos p) in Hl by lia.
  replace (Z.succ (Z.log2 (Zpos M))) with (53 + Zpos p) in Hu by lia.
  rewrite Z.pow_add_r in Hl, Hu by lia.
  assert (0 < 2 ^ Zpos p) by (apply Z.pow_pos_nonneg; lia).
  split.
  - apply Z.div_le_lower_bound; lia.
  - apply Z.div_lt_upper_bound; lia.
Qed.

(** A longer mantissa is shifted right and rounded; a carry out of the
    53 bits costs one more shift. *)
Lemma binary_round_aux_shift sx M e p :
  -1074 <= e ->
  fexp prec emax (Zpos (digits2_pos M) + e) - e = Zpos p ->
  let m2 := round_shift (Zpos M) (Zpos p) in
  let fe := e + Zpos p in
  2 ^ 52 <= m2 <= 2 ^ 53 /\
  binary_round_aux prec emax sx (Zpos M) e loc_Exact
  = if m2 <? 2 ^ 53
    then (if fe <=? 971 then S754_finite sx (Z.to_pos m2) fe
          else S754_infinity sx)
    else (if fe + 1 <=? 971 then S754_finite sx (Z.to_pos (2 ^ 52)) (fe + 1)
          else S754_infinity sx).
Proof.
  intros He Hp m2 fe.
  pose proof (shift_mantissa_range M e p He Hp) as Hq.
  assert (Hm2 : 2 ^ 52 <= m2 <= 2 ^ 53).
  { destruct (round_shift_cases (Zpos M) (Zpos p) ltac:(lia) ltac:(lia)) as [[E _]|[E _]];
      fold m2 in E; lia. }
  split; [exact Hm2|].
  unfold binary_round_aux, shr_fexp.
  cbn [Zdigits2 shr_record_of_loc]. rewrite Hp.
  cbn [shr]. rewrite iter_shr_1 by lia.
  rewrite round_shifted by lia. fold m2. fold fe.
  destruct m2 as [|m2p|m2p] eqn:Em2; try lia.
  cbn [Zdigits2 shr_record_of_loc].
  destruct (Z.ltb_spec (Zpos m2p) (2 ^ 53)) as [Hlt|Hge].
  - rewrite digits_53 by lia. rewrite fexp_eq.
    replace (Z.max (53 + fe - 53) (-1074) - fe) with 0 by lia.
    cbn [shr shr_m]. change (emax - prec) with 971. reflexivity.
  - assert (Zpos m2p = 2 ^ 53) by lia.
    assert (E54 : Zpos (digits2_pos m2p) = 54).
    { rewrite digits2_pos_log2, H. reflexivity. }
    rewrite E54, fexp_eq.
    replace (Z.max (54 + fe - 53) (-1074) - fe) with 1 by lia.
    cbn [shr]. rewrite iter_shr_1 by lia. rewrite H.
    change (shifted (2 ^ 53) 1) with (Build_shr_record (2 ^ 52) false false).
    cbn [shr_m]. change (emax - prec) with 971. reflexivity.
Qed.

(** The overflow threshold, by exponents only. *)
Lemma overflow_pos : 0 < overflow.
Proof. unfold overflow. apply Z.pow_pos_nonneg; lia. Qed.

Lemma pow_le_overflow k : k <= 2098 -> 2 ^ k <= overflow.
Proof. intros Hk. unfold overflow. apply Z.pow_le_mono_r; lia. Qed.

Lemma overflow_le_pow k : 2098 <= k -> overflow <= 2 ^ k.
Proof. intros Hk. unfold overflow. apply Z.pow_le_mono_r; lia. Qed.

Lemma pow_lt_overflow k : 0 <= k -> (2 ^ k < overflow <-> k < 2098).
Proof.
  intros Hk. unfold overflow. symmetry. apply Z.pow_lt_mono_r_iff; lia.
Qed.

Lemma overflow_53 : overflow = 2 ^ 53 * 2 ^ 2045.
Proof.
  unfold overflow. change 2098 with (53 + 2045). apply Z.pow_add_r; lia.
Qed.

Lemma overflow_52 : overflow = 2 ^ 52 * 2 ^ 2046.
Proof.
  unfold overflow. change 2098 with (52 + 2046). apply Z.pow_add_r; lia.
Qed.

Lemma pow_le_2045 k : k <= 2045 -> 2 ^ k <= 2 ^ 2045.
Proof. intros Hk. apply Z.pow_le_mono_r; lia. Qed.

Lemma pow_ge_2046 k : 2046 <= k -> 2 ^ 2046 <= 2 ^ k.
Proof. intros Hk. apply Z.pow_le_mono_r; lia. Qed.

Lemma mantissa_exp_bound m k : 0 <= k ->
  2 ^ 52 <= m < 2 ^ 53 ->
  (k <= 2045 <-> m * 2 ^ k < overflow).
Proof.
  intros Hk Hm.
  assert (Hpk : 0 < 2 ^ k) by (apply Z.pow_pos_nonneg; lia).
  split; intros H.
  - pose proof (pow_le_2045 k H) as Hle. rewrite overflow_53.
    set (A := 2 ^ 2045) in *. clearbody A. nia.
  - destruct (Z.le_gt_cases k 2045) as [|Hgt]; [assumption|exfalso].
    pose proof (pow_ge_2046 k ltac:(lia)) as Hge. rewrite overflow_52 in H.
    set (A := 2 ^ 2046) in *. clearbody A. nia.
Qed.

(** Rounding a positive integer multiple of 2^e: the result is the
    float of value [rnd], or an infinity from [overflow] on. *)
Lemma binary_round_spec sx M e : -1074 <= e ->
  exists m' e',
    scaled m' e' = rnd (scaled M e) /\
    canonical_mantissa prec emax m' e' = true /\ -1074 <= e' /\
    (e' <= 971 <-> rnd (scaled M e) < overflow) /\
    binary_round prec emax sx M e
    = if e' <=? 971 then S754_finite sx m' e' else S754_infinity sx.
Proof.
  intros He. unfold binary_round.
  set (fe := fexp prec emax (Zpos (digits2_pos M) + e)).
  pose proof (ulp_exp_scaled M e He) as Hg. fold fe in Hg.
  pose proof (scaled_pos M e He) as HV.
  destruct (shl_align_spec M e fe) as [Hmz Hez].
  destruct (shl_align M e fe) as [mz ez]. cbn [fst snd] in Hmz, Hez.
  destruct (Z.le_gt_cases fe e) as [Hle|Hgt].
  - (* the mantissa already fits: the value is kept *)
    replace (Z.min e fe) with fe in * by lia. subst ez.
    assert (Hfe : -1074 <= fe) by (unfold fe; rewrite fexp_eq; lia).
    assert (Hs : scaled mz fe = scaled M e).
    { unfold scaled. rewrite Hmz, <- Z.mul_assoc, <- Z.pow_add_r by lia.
      f_equal. f_equal. lia. }
    assert (Hc : fexp prec emax (Zpos (digits2_pos mz) + fe) = fe).
    { pose proof (scaled_log2 mz fe Hfe) as H1. pose proof (scaled_log2 M e He) as H2.
      rewrite Hs in H1.
      replace (Zpos (digits2_pos mz) + fe) with (Zpos (digits2_pos M) + e) by lia.
      reflexivity. }
    exists mz, fe. rewrite binary_round_aux_exact by exact Hc.
    assert (Hcan : canonical_mantissa prec emax mz fe = true)
      by (unfold canonical_mantissa; apply Z.eqb_eq; exact Hc).
    assert (Hr : rnd (scaled M e) = scaled M e).
    { rewrite <- Hs. apply rnd_exact; [rewrite Hs; lia|].
      apply canonical_representable; assumption. }
    rewrite Hr. repeat split; auto.
    + intros H. pose proof (ulp_exp_upper _ HV) as Hu. rewrite Hg in Hu.
      eapply Z.lt_le_trans; [exact Hu|]. apply pow_le_overflow; lia.
    + intros H. destruct (Z.le_gt_cases fe 971) as [|Hbig]; [assumption|exfalso].
      pose proof (ulp_exp_lower _ HV ltac:(lia)) as Hl. rewrite Hg in Hl.
      pose proof (overflow_le_pow (fe + 1074 + 52) ltac:(lia)).
      lia.
  - (* the mantissa is too long: shift right and round *)
    replace (Z.min e fe) with e in * by lia. subst ez.
    rewrite Z.sub_diag, Z.mul_1_r in Hmz. injection Hmz as ->.
    assert (Hp : exists p, fe - e = Zpos p).
    { destruct (fe - e) as [|p|p] eqn:E; try lia. eauto. }
    destruct Hp as [p Hp].
    destruct (binary_round_aux_shift sx M e p He Hp) as [Hm2 Hres].
    set (m2 := round_shift (Zpos M) (Zpos p)) in *.
    replace (e + Zpos p) with fe in Hres by lia.
    assert (Hfe : -1074 < fe) by lia.
    assert (Hr : rnd (scaled M e) = m2 * 2 ^ (fe + 1074)).
    { unfold rnd. rewrite Hg. f_equal. unfold scaled.
      replace (fe + 1074) with (Zpos p + (e + 1074)) by lia.
      apply round_shift_scale; lia. }
    rewrite Hr, Hres.
    destruct (Z.ltb_spec m2 (2 ^ 53)) as [Hlt|Hge].
    + exists (Z.to_pos m2), fe.
      assert (Em : Zpos (Z.to_pos m2) = m2) by (apply Z2Pos.id; lia).
      repeat split.
      * unfold scaled. rewrite Em. reflexivity.
      * unfold canonical_mantissa. apply Z.eqb_eq.
        rewrite digits_53 by lia. rewrite fexp_eq. lia.
      * lia.
      * intros H. apply mantissa_exp_bound; lia.
      * intros H. apply mantissa_exp_bound in H; lia.
    + assert (Em : m2 = 2 ^ 53) by lia.
      exists (Z.to_pos (2 ^ 52)), (fe + 1).
      repeat split.
      * unfold scaled. rewrite Em.
        change (Zpos (Z.to_pos (2 ^ 52))) with (2 ^ 52).
        rewrite <- !Z.pow_add_r by lia. f_equal. lia.
      * unfold canonical_mantissa. apply Z.eqb_eq.
        rewrite digits_53 by (change (Zpos (Z.to_pos (2 ^ 52))) with (2 ^ 52); lia).
        rewrite fexp_eq. lia.
      * lia.
      * intros H. rewrite Em, <- Z.pow_add_r by lia.
        apply pow_lt_overflow; lia.
      * intros H. rewrite Em, <- Z.pow_add_r in H by lia.
        apply pow_lt_overflow in H; lia.
Qed.

(** *** Order, sums and differences of floats that are not negative *)

Lemma bounded_lt_max m e : bounded prec emax m e = true ->
  0 < scaled m e < overflow.
Proof.
  intros H. destruct (bounded_range m e H) as [Hc He].
  pose proof (scaled_pos m e ltac:(lia)) as Hp. split; [exact Hp|].
  pose proof (ulp_exp_upper _ Hp) as Hu.
  rewrite ulp_exp_scaled in Hu by lia.
  unfold canonical_mantissa in Hc. apply Z.eqb_eq in Hc. rewrite Hc in Hu.
  eapply Z.lt_le_trans; [exact Hu|]. apply pow_le_overflow; lia.
Qed.

Lemma bounded_representable m e : bounded prec emax m e = true ->
  representable (scaled m e).
Proof.
  intros H. destruct (bounded_range m e H) as [Hc He].
  apply canonical_representable; [lia|exact Hc].
Qed.

Lemma fin_nonneg_val x : fin_nonneg x = true ->
  0 <= val x < overflow /\ representable (val x).
Proof.
  destruct x as [s|s| |[|] m e]; simpl; try discriminate; intros H.
  - pose proof overflow_pos. split; [lia|reflexivity].
  - pose proof (bounded_lt_max m e H). split; [lia|]. apply bounded_representable, H.
Qed.

(** The order of the floats is the order of their values. *)
Lemma SFcompare_nonneg x y : fin_nonneg x = true -> fin_nonneg y = true ->
  SFcompare x y = Some (val x ?= val y).
Proof.
  destruct x as [sx|sx| |[|] mx ex]; try discriminate;
  destruct y as [sy|sy| |[|] my ey]; try discriminate;
  cbn [SFcompare val fin_nonneg]; intros Hx Hy.
  - reflexivity.
  - pose proof (bounded_lt_max my ey Hy). f_equal. symmetry. apply Z.compare_lt_iff. lia.
  - pose proof (bounded_lt_max mx ex Hx). f_equal. symmetry. apply Z.compare_gt_iff. lia.
  - f_equal.
    destruct (bounded_range mx ex Hx) as [Hcx Hex].
    destruct (bounded_range my ey Hy) as [Hcy Hey].
    pose proof (bounded_lt_max mx ex Hx) as Hvx.
    pose proof (bounded_lt_max my ey Hy) as Hvy.
    assert (Hlt : forall m1 e1 m2 e2,
      canonical_mantissa prec emax m1 e1 = true ->
      canonical_mantissa prec emax m2 e2 = true ->
      -1074 <= e1 -> e1 < e2 -> scaled m1 e1 < scaled m2 e2).
    { intros m1 e1 m2 e2 H1 H2 Hlo Hee.
      pose proof (scaled_pos m1 e1 Hlo) as P1.
      pose proof (scaled_pos m2 e2 ltac:(lia)) as P2.
      pose proof (ulp_exp_upper _ P1) as U1.
      pose proof (ulp_exp_lower _ P2) as L2.
      rewrite ulp_exp_scaled in U1, L2 by lia.
      unfold canonical_mantissa in H1, H2. apply Z.eqb_eq in H1, H2.
      rewrite H1 in U1. rewrite H2 in L2.
      specialize (L2 ltac:(lia)).
      assert (2 ^ (e1 + 1074 + 53) <= 2 ^ (e2 + 1074 + 52)) by (apply Z.pow_le_mono_r; lia).
      lia. }
    destruct (Z.compare_spec ex ey) as [E|E|E].
    + subst ey. unfold scaled. change (Pos.compare_cont Eq mx my) with (Zpos mx ?= Zpos my).
      assert (0 < 2 ^ (ex + 1074)) by (apply Z.pow_pos_nonneg; lia).
      destruct (Z.compare_spec (Zpos mx) (Zpos my)) as [E|E|E]; symmetry;
        [apply Z.compare_eq_iff|apply Z.compare_lt_iff|apply Z.compare_gt_iff]; nia.
    + symmetry. apply Z.compare_lt_iff. apply Hlt; auto; lia.
    + symmetry. apply Z.compare_gt_iff. apply Hlt; auto; lia.
Qed.

(** Adding a positive float to a non-negative one rounds the exact sum. *)
Lemma SFadd_nonneg x my ey :
  fin_nonneg x = true -> bounded prec emax my ey = true ->
  exists m' e',
    scaled m' e' = rnd (val x + scaled my ey) /\
    canonical_mantissa prec emax m' e' = true /\ -1074 <= e' /\
    (e' <= 971 <-> rnd (val x + scaled my ey) < overflow) /\
    SFadd prec emax x (S754_finite false my ey)
    = if e' <=? 971 then S754_finite false m' e' else S754_infinity false.
Proof.
  intros Hx Hy.
  destruct (bounded_range my ey Hy) as [Hcy Hey].
  pose proof (bounded_lt_max my ey Hy) as Hvy.
  destruct x as [sx|sx| |[|] mx ex]; try discriminate.
  - exists my, ey. cbn [val SFadd]. rewrite Z.add_0_l.
    rewrite rnd_exact by (try apply bounded_representable; auto; lia).
    replace (ey <=? 971) with true by (symmetry; apply Z.leb_le; lia).
    repeat split; auto; lia.
  - cbn [fin_nonneg] in Hx. destruct (bounded_range mx ex Hx) as [Hcx Hex].
    cbn [val SFadd cond_Zopp].
    destruct (shl_align_spec mx ex (Z.min ex ey)) as [Hax _].
    destruct (shl_align_spec my ey (Z.min ex ey)) as [Hay _].
    replace (Z.min ex (Z.min ex ey)) with (Z.min ex ey) in Hax by lia.
    replace (Z.min ey (Z.min ex ey)) with (Z.min ex ey) in Hay by lia.
    set (ax := fst (shl_align mx ex (Z.min ex ey))) in *.
    set (ay := fst (shl_align my ey (Z.min ex ey))) in *.
    change (Zpos ax + Zpos ay) with (Zpos (ax + ay)).
    cbn [binary_normalize].
    replace (scaled mx ex + scaled my ey) with (scaled (ax + ay) (Z.min ex ey)).
    + apply binary_round_spec. lia.
    + unfold scaled. rewrite Pos2Z.inj_add, Hax, Hay.
      rewrite Z.mul_add_distr_r, <- !Z.mul_assoc, <- !Z.pow_add_r by lia.
      f_equal; f_equal; f_equal; lia.
Qed.

(** Subtracting a positive float from a larger one rounds the exact
    difference; the result is finite. *)
Lemma SFsub_nonneg mx ex my ey :
  bounded prec emax mx ex = true -> bounded prec emax my ey = true ->
  scaled my ey <= scaled mx ex ->
  let r := SFsub prec emax (S754_finite false mx ex) (S754_finite false my ey) in
  fin_nonneg r = true /\ val r = rnd (scaled mx ex - scaled my ey).
Proof.
  intros Hx Hy Hle r.
  destruct (bounded_range mx ex Hx) as [Hcx Hex].
  destruct (bounded_range my ey Hy) as [Hcy Hey].
  pose proof (bounded_lt_max mx ex Hx) as Hvx.
  pose proof (bounded_lt_max my ey Hy) as Hvy.
  subst r. cbn [SFsub cond_Zopp].
  destruct (shl_align_spec mx ex (Z.min ex ey)) as [Hax _].
  destruct (shl_align_spec my ey (Z.min ex ey)) as [Hay _].
  replace (Z.min ex (Z.min ex ey)) with (Z.min ex ey) in Hax by lia.
  replace (Z.min ey (Z.min ex ey)) with (Z.min ex ey) in Hay by lia.
  set (ax := fst (shl_align mx ex (Z.min ex ey))) in *.
  set (ay := fst (shl_align my ey (Z.min ex ey))) in *.
  set (ez := Z.min ex ey) in *.
  assert (Hpz : 0 < 2 ^ (ez + 1074)) by (apply Z.pow_pos_nonneg; lia).
  assert (HD : (Zpos ax - Zpos ay) * 2 ^ (ez + 1074) = scaled mx ex - scaled my ey).
  { unfold scaled. rewrite Z.mul_sub_distr_r, Hax, Hay.
    rewrite <- !Z.mul_assoc, <- !Z.pow_add_r by lia.
    f_equal; f_equal; f_equal; lia. }
  destruct (Zpos ax - Zpos ay) as [|d|d] eqn:ED.
  - cbn [binary_normalize fin_nonneg val]. rewrite <- HD. split; reflexivity.
  - cbn [binary_normalize].
    destruct (binary_round_spec false d ez ltac:(lia)) as (m' & e' & Hs & Hc & He' & Hov & Hres).
    change (Zpos d * 2 ^ (ez + 1074)) with (scaled d ez) in HD.
    rewrite HD in Hs, Hov.
    assert (Hub : rnd (scaled mx ex - scaled my ey) <= scaled mx ex).
    { apply rnd_upper; [lia|apply bounded_representable; auto|lia]. }
    assert (e' <= 971) by (apply Hov; lia).
    rewrite Hres. replace (e' <=? 971) with true by (symmetry; apply Z.leb_le; lia).
    cbn [fin_nonneg val]. split; [|exact Hs].
    unfold bounded. rewrite Hc. apply Z.leb_le. change (emax - prec) with 971. lia.
  - exfalso. nia.
Qed.

(** *** Adding and taking off five seconds *)

Lemma ulp_exp_binade V g : 0 <= g -> 2 ^ (g + 52) <= V < 2 ^ (g + 53) ->
  ulp_exp V = g.
Proof.
  intros Hg [Hl Hu]. unfold ulp_exp.
  assert (0 < 2 ^ (g + 52)) by (apply Z.pow_pos_nonneg; lia).
  rewrite (Z.log2_unique V (g + 52)); try lia.
  replace (Z.succ (g + 52)) with (g + 53) by lia. lia.
Qed.

Lemma rnd_small_addend T F g :
  0 <= g -> 2 ^ (g + 52) <= T -> T mod 2 ^ g = 0 ->
  0 <= F -> 2 * F < 2 ^ g -> T + F < 2 ^ (g + 53) ->
  rnd (T + F) = T.
Proof.
  intros Hg HT Hm HF HF2 Hu.
  assert (Hp : 0 < 2 ^ g) by (apply Z.pow_pos_nonneg; lia).
  assert (Hp' : 0 < 2 ^ (g + 52)) by (apply Z.pow_pos_nonneg; lia).
  assert (Eg : ulp_exp (T + F) = g) by (apply ulp_exp_binade; lia).
  pose proof (Z.div_mod T (2 ^ g) ltac:(lia)) as HdT. rewrite Hm in HdT.
  assert (Eq : (T + F) / 2 ^ g = T / 2 ^ g).
  { symmetry. apply (Z.div_unique (T + F) (2 ^ g) (T / 2 ^ g) F); lia. }
  assert (Er : (T + F) mod 2 ^ g = F).
  { symmetry. apply (Z.mod_unique (T + F) (2 ^ g) (T / 2 ^ g) F); lia. }
  destruct (rnd_cases (T + F) ltac:(lia)) as [[-> H]|[_ H]];
    rewrite Eg in *; rewrite ?Eq, ?Er in *; lia.
Qed.

Lemma five_scaled : scaled 5629499534213120 (-50) = five.
Proof. reflexivity. Qed.

Lemma five_bounded : bounded prec emax 5629499534213120 (-50) = true.
Proof. reflexivity. Qed.

Lemma five_pos : 0 < five.
Proof.
  unfold five. apply Z.mul_pos_pos; [lia|]. apply Z.pow_pos_nonneg; lia.
Qed.

Lemma five_small : 2 * five < 2 ^ 1078.
Proof.
  unfold five. change 1078 with (4 + 1074). rewrite Z.pow_add_r by lia.
  assert (H : 0 < 2 ^ 1074) by (apply Z.pow_pos_nonneg; lia).
  set (U := 2 ^ 1074) in *. clearbody U. change (2 ^ 4) with 16. lia.
Qed.

Lemma five_representable : representable five.
Proof. rewrite <- five_scaled. apply bounded_representable, five_bounded. Qed.

Lemma pow_1078_1130 : 2 ^ 1078 <= 2 ^ 1130.
Proof. apply Z.pow_le_mono_r; lia. Qed.

Lemma pow_le_1130 g : g + 53 <= 1130 -> 2 ^ (g + 53) <= 2 ^ 1130.
Proof. intros Hg. apply Z.pow_le_mono_r; lia. Qed.

Lemma four_pow_1130 : 4 * 2 ^ 1130 <= overflow.
Proof.
  change 4 with (2 ^ 2). rewrite <- Z.pow_add_r by lia.
  apply pow_le_overflow. lia.
Qed.

(** An addend below half a unit in the last place of [T] is rounded
    away. *)
Lemma rnd_absorbs T F :
  0 < T -> representable T -> 0 <= F ->
  0 < ulp_exp T -> 2 * F < 2 ^ ulp_exp T ->
  rnd (T + F) = T.
Proof.
  intros HT HR HF Hg HF2. unfold representable in HR.
  pose proof (ulp_exp_lower T HT Hg) as Hl.
  pose proof (ulp_exp_upper T HT) as Hu.
  apply (rnd_small_addend T F (ulp_exp T)); try lia.
  assert (Hp : 0 < 2 ^ ulp_exp T) by (apply Z.pow_pos_nonneg; lia).
  pose proof (Z.div_mod T (2 ^ ulp_exp T) ltac:(lia)) as Hd. rewrite HR in Hd.
  replace (ulp_exp T + 53) with (53 + ulp_exp T) in * by lia.
  rewrite Z.pow_add_r in * by lia.
  set (P := 2 ^ ulp_exp T) in *. clearbody P.
  assert (T / P < 2 ^ 53) by nia.
  nia.
Qed.

Lemma add_five_no_overflow T : 0 <= T < overflow -> representable T ->
  rnd (T + five) < overflow.
Proof.
  intros [H0 Hlt] HR.
  pose proof five_pos as H5.
  destruct (Z.lt_ge_cases (ulp_exp T) 1078) as [Hs|Hb].
  - (* a small [T]: even twice the sum is far from the threshold *)
    assert (HT : T < 2 ^ 1130).
    { destruct (Z.eq_dec T 0) as [->|Hn]; [apply Z.pow_pos_nonneg; lia|].
      eapply Z.lt_le_trans; [apply ulp_exp_upper; lia|].
      apply pow_le_1130. lia. }
    pose proof (rnd_error (T + five) ltac:(lia)) as He.
    pose proof five_small as Hf. pose proof pow_1078_1130 as Hp.
    pose proof four_pow_1130 as H4.
    set (A := 2 ^ 1130) in *. set (B := 2 ^ 1078) in *. clearbody A B.
    change (2 ^ 53) with 9007199254740992 in He. lia.
  - (* a large [T]: five is below half its last place *)
    assert (HT : 0 < T).
    { destruct (Z.eq_dec T 0) as [->|Hn]; [|lia]. exfalso. apply Hb. reflexivity. }
    rewrite (rnd_absorbs T five); try lia; auto.
    eapply Z.lt_le_trans; [apply five_small|]. apply Z.pow_le_mono_r; lia.
Qed.


(** *** Rounding and the order *)

(** Down, up, or a tie sent to the even neighbour. *)
Lemma rnd_cases3 V : 0 <= V ->
  let g := ulp_exp V in
  let q := V / 2 ^ g in
  let r := V mod 2 ^ g in
  (2 * r < 2 ^ g /\ rnd V = q * 2 ^ g) \/
  (2 ^ g < 2 * r /\ rnd V = (q + 1) * 2 ^ g) \/
  (2 * r = 2 ^ g /\ rnd V = (if Z.even q then q else q + 1) * 2 ^ g).
Proof.
  intros HV g q r. unfold rnd, round_shift. fold g. fold q r.
  destruct (Z.ltb_spec (2 * r) (2 ^ g)); [left; auto|].
  destruct (Z.ltb_spec (2 ^ g) (2 * r)); [right; left; auto|].
  right; right. split; [lia|reflexivity].
Qed.

(** What rounding returns has 53 significant bits. *)
Lemma rnd_representable V : 0 <= V -> representable (rnd V).
Proof.
  intros HV.
  set (g := ulp_exp V).
  assert (Hg : 0 <= g) by apply ulp_exp_nonneg.
  assert (Hp : 0 < 2 ^ g) by (apply Z.pow_pos_nonneg; lia).
  destruct (Z.eq_dec g 0) as [E|E].
  { assert (rnd V = V).
    { apply rnd_exact; [lia|]. unfold representable. fold g. rewrite E.
      change (2 ^ 0) with 1. apply Z.mod_1_r. }
    rewrite H. unfold representable. fold g. rewrite E. change (2 ^ 0) with 1.
    apply Z.mod_1_r. }
  assert (HVp : 0 < V).
  { destruct (Z.eq_dec V 0) as [->|]; [|lia]. exfalso. apply E. reflexivity. }
  pose proof (ulp_exp_lower V HVp ltac:(fold g; lia)) as Hl. fold g in Hl.
  pose proof (ulp_exp_upper V HVp) as Hu. fold g in Hu.
  assert (Hq : 2 ^ 52 <= V / 2 ^ g < 2 ^ 53).
  { split.
    - apply Z.div_le_lower_bound; [lia|]. rewrite <- Z.pow_add_r by lia. exact Hl.
    - apply Z.div_lt_upper_bound; [lia|]. rewrite <- Z.pow_add_r by lia. exact Hu. }
  assert (Hm : exists m, rnd V = m * 2 ^ g /\ 2 ^ 52 <= m <= 2 ^ 53).
  { destruct (rnd_cases V ltac:(lia)) as [[-> _]|[-> _]]; fold g; eexists; split;
      try reflexivity; lia. }
  destruct Hm as (m & -> & Hm).
  unfold representable.
  destruct (Z.eq_dec m (2 ^ 53)) as [->|Hne].
  - rewrite <- Z.pow_add_r by lia.
    rewrite (ulp_exp_binade (2 ^ (53 + g)) (g + 1)); try lia.
    + replace (53 + g) with (52 + (g + 1)) by lia.
      rewrite Z.pow_add_r by lia. apply Z.mod_mul. apply Z.pow_nonzero; lia.
    + split.
      * apply Z.pow_le_mono_r; lia.
      * apply Z.pow_lt_mono_r; lia.
  - rewrite (ulp_exp_binade (m * 2 ^ g) g); try lia.
    + apply Z.mod_mul. apply Z.pow_nonzero; lia.
    + replace (g + 52) with (52 + g) by lia. replace (g + 53) with (53 + g) by lia.
      rewrite !Z.pow_add_r by lia. split; nia.
Qed.

(** Rounding keeps the order. *)
Lemma rnd_mono a b : 0 <= a -> a <= b -> rnd a <= rnd b.
Proof.
  intros Ha Hab.
  destruct (Z.le_gt_cases a (rnd b)) as [Hle|Hgt].
  { apply rnd_upper; [lia|apply rnd_representable; lia|exact Hle]. }
  set (g := ulp_exp b).
  assert (Hg : 0 <= g) by apply ulp_exp_nonneg.
  assert (Hp : 0 < 2 ^ g) by (apply Z.pow_pos_nonneg; lia).
  pose proof (Z.div_mod b (2 ^ g) ltac:(lia)) as Hdb.
  pose proof (Z.mod_pos_bound b (2 ^ g) Hp) as Hrb.
  destruct (rnd_cases b ltac:(lia)) as [[Eb Hr]|[Eb Hr]]; fold g in Eb, Hr;
    [|nia].
  (* [b] is rounded down, and [a] lies between the result and [b] *)
  assert (Hg1 : 0 < g).
  { destruct (Z.eq_dec g 0) as [E|E]; [|lia].
    assert (E1 : 2 ^ g = 1) by (rewrite E; reflexivity).
    rewrite E1, Z.div_1_r in Eb. lia. }
  assert (Hqb : 0 <= b / 2 ^ g) by (apply Z.div_pos; lia).
  assert (Hbp : 0 < b) by nia.
  pose proof (ulp_exp_lower b Hbp ltac:(fold g; lia)) as Hl. fold g in Hl.
  pose proof (ulp_exp_upper b Hbp) as Hu. fold g in Hu.
  assert (Hq : 2 ^ 52 <= b / 2 ^ g).
  { apply Z.div_le_lower_bound; [lia|]. rewrite <- Z.pow_add_r by lia. exact Hl. }
  assert (Hlow : 2 ^ (g + 52) <= rnd b).
  { rewrite Eb. replace (g + 52) with (52 + g) by lia. rewrite Z.pow_add_r by lia. nia. }
  assert (Ega : ulp_exp a = g) by (apply ulp_exp_binade; lia).
  assert (Eqa : a / 2 ^ g = b / 2 ^ g).
  { symmetry. apply (Z.div_unique a (2 ^ g) (b / 2 ^ g) (a - b / 2 ^ g * 2 ^ g)); lia. }
  assert (Era : a mod 2 ^ g = a - b / 2 ^ g * 2 ^ g).
  { symmetry. apply (Z.mod_unique a (2 ^ g) (b / 2 ^ g) (a - b / 2 ^ g * 2 ^ g)); lia. }
  destruct (rnd_cases3 a Ha) as [[H1 Ea]|[[H1 Ea]|[H1 Ea]]];
    rewrite Ega, ?Eqa, ?Era in *.
  - lia.
  - lia.
  - assert (a = b) by lia. subst a. lia.
Qed.

(** *** There and back from the far end

    [duration - 5] and then [+ 5] again, as [stepBack] and [stepForward]
    round them, does not pass the duration. *)

Lemma pow_split a b : 0 <= a <= b -> 2 ^ b = 2 ^ (b - a) * 2 ^ a.
Proof.
  intros H. rewrite <- Z.pow_add_r by lia. f_equal. lia.
Qed.

(** [rnd] at a value whose last place and digits are known. *)
Lemma rnd_at V g q r :
  0 <= g -> ulp_exp V = g -> V = q * 2 ^ g + r -> 0 <= r < 2 ^ g ->
  rnd V = (if 2 * r <? 2 ^ g then q
           else if 2 ^ g <? 2 * r then q + 1
           else if Z.even q then q else q + 1) * 2 ^ g.
Proof.
  intros Hg Eg EV Hr. unfold rnd, round_shift. rewrite Eg.
  assert (Hp : 0 < 2 ^ g) by (apply Z.pow_pos_nonneg; lia).
  assert (Eq : V / 2 ^ g = q) by (symmetry; apply (Z.div_unique V (2 ^ g) q r); lia).
  assert (Er : V mod 2 ^ g = r) by (symmetry; apply (Z.mod_unique V (2 ^ g) q r); lia).
  rewrite Eq, Er. reflexivity.
Qed.

(** Twice five seconds is an odd multiple of 2^g for one g only. *)
Lemma five_tie g k : 0 <= g -> 2 * five = (2 * k - 1) * 2 ^ g ->
  g = 1075 /\ k = 3.
Proof.
  intros Hg H. unfold five in H.
  assert (HG : 0 < 2 ^ g) by (apply Z.pow_pos_nonneg; lia).
  destruct (Z.lt_trichotomy g 1075) as [Hlt|[->|Hgt]].
  - exfalso. rewrite (pow_split g 1074) in H by lia.
    assert (HP : 0 < 2 ^ (1074 - g)) by (apply Z.pow_pos_nonneg; lia).
    set (P := 2 ^ (1074 - g)) in *. set (G := 2 ^ g) in *. clearbody P G.
    assert (E : 10 * P = 2 * k - 1) by nia. lia.
  - change 1075 with (1 + 1074) in H. rewrite Z.pow_add_r in H by lia.
    assert (HU : 0 < 2 ^ 1074) by (apply Z.pow_pos_nonneg; lia).
    set (U := 2 ^ 1074) in *. clearbody U. change (2 ^ 1) with 2 in H.
    split; [reflexivity|nia].
  - exfalso. rewrite (pow_split 1074 g) in H by lia.
    rewrite (pow_split 2 (g - 1074)) in H by lia.
    assert (HU : 0 < 2 ^ 1074) by (apply Z.pow_pos_nonneg; lia).
    assert (HQ : 0 < 2 ^ (g - 1074 - 2)) by (apply Z.pow_pos_nonneg; lia).
    set (U := 2 ^ 1074) in *. set (Q := 2 ^ (g - 1074 - 2)) in *. clearbody U Q.
    change (2 ^ 2) with 4 in H.
    assert (E : 5 = 2 * ((2 * k - 1) * Q)) by nia.
    set (X := (2 * k - 1) * Q) in *. clearbody X. lia.
Qed.

Lemma rnd_nonneg V : 0 <= V -> 0 <= rnd V.
Proof.
  intros HV. change 0 with (rnd 0) at 1. apply rnd_mono; lia.
Qed.

(** Taking five seconds off a duration and adding them again does not
    end above the duration. *)
Lemma back_and_forth_le D :
  representable D -> five <= D -> rnd (rnd (D - five) + five) <= D.
Proof.
  intros HD Hge.
  pose proof five_pos as H5.
  assert (HDp : 0 < D) by lia.
  remember (D - five) as V eqn:EV.
  assert (HV : 0 <= V) by lia.
  set (gV := ulp_exp V).
  assert (HgV : 0 <= gV) by apply ulp_exp_nonneg.
  assert (HpV : 0 < 2 ^ gV) by (apply Z.pow_pos_nonneg; lia).
  pose proof (Z.div_mod V (2 ^ gV) ltac:(lia)) as HdV.
  pose proof (Z.mod_pos_bound V (2 ^ gV) HpV) as HrV.
  (* rounding down: the sum is at most [D] before it is rounded *)
  assert (Hdown : rnd V <= V -> rnd (rnd V + five) <= D).
  { intros Hle. apply rnd_upper; [|exact HD|lia].
    pose proof (rnd_nonneg V HV). lia. }
  (* rounding up by [e1], at most half a last place of [V] *)
  assert (Hup : rnd V = (V / 2 ^ gV + 1) * 2 ^ gV -> 2 ^ gV <= 2 * (V mod 2 ^ gV) ->
                (Z.even (V / 2 ^ gV) = false \/ 2 ^ gV < 2 * (V mod 2 ^ gV)) ->
                rnd (rnd V + five) <= D).
  { intros EW Hhalf Htie.
    set (e1 := 2 ^ gV - V mod 2 ^ gV).
    assert (He1 : 0 < e1 /\ 2 * e1 <= 2 ^ gV) by (unfold e1; lia).
    assert (EWD : rnd V + five = D + e1) by (rewrite EW; unfold e1; lia).
    rewrite EWD.
    assert (HgV1 : 0 < gV).
    { destruct (Z.eq_dec gV 0) as [E|E]; [|lia].
      assert (E1 : 2 ^ gV = 1) by (rewrite E; reflexivity). rewrite E1 in *. lia. }
    assert (HVp : 0 < V).
    { destruct (Z.eq_dec V 0) as [E|E]; [|lia]. exfalso.
      unfold gV in HgV1. rewrite E in HgV1. discriminate HgV1. }
    pose proof (ulp_exp_mono V D HVp ltac:(lia)) as Hmono. fold gV in Hmono.
    set (gD := ulp_exp D) in *.
    assert (HpD : 0 < 2 ^ gD) by (apply Z.pow_pos_nonneg; lia).
    assert (Hpow : 2 ^ gV <= 2 ^ gD) by (apply Z.pow_le_mono_r; lia).
    destruct (Z.lt_ge_cases (2 * e1) (2 ^ gD)) as [Hsmall|Hbig].
    { rewrite (rnd_absorbs D e1); try lia; auto. }
    (* a tie, in the last place of [D] *)
    assert (Eg : gV = gD).
    { apply (Z.pow_inj_r 2); lia. }
    assert (E2 : 2 * e1 = 2 ^ gD) by lia.
    destruct Htie as [Hodd|Hstrict]; [|rewrite Eg in *; unfold e1 in *; lia].
    unfold representable in HD. fold gD in HD.
    pose proof (Z.div_mod D (2 ^ gD) ltac:(lia)) as HdD. rewrite HD in HdD.
    destruct (five_tie gD (D / 2 ^ gD - V / 2 ^ gV) ltac:(lia)) as [EgD Ek].
    { rewrite Eg in *. unfold e1 in *. nia. }
    pose proof (ulp_exp_upper D HDp) as HuD. fold gD in HuD.
    pose proof (ulp_exp_lower D HDp ltac:(fold gD; lia)) as HlD. fold gD in HlD.
    assert (HqD : D / 2 ^ gD < 2 ^ 53).
    { apply Z.div_lt_upper_bound; [lia|]. rewrite <- Z.pow_add_r by lia.
      exact HuD. }
    assert (EgDe : ulp_exp (D + e1) = gD).
    { apply ulp_exp_binade; [lia|]. split; [lia|].
      replace (gD + 53) with (53 + gD) by lia. rewrite Z.pow_add_r by lia. nia. }
    rewrite (rnd_at (D + e1) gD (D / 2 ^ gD) e1); try lia.
    replace (2 * e1 <? 2 ^ gD) with false by (symmetry; apply Z.ltb_ge; lia).
    replace (2 ^ gD <? 2 * e1) with false by (symmetry; apply Z.ltb_ge; lia).
    replace (D / 2 ^ gD) with (V / 2 ^ gV + 3) by lia.
    rewrite Z.even_add, Hodd. cbn [Z.even Bool.eqb].
    replace (V / 2 ^ gV + 3) with (D / 2 ^ gD) by lia. lia. }
  destruct (rnd_cases3 V HV) as [[H1 E]|[[H1 E]|[H1 E]]]; fold gV in H1, E.
  - apply Hdown. rewrite E. lia.
  - apply Hup; [exact E|lia|right; exact H1].
  - destruct (Z.even (V / 2 ^ gV)) eqn:Hev.
    + apply Hdown. rewrite E. lia.
    + apply Hup; [exact E|lia|left; reflexivity].
Qed.

(** *** A tenth of a second, and steps that are not lost *)

Lemma tenth_scaled : scaled 7205759403792794 (-56) = tenth.
Proof. reflexivity. Qed.

Lemma tenth_bounded : bounded prec emax 7205759403792794 (-56) = true.
Proof. reflexivity. Qed.

Lemma tenth_range : 2 ^ 1070 <= tenth < 2 ^ 1071.
Proof.
  unfold tenth. change 1070 with (52 + 1018). change 1071 with (53 + 1018).
  rewrite !Z.pow_add_r by lia.
  assert (H : 0 < 2 ^ 1018) by (apply Z.pow_pos_nonneg; lia).
  set (U := 2 ^ 1018) in *. clearbody U.
  change (2 ^ 52) with 4503599627370496. change (2 ^ 53) with 9007199254740992. lia.
Qed.

Lemma tenth_pos : 0 < tenth.
Proof.
  pose proof tenth_range as [H _].
  assert (0 < 2 ^ 1070) by (apply Z.pow_pos_nonneg; lia). lia.
Qed.

Lemma pow_1123 : 2 ^ 1123 = 2 ^ 53 * 2 ^ 1070.
Proof. rewrite <- Z.pow_add_r by lia. reflexivity. Qed.

Lemma ulp_exp_two1127 : ulp_exp (2 ^ 1127) = 1075.
Proof. unfold ulp_exp. rewrite Z.log2_pow2 by lia. reflexivity. Qed.

Lemma five_margin T : 0 <= T < 2 ^ 1127 -> T + five < 2 ^ 53 * five.
Proof.
  unfold five. change 1127 with (53 + 1074). rewrite Z.pow_add_r by lia.
  assert (H : 0 < 2 ^ 1074) by (apply Z.pow_pos_nonneg; lia).
  set (U := 2 ^ 1074) in *. clearbody U.
  change (2 ^ 53) with 9007199254740992. lia.
Qed.

(** Taking off, or adding, more than the rounding error moves the
    result. *)
Lemma rnd_sub_below D F : 0 < F -> F <= D -> D < 2 ^ 53 * F -> rnd (D - F) < D.
Proof.
  intros HF HD Hlt.
  pose proof (rnd_error (D - F) ltac:(lia)) as E.
  change (2 ^ 53) with 9007199254740992 in *. lia.
Qed.

Lemma rnd_add_above T F : 0 <= T -> 0 < F -> T + F < 2 ^ 53 * F -> T < rnd (T + F).
Proof.
  intros HT HF Hlt.
  pose proof (rnd_error (T + F) ltac:(lia)) as E.
  change (2 ^ 53) with 9007199254740992 in *. lia.
Qed.

(** Taking off less than a quarter of the last place changes nothing:
    the difference rounds back. *)
Lemma rnd_sub_absorbs D F :
  representable D -> 0 < F -> 0 < ulp_exp D -> 4 * F < 2 ^ ulp_exp D ->
  rnd (D - F) = D.
Proof.
  intros HD HF Hg H4.
  set (g := ulp_exp D) in *.
  assert (HDp : 0 < D).
  { destruct (Z.lt_trichotomy D 0) as [H|[H|H]]; [|subst D; discriminate Hg|exact H].
    exfalso. unfold g, ulp_exp in Hg. rewrite Z.log2_nonpos in Hg by lia. lia. }
  pose proof (ulp_exp_lower D HDp Hg) as Hl. fold g in Hl.
  pose proof (ulp_exp_upper D HDp) as Hu. fold g in Hu.
  assert (Hp : 0 < 2 ^ g) by (apply Z.pow_pos_nonneg; lia).
  unfold representable in HD. fold g in HD.
  pose proof (Z.div_mod D (2 ^ g) ltac:(lia)) as Hd. rewrite HD, Z.add_0_r in Hd.
  set (m := D / 2 ^ g) in *.
  replace (g + 52) with (52 + g) in Hl by lia.
  replace (g + 53) with (53 + g) in Hu by lia.
  rewrite Z.pow_add_r in Hl, Hu by lia.
  assert (Hm : 2 ^ 52 <= m < 2 ^ 53) by nia.
  assert (Hhalf : 2 ^ g = 2 * 2 ^ (g - 1)).
  { rewrite (pow2_pred g) by lia. lia. }
  assert (Hp1 : 0 < 2 ^ (g - 1)) by (apply Z.pow_pos_nonneg; lia).
  change (2 ^ 52) with 4503599627370496 in *.
  change (2 ^ 53) with 9007199254740992 in *.
  destruct (Z.eq_dec m 4503599627370496) as [Em|Em].
  - (* a power of two: the difference is in the binade below *)
    rewrite (rnd_at (D - F) (g - 1) 9007199254740991 (2 ^ (g - 1) - F)); try lia.
    + replace (2 * (2 ^ (g - 1) - F) <? 2 ^ (g - 1)) with false
        by (symmetry; apply Z.ltb_ge; lia).
      replace (2 ^ (g - 1) <? 2 * (2 ^ (g - 1) - F)) with true
        by (symmetry; apply Z.ltb_lt; lia).
      lia.
    + apply ulp_exp_binade; [lia|].
      replace (g - 1 + 52) with (52 + (g - 1)) by lia.
      replace (g - 1 + 53) with (53 + (g - 1)) by lia.
      rewrite !Z.pow_add_r by lia.
      change (2 ^ 52) with 4503599627370496. change (2 ^ 53) with 9007199254740992.
      lia.
  - rewrite (rnd_at (D - F) g (m - 1) (2 ^ g - F)); try lia.
    + replace (2 * (2 ^ g - F) <? 2 ^ g) with false
        by (symmetry; apply Z.ltb_ge; lia).
      replace (2 ^ g <? 2 * (2 ^ g - F)) with true
        by (symmetry; apply Z.ltb_lt; lia).
      lia.
    + apply ulp_exp_binade; [lia|].
      replace (g + 52) with (52 + g) by lia.
      replace (g + 53) with (53 + g) by lia.
      rewrite !Z.pow_add_r by lia.
      change (2 ^ 52) with 4503599627370496. change (2 ^ 53) with 9007199254740992.
      nia.
Qed.

(** The other way round: back five seconds and forth again. *)
Lemma roundtrip_back_Z T F : representable T -> 0 < F -> F <= T ->
  2 ^ 50 * Z.abs (rnd (rnd (T - F) + F) - T) <= T + F.
Proof.
  intros HT HF Hle.
  pose proof (rnd_error (T - F) ltac:(lia)) as E1.
  pose proof (rnd_nonneg (T - F) ltac:(lia)) as H0.
  pose proof (rnd_upper T (T - F) ltac:(lia) HT ltac:(lia)) as HW.
  pose proof (rnd_error (rnd (T - F) + F) ltac:(lia)) as E2.
  change (2 ^ 53) with 9007199254740992 in *.
  change (2 ^ 50) with 1125899906842624.
  lia.
Qed.

(** *** Products *)

(** Rounding does not pass a whole number above. *)
Lemma round_shift_le M n c : 0 <= M -> 0 <= n -> M <= c * 2 ^ n -> round_shift M n <= c.
Proof.
  intros HM Hn Hle.
  assert (Hp : 0 < 2 ^ n) by (apply Z.pow_pos_nonneg; lia).
  pose proof (Z.div_mod M (2 ^ n) ltac:(lia)) as Hd.
  pose proof (Z.mod_pos_bound M (2 ^ n) Hp) as Hr.
  unfold round_shift.
  set (q := M / 2 ^ n) in *. set (r := M mod 2 ^ n) in *.
  assert (Hq : q <= c) by nia.
  destruct (Z.ltb_spec (2 * r) (2 ^ n)); [exact Hq|].
  assert (q < c) by nia.
  destruct (2 ^ n <? 2 * r); [lia|]. destruct (Z.even q); lia.
Qed.

Lemma round_shift_nonneg M n : 0 <= M -> 0 <= n -> 0 <= round_shift M n.
Proof.
  intros HM Hn.
  assert (Hp : 0 < 2 ^ n) by (apply Z.pow_pos_nonneg; lia).
  pose proof (Z.div_pos M (2 ^ n) HM Hp) as Hq.
  unfold round_shift.
  destruct (2 * (M mod 2 ^ n) <? 2 ^ n); [exact Hq|].
  destruct (2 ^ n <? 2 * (M mod 2 ^ n)); [lia|]. destruct (Z.even (M / 2 ^ n)); lia.
Qed.

Lemma round_shift_ge M n c : 0 <= M -> 0 <= n -> c * 2 ^ n <= M -> c <= round_shift M n.
Proof.
  intros HM Hn Hle.
  assert (Hp : 0 < 2 ^ n) by (apply Z.pow_pos_nonneg; lia).
  pose proof (Z.div_mod M (2 ^ n) ltac:(lia)) as Hd.
  pose proof (Z.mod_pos_bound M (2 ^ n) Hp) as Hr.
  unfold round_shift.
  set (q := M / 2 ^ n) in *. set (r := M mod 2 ^ n) in *.
  assert (Hq : c <= q) by nia.
  destruct (2 * r <? 2 ^ n); [exact Hq|].
  destruct (2 ^ n <? 2 * r); [lia|]. destruct (Z.even q); lia.
Qed.

(** What is left of a mantissa that is shifted into place: less than
    2^53, and a full 53 bits unless the result is subnormal. *)
Lemma shift_quotient_bound M e p :
  fexp prec emax (Zpos (digits2_pos M) + e) - e = Zpos p ->
  Zpos M < 2 ^ 53 * 2 ^ Zpos p /\
  (-1074 < e + Zpos p -> 2 ^ 52 * 2 ^ Zpos p <= Zpos M).
Proof.
  intros Hp. rewrite fexp_eq, digits2_pos_log2 in Hp.
  destruct (Z.log2_spec (Zpos M) ltac:(lia)) as [Hl Hu].
  pose proof (Z.log2_nonneg (Zpos M)) as H0.
  split.
  - rewrite <- Z.pow_add_r by lia.
    eapply Z.lt_le_trans; [exact Hu|]. apply Z.pow_le_mono_r; lia.
  - intros Hn. rewrite <- Z.pow_add_r by lia.
    replace (52 + Zpos p) with (Z.log2 (Zpos M)) by lia. exact Hl.
Qed.

Lemma digits_le_53 m : Zpos m < 2 ^ 53 -> Zpos (digits2_pos m) <= 53.
Proof.
  intros H. rewrite digits2_pos_log2.
  apply Z.log2_lt_pow2 in H; lia.
Qed.

(** A mantissa shifted right and rounded, wherever it started: the
    result may be subnormal, or zero. *)
Lemma binary_round_aux_shift_any sx M e p :
  fexp prec emax (Zpos (digits2_pos M) + e) - e = Zpos p ->
  let m2 := round_shift (Zpos M) (Zpos p) in
  let fe := e + Zpos p in
  0 <= m2 <= 2 ^ 53 /\ -1074 <= fe /\
  binary_round_aux prec emax sx (Zpos M) e loc_Exact
  = match m2 with
    | Zpos m =>
        if Zpos m <? 2 ^ 53
        then (if fe <=? 971 then S754_finite sx m fe else S754_infinity sx)
        else (if fe + 1 <=? 971 then S754_finite sx (Z.to_pos (2 ^ 52)) (fe + 1)
              else S754_infinity sx)
    | _ => S754_zero sx
    end /\
  (forall m, m2 = Zpos m -> Zpos m < 2 ^ 53 ->
     canonical_mantissa prec emax m fe = true).
Proof.
  intros Hp m2 fe.
  destruct (shift_quotient_bound M e p Hp) as [Hu Hl].
  assert (Hfe : -1074 <= fe).
  { unfold fe. rewrite fexp_eq in Hp. lia. }
  assert (Hm2 : 0 <= m2 <= 2 ^ 53).
  { split; [apply round_shift_nonneg; lia|apply round_shift_le; lia]. }
  split; [exact Hm2|]. split; [exact Hfe|].
  assert (Hcan : forall m, m2 = Zpos m -> Zpos m < 2 ^ 53 ->
                   fexp prec emax (Zpos (digits2_pos m) + fe) = fe).
  { intros m Em Hlt. rewrite fexp_eq.
    pose proof (digits_le_53 m Hlt) as Hd.
    destruct (Z.eq_dec fe (-1074)) as [E|E]; [lia|].
    assert (H52 : 2 ^ 52 <= Zpos m).
    { rewrite <- Em. apply round_shift_ge; lia. }
    rewrite digits_53 by lia. lia. }
  split.
  - unfold binary_round_aux, shr_fexp.
    cbn [Zdigits2 shr_record_of_loc]. rewrite Hp.
    cbn [shr]. rewrite iter_shr_1 by lia.
    rewrite round_shifted by lia. fold m2. fold fe.
    destruct m2 as [|m|m] eqn:Em2; try lia.
    + cbn [Zdigits2 shr_record_of_loc]. rewrite fexp_eq.
      destruct (Z.max (0 + fe - 53) (-1074) - fe) as [|q|q] eqn:En; try lia;
        reflexivity.
    + cbn [Zdigits2 shr_record_of_loc].
      destruct (Z.ltb_spec (Zpos m) (2 ^ 53)) as [Hlt|Hge].
      * rewrite (Hcan m eq_refl Hlt), Z.sub_diag.
        cbn [shr shr_m]. change (emax - prec) with 971. reflexivity.
      * assert (H : Zpos m = 2 ^ 53) by lia.
        assert (E54 : Zpos (digits2_pos m) = 54).
        { rewrite digits2_pos_log2, H. reflexivity. }
        rewrite E54, fexp_eq.
        replace (Z.max (54 + fe - 53) (-1074) - fe) with 1 by lia.
        cbn [shr]. rewrite iter_shr_1 by lia. rewrite H.
        change (shifted (2 ^ 53) 1) with (Build_shr_record (2 ^ 52) false false).
        cbn [shr_m]. change (emax - prec) with 971. reflexivity.
  - intros m Em Hlt. unfold canonical_mantissa. apply Z.eqb_eq. apply Hcan; assumption.
Qed.

Lemma bounded_mantissa C k : bounded prec emax C k = true -> Zpos C < 2 ^ 53.
Proof.
  intros HC. destruct (bounded_range C k HC) as [Hc _].
  unfold canonical_mantissa in Hc. apply Z.eqb_eq in Hc.
  rewrite fexp_eq, digits2_pos_log2 in Hc.
  apply Z.log2_lt_pow2; lia.
Qed.

(** A value that is at most a float rounds to at most that float. *)
Lemma binary_round_aux_le M e C k :
  bounded prec emax C k = true ->
  e <= k -> Zpos M <= Zpos C * 2 ^ (k - e) ->
  e <= fexp prec emax (Zpos (digits2_pos M) + e) ->
  let R := binary_round_aux prec emax false (Zpos M) e loc_Exact in
  fin_nonneg R = true /\ val R <= scaled C k.
Proof.
  intros HC Hek HM Hn R.
  destruct (bounded_range C k HC) as [HcC HkC].
  pose proof (bounded_mantissa C k HC) as HC53.
  unfold canonical_mantissa in HcC. apply Z.eqb_eq in HcC.
  assert (Hdig : Zpos (digits2_pos M) + e <= Zpos (digits2_pos C) + k).
  { rewrite !digits2_pos_log2.
    pose proof (Z.log2_le_mono _ _ HM) as H.
    rewrite Z.log2_mul_pow2 in H by lia. lia. }
  assert (Hfe : fexp prec emax (Zpos (digits2_pos M) + e) <= k).
  { rewrite fexp_eq in *. lia. }
  unfold scaled.
  destruct (fexp prec emax (Zpos (digits2_pos M) + e) - e) as [|p|p] eqn:En; try lia.
  - (* the mantissa is in place already *)
    assert (Ee : fexp prec emax (Zpos (digits2_pos M) + e) = e) by lia.
    assert (He : -1074 <= e) by (rewrite fexp_eq in Ee; lia).
    subst R. rewrite (binary_round_aux_exact false M e Ee).
    replace (e <=? 971) with true by (symmetry; apply Z.leb_le; lia).
    cbn [fin_nonneg val]. split.
    + unfold bounded, canonical_mantissa. rewrite Ee, Z.eqb_refl.
      apply Z.leb_le. change (emax - prec) with 971. lia.
    + unfold scaled. replace (k + 1074) with ((k - e) + (e + 1074)) by lia.
      rewrite (Z.pow_add_r 2 (k - e) (e + 1074)), Z.mul_assoc by lia.
      apply Z.mul_le_mono_nonneg_r; [apply Z.pow_nonneg; lia|exact HM].
  - (* it is shifted right and rounded *)
    destruct (binary_round_aux_shift_any false M e p En) as (Hm2 & Hfe0 & ER & Hcan).
    cbv zeta in Hm2, Hfe0, ER, Hcan.
    set (fe := e + Zpos p) in *.
    assert (Efe : fexp prec emax (Zpos (digits2_pos M) + e) = fe) by (unfold fe; lia).
    rewrite Efe in Hfe.
    assert (Hc : round_shift (Zpos M) (Zpos p) <= Zpos C * 2 ^ (k - fe)).
    { apply round_shift_le; try lia.
      rewrite <- Z.mul_assoc, <- Z.pow_add_r by (unfold fe; lia).
      replace (k - fe + Zpos p) with (k - e) by (unfold fe; lia). exact HM. }
    assert (Hsc : Zpos C * 2 ^ (k + 1074)
                  = Zpos C * 2 ^ (k - fe) * 2 ^ (fe + 1074)).
    { rewrite <- Z.mul_assoc, <- Z.pow_add_r by lia. f_equal. f_equal. lia. }
    assert (Hpf : 0 < 2 ^ (fe + 1074)) by (apply Z.pow_pos_nonneg; lia).
    subst R. rewrite ER, Hsc.
    set (c := Zpos C * 2 ^ (k - fe)) in *.
    set (m2 := round_shift (Zpos M) (Zpos p)) in *.
    destruct m2 as [|m|m] eqn:Em2; try lia.
    + cbn [fin_nonneg val]. split; [reflexivity|]. nia.
    + destruct (Z.ltb_spec (Zpos m) (2 ^ 53)) as [Hlt|Hge].
      * replace (fe <=? 971) with true by (symmetry; apply Z.leb_le; lia).
        cbn [fin_nonneg val]. split.
        -- unfold bounded. rewrite (Hcan m eq_refl Hlt).
           apply Z.leb_le. change (emax - prec) with 971. lia.
        -- unfold scaled. apply Z.mul_le_mono_nonneg_r; lia.
      * assert (Hk : fe + 1 <= k).
        { destruct (Z.eq_dec k fe) as [E|E]; [|lia].
          exfalso. unfold c in Hc. rewrite E, Z.sub_diag in Hc.
          change (2 ^ 0) with 1 in Hc. lia. }
        replace (fe + 1 <=? 971) with true by (symmetry; apply Z.leb_le; lia).
        cbn [fin_nonneg val]. split.
        -- unfold bounded, canonical_mantissa.
           change (Zpos (digits2_pos (Z.to_pos (2 ^ 52)))) with 53.
           rewrite fexp_eq.
           replace (Z.max (53 + (fe + 1) - 53) (-1074)) with (fe + 1) by lia.
           rewrite Z.eqb_refl. apply Z.leb_le. change (emax - prec) with 971. lia.
        -- unfold scaled. change (Zpos (Z.to_pos (2 ^ 52))) with (2 ^ 52).
           replace (fe + 1 + 1074) with (1 + (fe + 1074)) by lia.
           rewrite (Z.pow_add_r 2 1 (fe + 1074)), Z.mul_assoc by lia.
           change (2 ^ 52 * 2 ^ 1) with (2 ^ 53).
           apply Z.mul_le_mono_nonneg_r; lia.
Qed.

(** A ratio of at most 1, as mantissa and exponent. *)
Lemma ratio_at_most_one mr er :
  -1074 <= er -> scaled mr er <= 2 ^ 1074 -> er <= 0 /\ Zpos mr <= 2 ^ (- er).
Proof.
  intros Her Hle. unfold scaled in Hle.
  assert (Hp : 0 < 2 ^ (er + 1074)) by (apply Z.pow_pos_nonneg; lia).
  assert (H0 : er <= 0).
  { destruct (Z.le_gt_cases er 0) as [H|H]; [exact H|]. exfalso.
    assert (2 ^ 1075 <= 2 ^ (er + 1074)) by (apply Z.pow_le_mono_r; lia).
    assert (E : 2 ^ 1075 = 2 * 2 ^ 1074)
      by (change 1075 with (1 + 1074); rewrite Z.pow_add_r by lia; reflexivity).
    assert (0 < 2 ^ 1074) by (apply Z.pow_pos_nonneg; lia).
    set (A := 2 ^ 1074) in *. set (B := 2 ^ 1075) in *.
    set (X := 2 ^ (er + 1074)) in *. clearbody A B X. nia. }
  split; [exact H0|].
  assert (E : 2 ^ 1074 = 2 ^ (- er) * 2 ^ (er + 1074)).
  { rewrite <- Z.pow_add_r by lia. f_equal. lia. }
  rewrite E in Hle. apply Z.mul_le_mono_pos_r in Hle; assumption.
Qed.

(** A ratio of at most 1 times a duration is at most the duration. *)
Lemma SFmul_within mr er md ed :
  bounded prec emax mr er = true -> bounded prec emax md ed = true ->
  scaled mr er <= 2 ^ 1074 ->
  let R := SFmul prec emax (S754_finite false mr er) (S754_finite false md ed) in
  fin_nonneg R = true /\ val R <= scaled md ed.
Proof.
  intros Hr Hd Hle.
  destruct (bounded_range mr er Hr) as [Hcr Her].
  destruct (bounded_range md ed Hd) as [Hcd Hed].
  destruct (ratio_at_most_one mr er ltac:(lia) Hle) as [H0 Hm].
  cbn [SFmul xorb]. apply binary_round_aux_le; [exact Hd|lia| |].
  - rewrite Pos2Z.inj_mul, Z.mul_comm.
    replace (ed - (er + ed)) with (- er) by lia.
    apply Z.mul_le_mono_nonneg_l; lia.
  - unfold canonical_mantissa in Hcr, Hcd.
    apply Z.eqb_eq in Hcr. apply Z.eqb_eq in Hcd.
    rewrite fexp_eq, digits2_pos_log2 in *.
    rewrite Pos2Z.inj_mul.
    pose proof (Z.log2_mul_below (Zpos mr) (Zpos md) ltac:(lia) ltac:(lia)) as Hlog.
    pose proof (Z.log2_nonneg (Zpos mr)). pose proof (Z.log2_nonneg (Zpos md)).
    lia.
Qed.

(** *** Quotients *)

Lemma round_div_le A B c : 0 < B -> A <= c * B -> round_div A B <= c.
Proof.
  intros HB Hle.
  pose proof (Z.div_mod A B ltac:(lia)) as Hd.
  pose proof (Z.mod_pos_bound A B HB) as Hr.
  unfold round_div.
  set (q := A / B) in *. set (r := A mod B) in *.
  assert (Hq : q <= c) by nia.
  destruct (Z.ltb_spec (2 * r) B); [exact Hq|].
  assert (q < c) by nia.
  destruct (B <? 2 * r); [lia|]. destruct (Z.even q); lia.
Qed.

Lemma round_div_ge A B c : 0 < B -> c * B <= A -> c <= round_div A B.
Proof.
  intros HB Hle.
  pose proof (Z.div_mod A B ltac:(lia)) as Hd.
  pose proof (Z.mod_pos_bound A B HB) as Hr.
  unfold round_div.
  set (q := A / B) in *. set (r := A mod B) in *.
  assert (Hq : c <= q) by nia.
  destruct (2 * r <? B); [exact Hq|].
  destruct (B <? 2 * r); [lia|]. destruct (Z.even q); lia.
Qed.

Lemma round_div_cases A B :
  round_div A B = A / B \/ round_div A B = A / B + 1.
Proof.
  unfold round_div. destruct (2 * (A mod B) <? B); [auto|].
  destruct (B <? 2 * (A mod B)); [auto|]. destruct (Z.even (A / B)); auto.
Qed.

(** One more bit shifted out halves the quotient. *)
Lemma ratio_record_shr_1 A B : 0 <= A -> 0 < B ->
  shr_1 (ratio_record A B) = ratio_record A (2 * B).
Proof.
  intros HA HB. unfold ratio_record.
  pose proof (Z.div_mod A B ltac:(lia)) as Hd.
  pose proof (Z.mod_pos_bound A B HB) as Hr.
  assert (Hq : 0 <= A / B) by (apply Z.div_pos; lia).
  rewrite shr_1_nonneg by exact Hq.
  assert (Eq : A / (2 * B) = A / B / 2).
  { rewrite Z.mul_comm. symmetry. apply Z.div_div; lia. }
  assert (Er : A mod (2 * B) = A mod B + B * ((A / B) mod 2)).
  { rewrite Z.mul_comm. apply Z.rem_mul_r; lia. }
  rewrite Eq, Er.
  pose proof (Z.mod_pos_bound (A / B) 2 ltac:(lia)) as Hb.
  rewrite Zodd_mod.
  set (q := A / B) in *. set (r := A mod B) in *. set (b := q mod 2) in *.
  f_equal.
  - destruct (Z.eqb_spec b 1) as [E|E]; symmetry;
      [apply Z.leb_le|apply Z.leb_gt]; nia.
  - destruct (Z.leb_spec B (2 * r)) as [H1|H1];
    destruct (Z.eqb_spec r 0) as [H2|H2];
    destruct (Z.eqb_spec (2 * r) B) as [H3|H3];
    destruct (Z.eqb_spec (r + B * b) 0) as [H4|H4];
    destruct (Z.eqb_spec (2 * (r + B * b)) (2 * B)) as [H5|H5];
    cbn [negb orb]; try reflexivity; exfalso; assert (b = 0 \/ b = 1) as [Eb|Eb] by lia;
    rewrite Eb in *; lia.
Qed.

Lemma ratio_record_iter A B p : 0 <= A -> 0 < B ->
  SpecFloat.iter_pos shr_1 p (ratio_record A B) = ratio_record A (B * 2 ^ Zpos p).
Proof.
  intros HA HB. rewrite iter_pos_iter. revert B HB.
  induction p using Pos.peano_ind; intros B HB.
  - change (Pos.iter shr_1 (ratio_record A B) 1) with (shr_1 (ratio_record A B)).
    rewrite ratio_record_shr_1 by assumption. change (2 ^ 1) with 2.
    f_equal. lia.
  - assert (Hp : 0 < 2 ^ Zpos p) by (apply Z.pow_pos_nonneg; lia).
    rewrite Pos.iter_succ, IHp, ratio_record_shr_1 by (try assumption; nia).
    f_equal. rewrite Pos2Z.inj_succ, Z.pow_succ_r by lia. lia.
Qed.

(** Rounding the record is rounding the quotient. *)
Lemma ratio_record_round A B : 0 < B ->
  round_nearest_even (shr_m (ratio_record A B)) (loc_of_shr_record (ratio_record A B))
  = round_div A B.
Proof.
  intros HB. unfold ratio_record, round_div.
  pose proof (Z.mod_pos_bound A B HB) as Hr.
  cbn [shr_m loc_of_shr_record].
  set (q := A / B). set (r := A mod B) in *.
  destruct (Z.leb_spec B (2 * r)) as [H1|H1];
  destruct (Z.eqb_spec r 0) as [H2|H2];
  destruct (Z.eqb_spec (2 * r) B) as [H3|H3];
  destruct (Z.ltb_spec (2 * r) B) as [H4|H4];
  destruct (Z.ltb_spec B (2 * r)) as [H5|H5];
  cbn [negb orb round_nearest_even]; try reflexivity; try lia.
Qed.

(** The location a division reports is that of its quotient. *)
Lemma new_location_ratio A B : 0 < B ->
  shr_record_of_loc (A / B) (new_location B (A mod B)) = ratio_record A B.
Proof.
  intros HB. unfold ratio_record, new_location, new_location_even, new_location_odd.
  pose proof (Z.mod_pos_bound A B HB) as Hr.
  set (q := A / B). set (r := A mod B) in *.
  destruct (Z.even B) eqn:Ev.
  - destruct (Z.eqb_spec r 0) as [H2|H2].
    + cbn [shr_record_of_loc orb negb]. f_equal. symmetry. apply Z.leb_gt. lia.
    + destruct (Z.compare_spec (2 * r) B) as [H|H|H]; cbn [shr_record_of_loc orb];
        f_equal; symmetry;
        try (apply Z.leb_le; lia); try (apply Z.leb_gt; lia);
        try (apply negb_true_iff, Z.eqb_neq; lia);
        try (apply negb_false_iff, Z.eqb_eq; lia).
  - assert (Hodd : forall k, 2 * k <> B).
    { intros k E. rewrite <- E, Z.even_mul in Ev. discriminate Ev. }
    destruct (Z.eqb_spec r 0) as [H2|H2].
    + cbn [shr_record_of_loc orb negb]. f_equal. symmetry. apply Z.leb_gt. lia.
    + pose proof (Hodd r) as Hne.
      destruct (Z.compare_spec (2 * r + 1) B) as [H|H|H]; cbn [shr_record_of_loc orb];
        f_equal; symmetry;
        try (apply Z.leb_le; lia); try (apply Z.leb_gt; lia);
        try (apply negb_true_iff, Z.eqb_neq; lia);
        try (apply negb_false_iff, Z.eqb_eq; lia).
Qed.

Lemma Zdigits2_log2 M : 0 < M -> Zdigits2 M = Z.log2 M + 1.
Proof.
  destruct M as [|m|m]; try lia. intros _. apply digits2_pos_log2.
Qed.

Lemma Zdigits2_nonneg M : 0 <= Zdigits2 M.
Proof. destruct M; cbn [Zdigits2]; lia. Qed.

(** The second pass of [binary_round_aux]: a rounded mantissa of 53
    bits or fewer is kept as it is, and 2^53, a carry out of the 53
    bits, is 2^52 one exponent higher. *)
Lemma normalise_rounded sx m2 fe :
  0 <= m2 <= 2 ^ 53 -> -1074 <= fe ->
  (let '(mrs, e) := shr_fexp prec emax m2 fe loc_Exact in
   match shr_m mrs with
   | Z0 => S754_zero sx
   | Zpos m => if e <=? emax - prec then S754_finite sx m e else S754_infinity sx
   | Zneg _ => S754_nan
   end)
  = match m2 with
    | Zpos m =>
        if Zpos m <? 2 ^ 53
        then (if fe <=? 971 then S754_finite sx m fe else S754_infinity sx)
        else (if fe + 1 <=? 971 then S754_finite sx (Z.to_pos (2 ^ 52)) (fe + 1)
              else S754_infinity sx)
    | _ => S754_zero sx
    end.
Proof.
  intros Hm Hfe. unfold shr_fexp.
  destruct m2 as [|m|m]; try lia; cbn [Zdigits2 shr_record_of_loc].
  - rewrite fexp_eq.
    destruct (Z.max (0 + fe - 53) (-1074) - fe) as [|q|q] eqn:En; try lia; reflexivity.
  - destruct (Z.ltb_spec (Zpos m) (2 ^ 53)) as [Hlt|Hge].
    + pose proof (digits_le_53 m Hlt) as Hd. rewrite fexp_eq.
      destruct (Z.max (Zpos (digits2_pos m) + fe - 53) (-1074) - fe) as [|q|q] eqn:En;
        try lia; cbn [shr shr_m]; change (emax - prec) with 971; reflexivity.
    + assert (H : Zpos m = 2 ^ 53) by lia.
      assert (E54 : Zpos (digits2_pos m) = 54).
      { rewrite digits2_pos_log2, H. reflexivity. }
      rewrite E54, fexp_eq.
      replace (Z.max (54 + fe - 53) (-1074) - fe) with 1 by lia.
      cbn [shr]. rewrite iter_shr_1 by lia. rewrite H.
      change (shifted (2 ^ 53) 1) with (Build_shr_record (2 ^ 52) false false).
      cbn [shr_m]. change (emax - prec) with 971. reflexivity.
Qed.

(** [binary_round_aux] on the outcome of a division A / B: the
    quotient is rounded once, at the exponent its size asks for. *)
Lemma binary_round_aux_ratio sx A B e :
  0 <= A -> 0 < B ->
  let n := fexp prec emax (Zdigits2 (A / B) + e) - e in
  0 <= n ->
  let m2 := round_div A (B * 2 ^ n) in
  let fe := e + n in
  (A / B / 2 ^ n <= m2 <= A / B / 2 ^ n + 1 /\ m2 <= 2 ^ 53) /\
  -1074 <= fe /\
  binary_round_aux prec emax sx (A / B) e (new_location B (A mod B))
  = match m2 with
    | Zpos m =>
        if Zpos m <? 2 ^ 53
        then (if fe <=? 971 then S754_finite sx m fe else S754_infinity sx)
        else (if fe + 1 <=? 971 then S754_finite sx (Z.to_pos (2 ^ 52)) (fe + 1)
              else S754_infinity sx)
    | _ => S754_zero sx
    end /\
  (forall m, m2 = Zpos m -> Zpos m < 2 ^ 53 ->
     canonical_mantissa prec emax m fe = true) /\
  (A / B / 2 ^ n < 2 ^ 53 /\ (-1074 < fe -> 2 ^ 52 <= A / B / 2 ^ n)).
Proof.
  intros HA HB n Hn m2 fe.
  assert (Hpn : 0 < 2 ^ n) by (apply Z.pow_pos_nonneg; lia).
  assert (HM : 0 <= A / B) by (apply Z.div_pos; lia).
  assert (Hfe : -1074 <= fe).
  { unfold fe, n. rewrite fexp_eq. lia. }
  assert (EQ : A / (B * 2 ^ n) = A / B / 2 ^ n).
  { symmetry. apply Z.div_div; lia. }
  assert (Hm2 : A / B / 2 ^ n <= m2 <= A / B / 2 ^ n + 1).
  { unfold m2. rewrite <- EQ.
    destruct (round_div_cases A (B * 2 ^ n)) as [-> | ->]; lia. }
  (* the quotient shifted into place has 53 bits at most, and all of
     them unless the result is subnormal *)
  assert (HQ : A / B / 2 ^ n < 2 ^ 53 /\ (-1074 < fe -> 2 ^ 52 <= A / B / 2 ^ n)).
  { set (M := A / B) in *.
    destruct (Z.eq_dec M 0) as [E0|E0].
    - rewrite E0. rewrite Z.div_0_l by lia. split; [reflexivity|].
      intros H. exfalso. unfold fe, n in H, Hn. rewrite E0, fexp_eq in H, Hn.
      cbn [Zdigits2] in H, Hn. lia.
    - assert (HMp : 0 < M) by lia.
      destruct (Z.log2_spec M HMp) as [Hl Hu].
      pose proof (Z.log2_nonneg M) as H0.
      unfold fe, n in *. rewrite (Zdigits2_log2 M HMp), fexp_eq in *.
      set (k := Z.max (Z.log2 M + 1 + e - 53) (-1074) - e) in *.
      split.
      + apply Z.div_lt_upper_bound; [lia|]. rewrite <- Z.pow_add_r by lia.
        eapply Z.lt_le_trans; [exact Hu|]. apply Z.pow_le_mono_r; lia.
      + intros H. apply Z.div_le_lower_bound; [lia|]. rewrite <- Z.pow_add_r by lia.
        replace (k + 52) with (Z.log2 M) by lia. exact Hl. }
  destruct HQ as [HQu HQl].
  assert (HQ0 : 0 <= A / B / 2 ^ n) by (apply Z.div_pos; lia).
  assert (Hm53 : m2 <= 2 ^ 53) by lia.
  split; [split; assumption|]. split; [exact Hfe|].
  split; [|split; [|split; assumption]].
  - unfold binary_round_aux. unfold shr_fexp at 1.
    rewrite new_location_ratio by exact HB. fold n.
    assert (E1 : shr (ratio_record A B) e n = (ratio_record A (B * 2 ^ n), fe)).
    { unfold shr, fe. destruct n as [|p|p] eqn:En; try lia.
      - rewrite Z.mul_1_r, Z.add_0_r. reflexivity.
      - rewrite ratio_record_iter by assumption. reflexivity. }
    rewrite E1. rewrite ratio_record_round by nia. fold m2.
    apply normalise_rounded; lia.
  - intros m Em Hlt. unfold canonical_mantissa. apply Z.eqb_eq. rewrite fexp_eq.
    pose proof (digits_le_53 m Hlt) as Hd.
    destruct (Z.eq_dec fe (-1074)) as [E|E]; [lia|].
    rewrite digits_53 by lia. lia.
Qed.

(** The whole part of a quotient has the digits the operands leave it. *)
Lemma quotient_digits mx my s : 0 <= s ->
  Zpos (digits2_pos mx) + s - Zpos (digits2_pos my)
  <= Zdigits2 (Zpos mx * 2 ^ s / Zpos my).
Proof.
  intros Hs.
  pose proof (Zdigits2_nonneg (Zpos mx * 2 ^ s / Zpos my)) as H0.
  rewrite !digits2_pos_log2.
  destruct (Z.log2_spec (Zpos mx) ltac:(lia)) as [Hlx _].
  destruct (Z.log2_spec (Zpos my) ltac:(lia)) as [_ Huy].
  pose proof (Z.log2_nonneg (Zpos mx)) as Hx0.
  pose proof (Z.log2_nonneg (Zpos my)) as Hy0.
  set (lx := Z.log2 (Zpos mx)) in *. set (ly := Z.log2 (Zpos my)) in *.
  destruct (Z.le_gt_cases (lx + 1 + s - (ly + 1)) 0) as [Hsmall|Hbig]; [lia|].
  set (k := lx + s - ly - 1).
  assert (Hk : 0 <= k) by (unfold k; lia).
  assert (Hq : 2 ^ k <= Zpos mx * 2 ^ s / Zpos my).
  { apply Z.div_le_lower_bound; [lia|].
    assert (E : 2 ^ (lx + s) = 2 ^ k * 2 ^ Z.succ ly).
    { rewrite <- Z.pow_add_r by lia. f_equal. unfold k. lia. }
    assert (Hps : 0 < 2 ^ s) by (apply Z.pow_pos_nonneg; lia).
    assert (Hpk : 0 < 2 ^ k) by (apply Z.pow_pos_nonneg; lia).
    rewrite Z.pow_add_r in E by lia. nia. }
  assert (Hpk : 0 < 2 ^ k) by (apply Z.pow_pos_nonneg; lia).
  rewrite Zdigits2_log2 by lia.
  pose proof (Z.log2_le_mono _ _ Hq) as Hl. rewrite Z.log2_pow2 in Hl by lia.
  unfold k in Hl. lia.
Qed.

Lemma shifted_numerator m s : 0 <= s ->
  match s with
  | Z0 => m
  | Zpos _ => Z.shiftl m s
  | Zneg _ => 0
  end = m * 2 ^ s.
Proof.
  intros Hs. destruct s as [|p|p]; try lia.
  apply Z.shiftl_mul_pow2. lia.
Qed.

(** Division of two finite numbers, as one rounding of the quotient
    A / B of whole numbers. *)
Lemma SFdiv_spec sx mx ex sy my ey :
  let e' := Z.min (fexp prec emax (Zpos (digits2_pos mx) + ex - (Zpos (digits2_pos my) +
      ey)))
              (ex - ey) in
  let s := ex - ey - e' in
  let A := Zpos mx * 2 ^ s in
  let B := Zpos my in
  let n := fexp prec emax (Zdigits2 (A / B) + e') - e' in
  let m2 := round_div A (B * 2 ^ n) in
  let fe := e' + n in
  (0 <= s /\ 0 <= n /\ -1074 <= fe) /\
  (A / B / 2 ^ n <= m2 <= A / B / 2 ^ n + 1 /\ m2 <= 2 ^ 53) /\
  SFdiv prec emax (S754_finite sx mx ex) (S754_finite sy my ey)
  = match m2 with
    | Zpos m =>
        if Zpos m <? 2 ^ 53
        then (if fe <=? 971 then S754_finite (xorb sx sy) m fe
              else S754_infinity (xorb sx sy))
        else (if fe + 1 <=? 971
              then S754_finite (xorb sx sy) (Z.to_pos (2 ^ 52)) (fe + 1)
              else S754_infinity (xorb sx sy))
    | _ => S754_zero (xorb sx sy)
    end /\
  (forall m, m2 = Zpos m -> Zpos m < 2 ^ 53 ->
     canonical_mantissa prec emax m fe = true) /\
  (A / B / 2 ^ n < 2 ^ 53 /\ (-1074 < fe -> 2 ^ 52 <= A / B / 2 ^ n)).
Proof.
  intros e' s A B n m2 fe.
  assert (Hs : 0 <= s) by (unfold s, e'; lia).
  assert (HA : 0 <= A).
  { unfold A. apply Z.mul_nonneg_nonneg; [lia|apply Z.pow_nonneg; lia]. }
  assert (HB : 0 < B) by (unfold B; lia).
  assert (Hn : 0 <= n).
  { pose proof (quotient_digits mx my s Hs) as Hd. fold A B in Hd.
    assert (He' : e' <= fexp prec emax (Zpos (digits2_pos mx) + ex
                                        - (Zpos (digits2_pos my) + ey)))
      by (unfold e'; apply Z.le_min_l).
    unfold n. rewrite fexp_eq in He' |- *. unfold s in Hd.
    set (dq := Zdigits2 (A / B)) in *. lia. }
  destruct (binary_round_aux_ratio (xorb sx sy) A B e' HA HB Hn)
    as (Hm2 & Hfe & ER & Hcan & Hnorm).
  fold n in Hm2, Hfe, ER, Hcan, Hnorm. fold m2 in Hm2, ER, Hcan, Hnorm.
  fold fe in Hfe, ER, Hcan, Hnorm.
  split; [repeat split; assumption|]. split; [exact Hm2|].
  split; [|split; assumption].
  rewrite <- ER. cbn [SFdiv]. unfold SFdiv_core_binary. cbn [Zdigits2].
  fold e'. fold s.
  assert (EA : match s with
               | Z0 => Zpos mx
               | Zpos _ => Z.shiftl (Zpos mx) s
               | Zneg _ => 0
               end = A).
  { unfold A. apply shifted_numerator, Hs. }
  rewrite EA. fold B.
  unfold Z.div, Z.modulo. destruct (Z.div_eucl A B) as [q r]. reflexivity.
Qed.

(** An order between two floats, with the exponents moved to one
    side. *)
Lemma scaled_le_shift mx ex my ey k :
  -1074 <= ex -> -1074 <= ey -> 0 <= k -> 0 <= ex - ey + k ->
  scaled my ey <= scaled mx ex ->
  Zpos my * 2 ^ k <= Zpos mx * 2 ^ (ex - ey + k).
Proof.
  intros Hx Hy Hk Hs Hle. unfold scaled in Hle.
  assert (Hpa : 0 < 2 ^ (ey + 1074)) by (apply Z.pow_pos_nonneg; lia).
  assert (Hpk : 0 < 2 ^ k) by (apply Z.pow_pos_nonneg; lia).
  assert (E : 2 ^ (ex - ey + k) * 2 ^ (ey + 1074) = 2 ^ (ex + 1074) * 2 ^ k).
  { rewrite <- !Z.pow_add_r by lia. f_equal. lia. }
  set (a := 2 ^ (ey + 1074)) in *. set (b := 2 ^ (ex + 1074)) in *.
  set (K := 2 ^ k) in *. set (S := 2 ^ (ex - ey + k)) in *. clearbody a b K S.
  apply (Z.mul_le_mono_pos_r _ _ a Hpa).
  replace (Zpos mx * S * a) with (Zpos mx * b * K) by (rewrite <- !Z.mul_assoc, E; ring).
  replace (Zpos my * K * a) with (Zpos my * a * K) by ring.
  apply Z.mul_le_mono_nonneg_r; lia.
Qed.

Lemma scaled_lt_shift mx ex my ey k :
  -1074 <= ex -> -1074 <= ey -> 0 <= k -> 0 <= ex - ey + k ->
  scaled mx ex < scaled my ey ->
  Zpos mx * 2 ^ (ex - ey + k) < Zpos my * 2 ^ k.
Proof.
  intros Hx Hy Hk Hs Hlt. unfold scaled in Hlt.
  assert (Hpa : 0 < 2 ^ (ey + 1074)) by (apply Z.pow_pos_nonneg; lia).
  assert (Hpk : 0 < 2 ^ k) by (apply Z.pow_pos_nonneg; lia).
  assert (E : 2 ^ (ex - ey + k) * 2 ^ (ey + 1074) = 2 ^ (ex + 1074) * 2 ^ k).
  { rewrite <- !Z.pow_add_r by lia. f_equal. lia. }
  set (a := 2 ^ (ey + 1074)) in *. set (b := 2 ^ (ex + 1074)) in *.
  set (K := 2 ^ k) in *. set (S := 2 ^ (ex - ey + k)) in *. clearbody a b K S.
  apply (Z.mul_lt_mono_pos_r a _ _ Hpa).
  replace (Zpos mx * S * a) with (Zpos mx * b * K) by (rewrite <- !Z.mul_assoc, E; ring).
  replace (Zpos my * K * a) with (Zpos my * a * K) by ring.
  apply Z.mul_lt_mono_pos_r; lia.
Qed.

(** Two floats that differ, differ by 2^-53 of the larger at least. *)
Lemma float_gap mx ex my ey :
  bounded prec emax mx ex = true -> bounded prec emax my ey = true ->
  scaled mx ex < scaled my ey ->
  2 ^ 53 * scaled mx ex <= (2 ^ 53 - 1) * scaled my ey.
Proof.
  intros Hx Hy Hlt.
  destruct (bounded_range mx ex Hx) as [Hcx Hex].
  destruct (bounded_range my ey Hy) as [Hcy Hey].
  pose proof (bounded_mantissa mx ex Hx) as Hmx.
  pose proof (bounded_mantissa my ey Hy) as Hmy.
  unfold scaled in *.
  change (2 ^ 53) with 9007199254740992 in *.
  destruct (Z.le_gt_cases ey ex) as [Hge|Hgt].
  - (* the smaller one has the larger exponent: whole steps of 2^ey *)
    replace (ex + 1074) with ((ex - ey) + (ey + 1074)) in Hlt |- * by lia.
    rewrite (Z.pow_add_r 2 (ex - ey) (ey + 1074)) in Hlt |- * by lia.
    assert (Hpa : 0 < 2 ^ (ey + 1074)) by (apply Z.pow_pos_nonneg; lia).
    assert (Hpd : 0 < 2 ^ (ex - ey)) by (apply Z.pow_pos_nonneg; lia).
    set (U := 2 ^ (ey + 1074)) in *. set (V := 2 ^ (ex - ey)) in *. clearbody U V.
    assert (Zpos mx * V < Zpos my) by nia.
    nia.
  - (* the larger one is normal, and at least twice 2^52 steps of 2^ex *)
    assert (H52 : 2 ^ 52 <= Zpos my).
    { unfold canonical_mantissa in Hcy. apply Z.eqb_eq in Hcy.
      rewrite fexp_eq, digits2_pos_log2 in Hcy.
      destruct (Z.log2_spec (Zpos my) ltac:(lia)) as [Hl _].
      replace (Z.log2 (Zpos my)) with 52 in Hl by lia. exact Hl. }
    change (2 ^ 52) with 4503599627370496 in H52.
    replace (ey + 1074) with ((ey - ex) + (ex + 1074)) in Hlt |- * by lia.
    rewrite (Z.pow_add_r 2 (ey - ex) (ex + 1074)) in Hlt |- * by lia.
    assert (Hpa : 0 < 2 ^ (ex + 1074)) by (apply Z.pow_pos_nonneg; lia).
    assert (Hpd : 2 <= 2 ^ (ey - ex)).
    { change 2 with (2 ^ 1) at 1. apply Z.pow_le_mono_r; lia. }
    set (U := 2 ^ (ex + 1074)) in *. set (V := 2 ^ (ey - ex)) in *. clearbody U V.
    assert (9007199254740992 <= Zpos my * V) by nia.
    nia.
Qed.

(** Rounding a quotient is unchanged by a common factor, and keeps the
    order of the numerators. *)
Lemma round_div_scale A B k : 0 < B -> 0 < k ->
  round_div (A * k) (B * k) = round_div A B.
Proof.
  intros HB Hk. unfold round_div.
  rewrite Z.div_mul_cancel_r by lia.
  rewrite Z.mul_mod_distr_r by lia.
  pose proof (Z.mod_pos_bound A B HB) as Hr.
  set (q := A / B). set (r := A mod B) in *.
  destruct (Z.ltb_spec (2 * (r * k)) (B * k));
  destruct (Z.ltb_spec (2 * r) B); try nia; try reflexivity.
  destruct (Z.ltb_spec (B * k) (2 * (r * k)));
  destruct (Z.ltb_spec B (2 * r)); try nia; reflexivity.
Qed.

Lemma round_div_mono A A' B : 0 < B -> A <= A' ->
  round_div A B <= round_div A' B.
Proof.
  intros HB Hle.
  pose proof (Z.div_le_mono A A' B HB Hle) as Hq.
  pose proof (Z.div_mod A B ltac:(lia)) as Hd.
  pose proof (Z.div_mod A' B ltac:(lia)) as Hd'.
  pose proof (Z.mod_pos_bound A B HB) as Hr.
  pose proof (Z.mod_pos_bound A' B HB) as Hr'.
  destruct (Z.eq_dec (A / B) (A' / B)) as [E|E].
  - unfold round_div. rewrite <- E.
    set (q := A / B) in *. set (r := A mod B) in *. set (r' := A' mod B) in *.
    assert (Hrr : r <= r') by nia.
    destruct (Z.ltb_spec (2 * r) B); destruct (Z.ltb_spec (2 * r') B); try lia;
      destruct (Z.ltb_spec B (2 * r)); destruct (Z.ltb_spec B (2 * r')); try lia;
      destruct (Z.even q); lia.
  - destruct (round_div_cases A B) as [-> | ->];
      pose proof (round_div_ge A' B (A' / B) HB ltac:(nia)); lia.
Qed.

End Rounding.

(** ** Facts about binary64 arithmetic and comparisons *)

Module FloatFacts.

Import Binary64 Rounding.
Local Open Scope Z_scope.

(** *** Constants and comparisons *)

Lemma SF_0 : Prim2SF 0 = S754_zero false. Proof. reflexivity. Qed.
Lemma SF_1 : Prim2SF 1 = S754_finite false 4503599627370496 (-52). Proof. reflexivity. Qed.
Lemma SF_5 : Prim2SF STEP_SECONDS = S754_finite false 5629499534213120 (-50). Proof. reflexivity. Qed.
Lemma SF_infinity : Prim2SF infinity = S754_infinity false. Proof. reflexivity. Qed.

(** Swapping the operands of a comparison mirrors its result. *)
Lemma SFcompare_antisym x y :
  SFcompare y x = option_map CompOpp (SFcompare x y).
Proof.
  destruct x as [sx|sx| |sx mx ex], y as [sy|sy| |sy my ey];
    try destruct sx; try destruct sy; try reflexivity; cbn [SFcompare option_map];
    assert (Hp : Pos.compare_cont Eq my mx = CompOpp (Pos.compare_cont Eq mx my))
      by (rewrite Pos.compare_cont_antisym; reflexivity);
    rewrite (Z.compare_antisym ex ey), Hp;
    destruct (ex ?= ey); cbn; try reflexivity;
    destruct (Pos.compare_cont Eq mx my); reflexivity.
Qed.

Lemma nonneg_finite t :
  (0 <=? t)%float = true -> (t <? infinity)%float = true ->
  fin_nonneg (Prim2SF t) = true.
Proof.
  rewrite leb_spec, ltb_spec, SF_0, SF_infinity.
  pose proof (Prim2SF_valid t) as Hv.
  destruct (Prim2SF t) as [s|s| |s m e]; try destruct s; cbn; try congruence.
  intros _ _. exact Hv.
Qed.

Lemma leb_true_cases S D :
  fin_nonneg S = true -> 0 < val S -> valid_binary D = true ->
  SFleb S D = true ->
  D = S754_infinity false \/ (fin_nonneg D = true /\ val S <= val D).
Proof.
  intros HS Hpos HD Hle.
  destruct S as [s|s| |[|] m e]; try discriminate; cbn [val] in Hpos; try lia.
  destruct D as [sd|sd| |sd md ed]; try destruct sd; try discriminate; auto.
  right. cbn [valid_binary] in HD.
  assert (HD' : fin_nonneg (S754_finite false md ed) = true) by exact HD.
  split; [exact HD'|].
  unfold SFleb in Hle. rewrite (SFcompare_nonneg _ _ HS HD') in Hle.
  destruct (Z.compare_spec (val (S754_finite false m e)) (val (S754_finite false md ed)));
    try discriminate; lia.
Qed.

Lemma ltb_le_false A D :
  fin_nonneg A = true ->
  D = S754_infinity false \/ (fin_nonneg D = true /\ val A <= val D) ->
  SFltb D A = false.
Proof.
  intros HA [->|[HD Hle]].
  - destruct A as [s|s| |[|] m e]; try discriminate; reflexivity.
  - unfold SFltb. rewrite (SFcompare_nonneg _ _ HD HA).
    destruct (Z.compare_spec (val D) (val A)); try reflexivity; lia.
Qed.

Lemma ltb_zero_false A : fin_nonneg A = true -> SFltb A (S754_zero false) = false.
Proof.
  intros HA. unfold SFltb. rewrite (SFcompare_nonneg A (S754_zero false) HA eq_refl).
  destruct (fin_nonneg_val A HA) as [[H0 _] _]. cbn [val].
  destruct (Z.compare_spec (val A) 0); try reflexivity; lia.
Qed.

Lemma fin_nonneg_isFinite x :
  fin_nonneg (Prim2SF x) = true -> isFinite x = true.
Proof.
  unfold isFinite. destruct (Prim2SF x) as [?|?| |[|] ? ?]; cbn; congruence.
Qed.

(** The target of a step forward from a time that is a number and not
    negative: the exact sum, rounded; it does not overflow. *)
Lemma forward_target t :
  fin_nonneg (Prim2SF t) = true ->
  let s := (t + STEP_SECONDS)%float in
  fin_nonneg (Prim2SF s) = true /\
  val (Prim2SF s) = rnd (val (Prim2SF t) + five) /\
  five <= val (Prim2SF s).
Proof.
  intros HX s.
  destruct (fin_nonneg_val _ HX) as [HXr HXrep].
  pose proof five_pos as H5.
  pose proof (add_spec t STEP_SECONDS) as ES. fold s in ES. rewrite SF_5 in ES.
  destruct (SFadd_nonneg (Prim2SF t) _ _ HX five_bounded)
    as (ms & es & Hs & Hcs & Hes & Hov & Hadd).
  rewrite five_scaled in Hs, Hov.
  pose proof (add_five_no_overflow _ HXr HXrep) as Hno.
  assert (Hes' : es <= 971) by (apply Hov; exact Hno).
  unfold SF64add in ES. rewrite Hadd in ES.
  replace (es <=? 971) with true in ES by (symmetry; apply Z.leb_le; lia).
  assert (Hbs : bounded prec emax ms es = true).
  { unfold bounded. rewrite Hcs. apply Z.leb_le. change (emax - prec) with 971. lia. }
  rewrite ES. cbn [fin_nonneg val]. rewrite Hs.
  repeat split; [exact Hbs|].
  apply rnd_lower; [lia|apply five_representable|lia].
Qed.

(** The target of a step back from a time of at least five seconds:
    the exact difference, rounded; it is not above the time left. *)
Lemma backward_target s :
  fin_nonneg (Prim2SF s) = true -> five <= val (Prim2SF s) ->
  let r := (s - STEP_SECONDS)%float in
  fin_nonneg (Prim2SF r) = true /\
  val (Prim2SF r) = rnd (val (Prim2SF s) - five) /\
  val (Prim2SF r) <= val (Prim2SF s).
Proof.
  intros HS Hge r.
  pose proof five_pos as H5.
  destruct (fin_nonneg_val _ HS) as [HSr HSrep].
  pose proof (sub_spec s STEP_SECONDS) as ER. fold r in ER. rewrite SF_5 in ER.
  destruct (Prim2SF s) as [?|?| |[|] ms es] eqn:ES; try discriminate;
    cbn [val] in Hge, HSr, HSrep |- *; try lia.
  cbn [fin_nonneg] in HS.
  destruct (SFsub_nonneg ms es _ _ HS five_bounded) as [HR HvR].
  { rewrite five_scaled. exact Hge. }
  unfold SF64sub in ER. rewrite <- ER in HR, HvR. rewrite five_scaled in HvR.
  repeat split; [exact HR|exact HvR|].
  rewrite HvR. apply rnd_upper; [lia|exact HSrep|lia].
Qed.

(** When the exact sum t + 5 is within a finite duration, so is the
    sum the code computes. *)
Lemma exact_bound_gives_float_bound t d :
  (0 <=? t)%float = true -> (t <? infinity)%float = true ->
  isFinite d = true -> ticks t + ticks STEP_SECONDS <= ticks d ->
  (t + STEP_SECONDS <=? d)%float = true.
Proof.
  intros H0 Hfin Hd Hle.
  pose proof (nonneg_finite t H0 Hfin) as HX.
  destruct (forward_target t HX) as (HS & HvS & HgeS).
  destruct (fin_nonneg_val _ HX) as [HXr _].
  pose proof five_pos as H5.
  unfold ticks in Hle. rewrite SF_5 in Hle. cbn [val] in Hle.
  rewrite five_scaled in Hle.
  assert (HD : fin_nonneg (Prim2SF d) = true).
  { pose proof (Prim2SF_valid d) as Hv. unfold isFinite in Hd.
    destruct (Prim2SF d) as [?|?| |[|] md ed]; try discriminate;
      cbn [val] in Hle; try reflexivity; [|exact Hv].
    pose proof (scaled_pos md ed ltac:(apply bounded_range in Hv; lia)). lia. }
  destruct (fin_nonneg_val _ HD) as [_ HDrep].
  rewrite leb_spec. unfold SFleb. rewrite (SFcompare_nonneg _ _ HS HD).
  assert (val (Prim2SF (t + STEP_SECONDS)%float) <= val (Prim2SF d)).
  { rewrite HvS. apply rnd_upper; [lia|exact HDrep|lia]. }
  destruct (Z.compare_spec (val (Prim2SF (t + STEP_SECONDS)%float)) (val (Prim2SF d)));
    try reflexivity; lia.
Qed.

(** Taking a positive float off a smaller one, or off a negative one,
    leaves a result below zero. *)
Lemma SFsub_negative sx mx ex my ey :
  bounded prec emax mx ex = true -> bounded prec emax my ey = true ->
  sx = true \/ scaled mx ex < scaled my ey ->
  negative (SFsub prec emax (S754_finite sx mx ex) (S754_finite false my ey)) = true.
Proof.
  intros Hx Hy Hlt.
  destruct (bounded_range mx ex Hx) as [_ Hex].
  destruct (bounded_range my ey Hy) as [_ Hey].
  cbn [SFsub].
  destruct (shl_align_spec mx ex (Z.min ex ey)) as [Hax _].
  destruct (shl_align_spec my ey (Z.min ex ey)) as [Hay _].
  replace (Z.min ex (Z.min ex ey)) with (Z.min ex ey) in Hax by lia.
  replace (Z.min ey (Z.min ex ey)) with (Z.min ex ey) in Hay by lia.
  set (ax := fst (shl_align mx ex (Z.min ex ey))) in *.
  set (ay := fst (shl_align my ey (Z.min ex ey))) in *.
  set (ez := Z.min ex ey) in *.
  assert (Hez : -1074 <= ez) by lia.
  assert (Hpz : 0 < 2 ^ (ez + 1074)) by (apply Z.pow_pos_nonneg; lia).
  assert (Hneg : cond_Zopp sx (Zpos ax) - cond_Zopp false (Zpos ay) < 0).
  { destruct Hlt as [->|Hlt]; [cbn [cond_Zopp]; lia|].
    assert (Zpos ax < Zpos ay); [|destruct sx; cbn [cond_Zopp]; lia].
    assert (Ex : scaled mx ex = Zpos ax * 2 ^ (ez + 1074)).
    { unfold scaled. rewrite Hax, <- Z.mul_assoc, <- Z.pow_add_r by lia.
      f_equal; f_equal; lia. }
    assert (Ey : scaled my ey = Zpos ay * 2 ^ (ez + 1074)).
    { unfold scaled. rewrite Hay, <- Z.mul_assoc, <- Z.pow_add_r by lia.
      f_equal; f_equal; lia. }
    rewrite Ex, Ey in Hlt. nia. }
  destruct (cond_Zopp sx (Zpos ax) - cond_Zopp false (Zpos ay)) as [|d|d]; try lia.
  cbn [binary_normalize].
  destruct (binary_round_spec true d ez Hez) as (m' & e' & _ & _ & _ & _ & ->).
  destruct (e' <=? 971); reflexivity.
Qed.


Lemma leb_infinity X :
  fin_nonneg X = true -> SFleb X (S754_infinity false) = true.
Proof. destruct X as [?|?| |[|] ? ?]; try discriminate; reflexivity. Qed.

Lemma leb_nan X : SFleb X S754_nan = false.
Proof. destruct X as [[|]|[|]| |[|] ? ?]; reflexivity. Qed.




(** *** Signs of quotients and products *)

Lemma SF_tenth : Prim2SF 0.1 = S754_finite false 7205759403792794 (-56).
Proof. reflexivity. Qed.

Lemma shr_1_keeps_nonneg mrs : 0 <= shr_m mrs -> 0 <= shr_m (shr_1 mrs).
Proof.
  destruct mrs as [m r s]. destruct m as [|[p|p|]|p]; cbn; lia.
Qed.

Lemma shr_fexp_nonneg m e l :
  0 <= m -> 0 <= shr_m (fst (shr_fexp prec emax m e l)).
Proof.
  intros Hm. unfold shr_fexp, shr.
  assert (H0 : 0 <= shr_m (shr_record_of_loc m l)) by (destruct l as [|[| |]]; exact Hm).
  destruct (fexp prec emax (Zdigits2 m + e) - e) as [|p|p]; cbn [fst]; auto.
  rewrite iter_pos_iter. apply Pos.iter_invariant; auto. intros; now apply shr_1_keeps_nonneg.
Qed.

Lemma round_nearest_even_nonneg m l : 0 <= m -> 0 <= round_nearest_even m l.
Proof.
  intros Hm. destruct l as [|[| |]]; cbn [round_nearest_even]; try destruct (Z.even m); lia.
Qed.

(** A rounded quotient or product carries the sign it was given. *)
Lemma binary_round_aux_sign sx mx ex lx : 0 <= mx ->
  match binary_round_aux prec emax sx mx ex lx with
  | S754_zero s | S754_infinity s | S754_finite s _ _ => s = sx
  | S754_nan => False
  end.
Proof.
  intros Hm. unfold binary_round_aux.
  pose proof (shr_fexp_nonneg mx ex lx Hm) as H1.
  destruct (shr_fexp prec emax mx ex lx) as [mrs' e']. cbn [fst] in H1.
  pose proof (shr_fexp_nonneg _ e' loc_Exact
                (round_nearest_even_nonneg _ (loc_of_shr_record mrs') H1)) as H2.
  destruct (shr_fexp prec emax _ e' loc_Exact) as [mrs'' e'']. cbn [fst] in H2.
  destruct (shr_m mrs'') as [|m|m]; try lia; auto.
  destruct (e'' <=? emax - prec); reflexivity.
Qed.

Lemma SFdiv_core_nonneg mx ex my ey :
  0 <= fst (fst (SFdiv_core_binary prec emax (Zpos mx) ex (Zpos my) ey)).
Proof.
  unfold SFdiv_core_binary.
  set (s := _ - _ - _).
  set (m' := match s with Zpos _ => Z.shiftl (Zpos mx) s | 0 => Zpos mx | Zneg _ => 0 end).
  assert (Hm' : 0 <= m').
  { subst m'. destruct s; try lia. apply Z.shiftl_nonneg. lia. }
  pose proof (Z.div_pos m' (Zpos my) Hm' ltac:(lia)) as Hq.
  unfold Z.div in Hq. destruct (Z.div_eucl m' (Zpos my)) as [q r]. exact Hq.
Qed.

Lemma SFdiv_sign sx mx ex sy my ey :
  match SFdiv prec emax (S754_finite sx mx ex) (S754_finite sy my ey) with
  | S754_zero s | S754_infinity s | S754_finite s _ _ => s = xorb sx sy
  | S754_nan => False
  end.
Proof.
  cbn [SFdiv]. pose proof (SFdiv_core_nonneg mx ex my ey) as H.
  destruct (SFdiv_core_binary prec emax (Zpos mx) ex (Zpos my) ey) as [[mz ez] lz].
  cbn [fst] in H. apply binary_round_aux_sign, H.
Qed.


Lemma ltb0_pos x : (0 <? x)%float = true ->
  Prim2SF x = S754_infinity false \/ exists m e, Prim2SF x = S754_finite false m e.
Proof.
  rewrite ltb_spec, SF_0.
  destruct (Prim2SF x) as [s|s| |s m e]; try destruct s; cbn; try congruence; eauto.
Qed.


Lemma SFcompare_refl x : x <> S754_nan -> SFcompare x x = Some Eq.
Proof.
  intros Hx. destruct x as [s|s| |s m e]; try destruct s; try reflexivity;
    try congruence; cbn [SFcompare];
    rewrite (Z.compare_refl e), (Pos.compare_cont_refl m Eq); reflexivity.
Qed.

Lemma is_nan_SF x : is_nan x = true <-> Prim2SF x = S754_nan.
Proof.
  unfold is_nan. rewrite FloatAxioms.eqb_spec. unfold SFeqb.
  destruct (Prim2SF x) as [s|s| |s m e] eqn:E.
  4: rewrite SFcompare_refl by discriminate.
  1, 2: rewrite SFcompare_refl by discriminate.
  all: cbn; split; congruence.
Qed.

(** A non-negative finite time over a positive duration. *)
Lemma div_sign_nonneg t d :
  (0 <=? t)%float = true -> (t <? infinity)%float = true ->
  (0 <? d)%float = true ->
  signNonneg (Prim2SF (t / d)) = true.
Proof.
  intros H0 Hf Hd. rewrite div_spec. unfold SF64div.
  pose proof (nonneg_finite t H0 Hf) as HT.
  destruct (ltb0_pos d Hd) as [->|(m & e & ->)];
  destruct (Prim2SF t) as [s|s| |[|] mt et]; try discriminate; try reflexivity.
  pose proof (SFdiv_sign false mt et false m e) as H.
  destruct (SFdiv prec emax _ _) as [s|s| |s ? ?]; try contradiction; subst; reflexivity.
Qed.


(** Capping a quotient that is not negative at 1 clamps it to [0, 1]. *)
Lemma cap_unit q : signNonneg (Prim2SF q) = true ->
  let r := if (1 <=? q)%float then 1%float else q in
  (0 <=? r)%float = true /\ (r <=? 1)%float = true /\ r = clamp q 0 1.
Proof.
  intros Hq r. unfold clamp. subst r.
  assert (Hneg : (q <? 0)%float = false).
  { rewrite ltb_spec, SF_0.
    destruct (Prim2SF q) as [s|s| |s m e]; try destruct s; try discriminate; reflexivity. }
  assert (H0 : (0 <=? q)%float = true).
  { rewrite leb_spec, SF_0.
    destruct (Prim2SF q) as [s|s| |s m e]; try destruct s; try discriminate; reflexivity. }
  rewrite Hneg.
  assert (Hq1 : Prim2SF q = Prim2SF 1 -> q = 1%float) by apply Prim2SF_inj.
  pose proof (SFcompare_antisym (Prim2SF 1) (Prim2SF q)) as Ha.
  pose proof (leb_spec 1 q) as Hle1. pose proof (ltb_spec 1 q) as Hlt1.
  pose proof (leb_spec q 1) as Hle2. unfold SFleb, SFltb in Hle1, Hlt1, Hle2.
  rewrite Ha in Hle2.
  assert (Hc : match SFcompare (Prim2SF 1) (Prim2SF q) with
               | Some Eq => Prim2SF q = Prim2SF 1
               | Some _ => True
               | None => False
               end).
  { rewrite SF_1.
    destruct (Prim2SF q) as [s|s| |s m e]; try destruct s; try discriminate; cbn [SFcompare]; auto.
    destruct (Z.compare_spec (-52) e) as [E|E|E]; auto.
    destruct (Pos.compare_cont Eq 4503599627370496 m) eqn:Ec; auto.
    apply Pos.compare_eq in Ec. subst. reflexivity. }
  destruct (SFcompare (Prim2SF 1) (Prim2SF q)) as [[| |]|];
    cbn [option_map CompOpp] in Hle2; try contradiction;
    rewrite Hle1, ?Hlt1; repeat split; auto.
  symmetry; auto.
Qed.

(** A ratio of [0, 1] times a zero is a zero, and a zero less 0.1 is
    -0.1. *)
Lemma drag_zero_duration r d :
  (d =? 0)%float = true -> (0 <=? r)%float = true -> (r <=? 1)%float = true ->
  (r * d =? d)%float = true /\ (r * d - 0.1)%float = (-0.1)%float.
Proof.
  intros Hd H0 H1.
  rewrite FloatAxioms.eqb_spec, SF_0 in Hd. rewrite leb_spec, SF_0 in H0. rewrite leb_spec, SF_1 in H1.
  assert (Hm : exists s, Prim2SF (r * d) = S754_zero s /\ exists s', Prim2SF d = S754_zero s').
  { rewrite mul_spec. unfold SF64mul.
    destruct (Prim2SF d) as [sd|sd| |sd md ed]; try destruct sd; try discriminate;
    destruct (Prim2SF r) as [sr|sr| |sr mr er]; try destruct sr; try discriminate;
      cbn [SFmul]; eauto. }
  destruct Hm as (s & Hm & s' & Hd').
  split.
  - rewrite FloatAxioms.eqb_spec, Hm, Hd'. reflexivity.
  - apply Prim2SF_inj. rewrite sub_spec, Hm, SF_tenth. reflexivity.
Qed.

(** *** Comparisons *)

Lemma SF_two49 : Prim2SF 0x1p49 = S754_finite false 4503599627370496 (-3).
Proof. reflexivity. Qed.

Lemma SF_two53 : Prim2SF 0x1p53 = S754_finite false 4503599627370496 1.
Proof. reflexivity. Qed.

Lemma scaled_two49 : scaled 4503599627370496 (-3) = 2 ^ 1123.
Proof. reflexivity. Qed.

Lemma scaled_two53 : scaled 4503599627370496 1 = 2 ^ 1127.
Proof. reflexivity. Qed.

Lemma SF_one_scaled : scaled 4503599627370496 (-52) = 2 ^ 1074.
Proof. reflexivity. Qed.

Lemma ltb_leb x y : SFltb x y = true -> SFleb x y = true.
Proof.
  unfold SFltb, SFleb. destruct (SFcompare x y) as [[| |]|]; congruence.
Qed.

(** The cap of [getPercent]: never above 1, and [NaN] only from
    [NaN]. *)
Lemma cap_not_above q :
  let r := if (1 <=? q)%float then 1%float else q in
  (1 <? r)%float = false /\ is_nan r = is_nan q.
Proof.
  cbv zeta. destruct (1 <=? q)%float eqn:Hle.
  - split; [reflexivity|].
    destruct (is_nan q) eqn:Hn; [|reflexivity].
    apply is_nan_SF in Hn. rewrite leb_spec, Hn, leb_nan in Hle. discriminate Hle.
  - split; [|reflexivity].
    destruct (1 <? q)%float eqn:Hlt; [|reflexivity].
    rewrite ltb_spec in Hlt. apply ltb_leb in Hlt. rewrite <- leb_spec in Hlt.
    congruence.
Qed.

(** [===] on numbers: the same number, or two zeros. *)
Lemma SFeqb_true x y : SFeqb x y = true ->
  x = y \/ exists s s', x = S754_zero s /\ y = S754_zero s'.
Proof.
  unfold SFeqb.
  destruct x as [sx|[|]| |[|] mx ex], y as [sy|[|]| |[|] my ey]; cbn [SFcompare];
    try discriminate; auto.
  - intros _. right. exists sx, sy. split; reflexivity.
  - destruct (Z.compare_spec ex ey) as [E|E|E]; try discriminate;
      destruct (Pos.compare_cont Eq mx my) eqn:Ec; try discriminate;
      apply Pos.compare_eq in Ec; subst; auto.
  - destruct (Z.compare_spec ex ey) as [E|E|E]; try discriminate;
      destruct (Pos.compare_cont Eq mx my) eqn:Ec; try discriminate;
      apply Pos.compare_eq in Ec; subst; auto.
Qed.

Lemma fin_nonneg_eq x y :
  fin_nonneg x = true -> fin_nonneg y = true -> val x = val y -> 0 < val x -> x = y.
Proof.
  intros Hx Hy E Hp.
  pose proof (SFcompare_nonneg x y Hx Hy) as Hc.
  rewrite E, Z.compare_refl in Hc.
  destruct (SFeqb_true x y) as [H|(s & s' & -> & _)]; [|exact H|].
  - unfold SFeqb. rewrite Hc. reflexivity.
  - cbn [val] in Hp. lia.
Qed.

Lemma eqb_negative_false W X :
  negative W = true -> fin_nonneg X = true -> SFeqb W X = false.
Proof.
  intros HW HX.
  destruct X as [?|?| |[|] ? ?]; try discriminate;
  destruct W as [?|[|]| |[|] ? ?]; try discriminate; reflexivity.
Qed.

Lemma ltb_negative W X :
  negative W = true -> fin_nonneg X = true -> SFltb W X = true.
Proof.
  intros HW HX.
  destruct X as [?|?| |[|] ? ?]; try discriminate;
  destruct W as [?|[|]| |[|] ? ?]; try discriminate; reflexivity.
Qed.

Lemma leb_of_val X Y :
  fin_nonneg X = true -> fin_nonneg Y = true -> val X <= val Y -> SFleb X Y = true.
Proof.
  intros HX HY Hle. unfold SFleb. rewrite (SFcompare_nonneg _ _ HX HY).
  destruct (Z.compare_spec (val X) (val Y)); try reflexivity; lia.
Qed.

Lemma leb_zero_nonneg X : fin_nonneg X = true -> SFleb (S754_zero false) X = true.
Proof.
  intros HX. apply leb_of_val; [reflexivity|exact HX|].
  destruct (fin_nonneg_val _ HX) as [[H _] _]. exact H.
Qed.

(** *** The guard of a drag *)

(** [d - 0.1] for a duration of at least 0.1 ... *)
Lemma sub_tenth_target d :
  fin_nonneg (Prim2SF d) = true -> tenth <= val (Prim2SF d) ->
  fin_nonneg (Prim2SF (d - 0.1)%float) = true /\
  val (Prim2SF (d - 0.1)%float) = rnd (val (Prim2SF d) - tenth).
Proof.
  intros Hd Hge. pose proof tenth_pos as Ht.
  rewrite sub_spec, SF_tenth. unfold SF64sub.
  destruct (Prim2SF d) as [?|?| |[|] md ed]; try discriminate Hd; cbn [val] in Hge; try lia.
  cbn [fin_nonneg] in Hd.
  destruct (SFsub_nonneg md ed _ _ Hd tenth_bounded) as [HW HvW].
  { rewrite tenth_scaled. exact Hge. }
  rewrite tenth_scaled in HvW. split; [exact HW|exact HvW].
Qed.

(** ... and for a shorter one. *)
Lemma sub_tenth_negative d :
  fin_nonneg (Prim2SF d) = true -> val (Prim2SF d) < tenth ->
  negative (Prim2SF (d - 0.1)%float) = true.
Proof.
  intros Hd Hlt.
  rewrite sub_spec, SF_tenth. unfold SF64sub.
  destruct (Prim2SF d) as [?|?| |[|] md ed]; try discriminate Hd; [reflexivity|].
  cbn [fin_nonneg val] in Hd, Hlt.
  apply SFsub_negative; [exact Hd|exact tenth_bounded|].
  right. rewrite tenth_scaled. exact Hlt.
Qed.

(** Below 2^49 seconds, 0.1 is more than the rounding can swallow. *)
Lemma sub_tenth_differs d :
  fin_nonneg (Prim2SF d) = true -> val (Prim2SF d) < 2 ^ 1123 ->
  (d - 0.1 =? d)%float = false.
Proof.
  intros Hd Hlt. rewrite FloatAxioms.eqb_spec.
  destruct (Z.lt_ge_cases (val (Prim2SF d)) tenth) as [Hs|Hge].
  - apply eqb_negative_false; [|exact Hd]. apply sub_tenth_negative; assumption.
  - destruct (sub_tenth_target d Hd Hge) as [HW HvW].
    unfold SFeqb. rewrite (SFcompare_nonneg _ _ HW Hd), HvW.
    assert (H : rnd (val (Prim2SF d) - tenth) < val (Prim2SF d)).
    { pose proof tenth_pos. pose proof tenth_range as [Hl _].
      rewrite pow_1123 in Hlt.
      set (A := 2 ^ 1070) in *. clearbody A.
      apply rnd_sub_below; [assumption|assumption|].
      change (2 ^ 53) with 9007199254740992 in *. lia. }
    apply Z.compare_lt_iff in H. rewrite H. reflexivity.
Qed.

Lemma below_two49 d :
  (0 <=? d)%float = true -> (d <? 0x1p49)%float = true ->
  fin_nonneg (Prim2SF d) = true /\ val (Prim2SF d) < 2 ^ 1123.
Proof.
  intros H0 Hlt.
  assert (Hd : fin_nonneg (Prim2SF d) = true).
  { rewrite leb_spec, SF_0 in H0. rewrite ltb_spec, SF_two49 in Hlt.
    pose proof (Prim2SF_valid d) as Hv.
    destruct (Prim2SF d) as [?|[|]| |[|] ? ?]; try discriminate; auto. }
  split; [exact Hd|].
  rewrite ltb_spec, SF_two49 in Hlt. unfold SFltb in Hlt.
  rewrite (SFcompare_nonneg (Prim2SF d) (S754_finite false 4503599627370496 (-3)) Hd
      eq_refl) in Hlt.
  cbn [val] in Hlt. rewrite scaled_two49 in Hlt.
  destruct (Z.compare_spec (val (Prim2SF d)) (2 ^ 1123)); try discriminate; assumption.
Qed.

(** The guard of a drag, where it holds: the time sought differs from
    the duration. *)
Lemma drag_guard_works n d :
  (n =? d)%float = true ->
  (0 <=? d)%float = true -> (d <? 0x1p49)%float = true ->
  (n - 0.1 =? d)%float = false.
Proof.
  intros Hn H0 Hlt.
  destruct (below_two49 d H0 Hlt) as [Hd Hv].
  rewrite FloatAxioms.eqb_spec in Hn.
  destruct (SFeqb_true _ _ Hn) as [E|(s & s' & En & Ed)].
  - apply Prim2SF_inj in E. subst n. apply sub_tenth_differs; assumption.
  - rewrite FloatAxioms.eqb_spec, sub_spec, En, Ed, SF_tenth. reflexivity.
Qed.

Lemma at_least_two53 d :
  (0x1p53 <=? d)%float = true -> (d <? infinity)%float = true ->
  fin_nonneg (Prim2SF d) = true /\ 2 ^ 1127 <= val (Prim2SF d).
Proof.
  intros Hge Hfin.
  assert (Hd : fin_nonneg (Prim2SF d) = true).
  { rewrite leb_spec, SF_two53 in Hge. rewrite ltb_spec, SF_infinity in Hfin.
    pose proof (Prim2SF_valid d) as Hv.
    destruct (Prim2SF d) as [?|[|]| |[|] ? ?]; try discriminate; auto. }
  split; [exact Hd|].
  rewrite leb_spec, SF_two53 in Hge. unfold SFleb in Hge.
  rewrite (SFcompare_nonneg (S754_finite false 4503599627370496 1) (Prim2SF d) eq_refl Hd)
      in Hge.
  cbn [val] in Hge. rewrite scaled_two53 in Hge.
  destruct (Z.compare_spec (2 ^ 1127) (val (Prim2SF d))); try discriminate; lia.
Qed.

(** The guard of a drag, where it is lost in rounding: from 2^53
    seconds on, the duration less 0.1 is the duration. *)
Lemma drag_guard_absorbed n d :
  (n =? d)%float = true ->
  (0x1p53 <=? d)%float = true -> (d <? infinity)%float = true ->
  (n - 0.1)%float = d.
Proof.
  intros Hn Hge Hfin.
  destruct (at_least_two53 d Hge Hfin) as [Hd Hv].
  assert (Hp : 0 < 2 ^ 1127) by (apply Z.pow_pos_nonneg; lia).
  rewrite FloatAxioms.eqb_spec in Hn.
  destruct (SFeqb_true _ _ Hn) as [E|(s & s' & En & Ed)].
  2: { rewrite Ed in Hv. cbn [val] in Hv. lia. }
  apply Prim2SF_inj in E. subst n.
  pose proof tenth_pos as Ht. pose proof tenth_range as [_ Hu].
  assert (H1071 : 2 ^ 1071 <= 2 ^ 1127) by (apply Z.pow_le_mono_r; lia).
  destruct (sub_tenth_target d Hd ltac:(lia)) as [HW HvW].
  destruct (fin_nonneg_val _ Hd) as [_ Hrep].
  pose proof (ulp_exp_mono _ _ Hp Hv) as Hg. rewrite ulp_exp_two1127 in Hg.
  rewrite rnd_sub_absorbs in HvW; try assumption; try lia.
  - apply Prim2SF_inj. apply fin_nonneg_eq; try assumption. lia.
  - assert (H1075 : 2 ^ 1075 <= 2 ^ ulp_exp (val (Prim2SF d)))
      by (apply Z.pow_le_mono_r; lia).
    assert (E : 2 ^ 1075 = 16 * 2 ^ 1071)
      by (change 1075 with (4 + 1071); rewrite Z.pow_add_r by lia; reflexivity).
    set (A := 2 ^ 1071) in *. set (B := 2 ^ 1075) in *.
    set (C := 2 ^ ulp_exp (val (Prim2SF d))) in *. clearbody A B C. lia.
Qed.

(** An unbounded duration: every ratio above 0 gives infinity, which
    is the duration, and infinity less 0.1 is infinity. *)
Lemma drag_unbounded r :
  (0 <? r)%float = true ->
  (r * infinity =? infinity)%float = true /\ (r * infinity - 0.1)%float = infinity.
Proof.
  intros Hr.
  assert (E : Prim2SF (r * infinity)%float = S754_infinity false).
  { rewrite mul_spec, SF_infinity. unfold SF64mul.
    destruct (ltb0_pos r Hr) as [->|(m & e & ->)]; reflexivity. }
  split.
  - rewrite FloatAxioms.eqb_spec, E. reflexivity.
  - apply Prim2SF_inj. rewrite sub_spec, E, SF_tenth. reflexivity.
Qed.

(** No duration, or an unbounded one at a ratio of 0: the product is
    [NaN], and [NaN] equals nothing. *)
Lemma drag_undefined r d :
  is_nan d = true \/ (d = infinity /\ (r =? 0)%float = true) ->
  is_nan (r * d)%float = true /\ (r * d =? d)%float = false.
Proof.
  intros H.
  assert (E : Prim2SF (r * d)%float = S754_nan).
  { rewrite mul_spec. unfold SF64mul. destruct H as [H|[-> H]].
    - apply is_nan_SF in H. rewrite H.
      destruct (Prim2SF r) as [?|?| |? ? ?]; reflexivity.
    - rewrite FloatAxioms.eqb_spec, SF_0 in H. rewrite SF_infinity.
      destruct (Prim2SF r) as [?|[|]| |[|] ? ?]; try discriminate H; reflexivity. }
  split; [apply is_nan_SF, E|].
  rewrite FloatAxioms.eqb_spec, E. reflexivity.
Qed.

(** The product of a drag: within the duration, and not below 0. *)
Lemma drag_product_within r d :
  (0 <=? r)%float = true -> (r <=? 1)%float = true ->
  fin_nonneg (Prim2SF d) = true ->
  fin_nonneg (Prim2SF (r * d)%float) = true /\
  val (Prim2SF (r * d)%float) <= val (Prim2SF d).
Proof.
  intros H0 H1 Hd.
  destruct (fin_nonneg_val _ Hd) as [[Hd0 _] _].
  assert (Hr : fin_nonneg (Prim2SF r) = true).
  { rewrite leb_spec, SF_0 in H0. rewrite leb_spec, SF_1 in H1.
    pose proof (Prim2SF_valid r) as Hv.
    destruct (Prim2SF r) as [?|[|]| |[|] ? ?]; try discriminate; auto. }
  assert (Hr1 : val (Prim2SF r) <= 2 ^ 1074).
  { rewrite leb_spec, SF_1 in H1. unfold SFleb in H1.
    rewrite (SFcompare_nonneg (Prim2SF r) (S754_finite false 4503599627370496 (-52))
               Hr eq_refl) in H1.
    cbn [val] in H1. rewrite SF_one_scaled in H1.
    destruct (Z.compare_spec (val (Prim2SF r)) (2 ^ 1074)); try discriminate; lia. }
  rewrite mul_spec. unfold SF64mul.
  destruct (Prim2SF r) as [sr|?| |[|] mr er]; try discriminate Hr;
    destruct (Prim2SF d) as [sd|?| |[|] md ed]; try discriminate Hd;
    cbn [SFmul fin_nonneg val] in *; try (split; [reflexivity|lia]).
  exact (SFmul_within mr er md ed Hr Hd Hr1).
Qed.

(** The time a drag seeks to, for a ratio of [0, 1] and a duration that
    is a number and not negative: never past the duration, and not
    below 0 once the duration is 0.1 or more. *)
Lemma drag_target_within r d :
  (0 <=? r)%float = true -> (r <=? 1)%float = true ->
  (0 <=? d)%float = true -> (d <? infinity)%float = true ->
  let n := (r * d)%float in
  let target := if (n =? d)%float then (n - 0.1)%float else n in
  (target <=? d)%float = true /\
  ((0.1 <=? d)%float = true -> (0 <=? target)%float = true).
Proof.
  intros Hr0 Hr1 Hd0 Hdf n target.
  pose proof (nonneg_finite d Hd0 Hdf) as Hd.
  destruct (drag_product_within r d Hr0 Hr1 Hd) as [Hn Hnv]. fold n in Hn, Hnv.
  destruct (fin_nonneg_val _ Hd) as [[HD0 _] Hrep].
  subst target. destruct (n =? d)%float eqn:E.
  - rewrite FloatAxioms.eqb_spec in E.
    destruct (Z.lt_ge_cases (val (Prim2SF d)) tenth) as [Hs|Hb].
    + (* a duration below 0.1: the guard takes the target below 0 *)
      assert (Hneg : negative (Prim2SF (n - 0.1)%float) = true).
      { destruct (SFeqb_true _ _ E) as [E'|(s & s' & En & Ed)].
        - apply Prim2SF_inj in E'. rewrite E'. apply sub_tenth_negative; assumption.
        - rewrite sub_spec, En, SF_tenth. reflexivity. }
      split.
      * rewrite leb_spec. apply ltb_leb, ltb_negative; assumption.
      * intros H. exfalso. rewrite leb_spec, SF_tenth in H. unfold SFleb in H.
        rewrite (SFcompare_nonneg (S754_finite false 7205759403792794 (-56))
                   (Prim2SF d) tenth_bounded Hd) in H.
        cbn [val] in H. rewrite tenth_scaled in H.
        destruct (Z.compare_spec tenth (val (Prim2SF d))); try discriminate; lia.
    + assert (E' : n = d).
      { destruct (SFeqb_true _ _ E) as [E'|(s & s' & En & Ed)].
        - apply Prim2SF_inj, E'.
        - exfalso. rewrite Ed in Hb. cbn [val] in Hb. pose proof tenth_pos. lia. }
      rewrite E'. destruct (sub_tenth_target d Hd Hb) as [HW HvW].
      pose proof tenth_pos as Ht.
      split.
      * rewrite leb_spec. apply leb_of_val; try assumption.
        rewrite HvW. apply rnd_upper; [lia|exact Hrep|lia].
      * intros _. rewrite leb_spec, SF_0. apply leb_zero_nonneg, HW.
  - split.
    + rewrite leb_spec. apply leb_of_val; assumption.
    + intros _. rewrite leb_spec, SF_0. apply leb_zero_nonneg, Hn.
Qed.

(** *** Steps near the ends *)

(** Five seconds off a time: negative below five seconds, the rounded
    difference from five seconds on. *)
Lemma sub_five_negative t :
  fin_nonneg (Prim2SF t) = true -> val (Prim2SF t) < five ->
  negative (Prim2SF (t - STEP_SECONDS)%float) = true.
Proof.
  intros Ht Hlt.
  rewrite sub_spec, SF_5. unfold SF64sub.
  destruct (Prim2SF t) as [?|?| |[|] mt et]; try discriminate Ht; [reflexivity|].
  cbn [fin_nonneg val] in Ht, Hlt.
  apply SFsub_negative; [exact Ht|exact five_bounded|].
  right. rewrite five_scaled. exact Hlt.
Qed.

Lemma below_five t :
  (0 <=? t)%float = true -> (t <? STEP_SECONDS)%float = true ->
  fin_nonneg (Prim2SF t) = true /\ val (Prim2SF t) < five.
Proof.
  intros H0 Hlt.
  assert (Ht : fin_nonneg (Prim2SF t) = true).
  { rewrite leb_spec, SF_0 in H0. rewrite ltb_spec, SF_5 in Hlt.
    pose proof (Prim2SF_valid t) as Hv.
    destruct (Prim2SF t) as [?|[|]| |[|] ? ?]; try discriminate; auto. }
  split; [exact Ht|].
  rewrite ltb_spec, SF_5 in Hlt. unfold SFltb in Hlt.
  rewrite (SFcompare_nonneg (Prim2SF t) (S754_finite false 5629499534213120 (-50))
             Ht five_bounded) in Hlt.
  cbn [val] in Hlt. rewrite five_scaled in Hlt.
  destruct (Z.compare_spec (val (Prim2SF t)) five); try discriminate; assumption.
Qed.

Lemma step_back_negative t :
  (0 <=? t)%float = true -> (t <? STEP_SECONDS)%float = true ->
  (t - STEP_SECONDS <? 0)%float = true.
Proof.
  intros H0 Hlt. destruct (below_five t H0 Hlt) as [Ht Hv].
  rewrite ltb_spec, SF_0. apply ltb_negative; [|reflexivity].
  apply sub_five_negative; assumption.
Qed.

Lemma below_two53 t :
  (0 <=? t)%float = true -> (t <? 0x1p53)%float = true ->
  fin_nonneg (Prim2SF t) = true /\ val (Prim2SF t) < 2 ^ 1127.
Proof.
  intros H0 Hlt.
  assert (Ht : fin_nonneg (Prim2SF t) = true).
  { rewrite leb_spec, SF_0 in H0. rewrite ltb_spec, SF_two53 in Hlt.
    pose proof (Prim2SF_valid t) as Hv.
    destruct (Prim2SF t) as [?|[|]| |[|] ? ?]; try discriminate; auto. }
  split; [exact Ht|].
  rewrite ltb_spec, SF_two53 in Hlt. unfold SFltb in Hlt.
  rewrite (SFcompare_nonneg (Prim2SF t) (S754_finite false 4503599627370496 1)
             Ht eq_refl) in Hlt.
  cbn [val] in Hlt. rewrite scaled_two53 in Hlt.
  destruct (Z.compare_spec (val (Prim2SF t)) (2 ^ 1127)); try discriminate; assumption.
Qed.

(** Below 2^53 seconds a step is not lost in rounding. *)
Lemma steps_move t :
  (0 <=? t)%float = true -> (t <? 0x1p53)%float = true ->
  (t <? t + STEP_SECONDS)%float = true /\ (t - STEP_SECONDS <? t)%float = true.
Proof.
  intros H0 Hlt. destruct (below_two53 t H0 Hlt) as [Ht Hv].
  destruct (fin_nonneg_val _ Ht) as [[Hge _] _].
  pose proof five_pos as H5.
  pose proof (five_margin _ (conj Hge Hv)) as Hm.
  split.
  - destruct (forward_target t Ht) as (HS & HvS & _).
    rewrite ltb_spec. unfold SFltb. rewrite (SFcompare_nonneg _ _ Ht HS), HvS.
    pose proof (rnd_add_above _ five Hge H5 Hm) as H.
    apply Z.compare_lt_iff in H. rewrite H. reflexivity.
  - rewrite ltb_spec.
    destruct (Z.lt_ge_cases (val (Prim2SF t)) five) as [Hs|Hb].
    + apply ltb_negative; [|exact Ht]. apply sub_five_negative; assumption.
    + destruct (backward_target t Ht Hb) as (HR & HvR & _).
      unfold SFltb. rewrite (SFcompare_nonneg _ _ HR Ht), HvR.
      assert (H : rnd (val (Prim2SF t) - five) < val (Prim2SF t))
        by (apply rnd_sub_below; lia).
      apply Z.compare_lt_iff in H. rewrite H. reflexivity.
Qed.

(** Back and forth within the duration: both targets are in range, and
    the second is the start up to rounding, never later. *)
Lemma step_roundtrip_back_float t d :
  (STEP_SECONDS <=? t)%float = true -> (t <? infinity)%float = true ->
  (t <=? d)%float = true ->
  let r := (t - STEP_SECONDS)%float in
  let s := (r + STEP_SECONDS)%float in
  Player.clampSeek r d = r /\ Player.clampSeek s d = s /\
  withinTolerance s t /\ (s <=? t)%float = true.
Proof.
  intros H5t Hfin Hle r s.
  pose proof five_pos as H5.
  assert (HX : fin_nonneg (Prim2SF t) = true).
  { rewrite leb_spec, SF_5 in H5t. rewrite ltb_spec, SF_infinity in Hfin.
    pose proof (Prim2SF_valid t) as Hv.
    destruct (Prim2SF t) as [[|]|[|]| |[|] ? ?]; try discriminate; auto. }
  assert (Hge : five <= val (Prim2SF t)).
  { rewrite leb_spec, SF_5 in H5t. unfold SFleb in H5t.
    rewrite (SFcompare_nonneg (S754_finite false 5629499534213120 (-50)) (Prim2SF t)
               five_bounded HX) in H5t.
    cbn [val] in H5t. rewrite five_scaled in H5t.
    destruct (Z.compare_spec five (val (Prim2SF t))); try discriminate; lia. }
  destruct (fin_nonneg_val _ HX) as [HXr HXrep].
  destruct (backward_target t HX Hge) as (HR & HvR & HRt). fold r in HR, HvR, HRt.
  destruct (forward_target r HR) as (HS & HvS & HgeS). fold s in HS, HvS, HgeS.
  assert (HSt : val (Prim2SF s) <= val (Prim2SF t)).
  { rewrite HvS, HvR. apply back_and_forth_le; assumption. }
  pose proof Hle as HD. rewrite leb_spec in HD.
  apply (leb_true_cases _ _ HX ltac:(lia) (Prim2SF_valid d)) in HD.
  assert (HDr : forall x, fin_nonneg (Prim2SF x) = true ->
                  val (Prim2SF x) <= val (Prim2SF t) -> Player.clampSeek x d = x).
  { intros x Hx Hxt. unfold Player.clampSeek.
    rewrite !ltb_spec, SF_0, (ltb_zero_false _ Hx).
    rewrite (ltb_le_false (Prim2SF x) (Prim2SF d) Hx); [reflexivity|].
    destruct HD as [HD|[HD HD']]; [left; exact HD|right; split; [exact HD|lia]]. }
  split; [apply HDr; assumption|].
  split; [apply HDr; assumption|].
  split.
  - split; [apply fin_nonneg_isFinite, HS|].
    split; [apply fin_nonneg_isFinite, HX|].
    unfold ticks. rewrite SF_5. cbn [val]. rewrite five_scaled.
    rewrite HvS, HvR.
    apply roundtrip_back_Z; assumption.
  - rewrite leb_spec. unfold SFleb. rewrite (SFcompare_nonneg _ _ HS HX).
    destruct (Z.compare_spec (val (Prim2SF s)) (val (Prim2SF t))); try reflexivity; lia.
Qed.

(** *** The quotient of [getPercent] *)

(** The exponent a quotient is taken at puts all its bits before the
    point. *)
Lemma quotient_exp_le mx ex my ey : quotient_exp mx ex my ey <= ex - ey.
Proof. unfold quotient_exp. apply Z.le_min_r. Qed.

(** The quotient of two positive floats: infinity, past the largest
    exponent, or the rounded mantissa at its exponent. *)
Lemma SFdiv_value mx ex my ey :
  let R := SFdiv prec emax (S754_finite false mx ex) (S754_finite false my ey) in
  let m2 := result_mantissa mx ex my ey in
  let fe := result_exp mx ex my ey in
  let Bn := Zpos my * 2 ^ (fe - quotient_exp mx ex my ey) in
  (quotient_exp mx ex my ey <= fe /\ -1074 <= fe /\ 0 <= m2 <= 2 ^ 53 /\
   (-1074 < fe -> 2 ^ 52 <= m2)) /\
  (numerator mx ex my ey < 2 ^ 53 * Bn /\
   (-1074 < fe -> 2 ^ 52 * Bn <= numerator mx ex my ey)) /\
  ((R = S754_infinity false /\ 971 <= fe /\ overflow <= m2 * 2 ^ (fe + 1074)) \/
   (fin_nonneg R = true /\ val R = m2 * 2 ^ (fe + 1074))).
Proof.
  intros R m2 fe Bn.
  destruct (SFdiv_spec false mx ex false my ey)
    as ((Hs & Hn & Hfe) & (Hm2 & Hm53) & ER & Hcan & HQu & HQl).
  cbv zeta in Hs, Hn, Hfe, Hm2, Hm53, ER, Hcan, HQu, HQl.
  fold (quotient_exp mx ex my ey) in Hs, Hn, Hfe, Hm2, Hm53, ER, Hcan, HQu, HQl.
  fold (numerator mx ex my ey) in Hn, Hfe, Hm2, Hm53, ER, Hcan, HQu, HQl.
  set (e' := quotient_exp mx ex my ey) in *.
  set (A := numerator mx ex my ey) in *.
  assert (Efe : e' + (fexp prec emax (Zdigits2 (A / Zpos my) + e') - e') = fe).
  { unfold fe, result_exp. fold e' A. lia. }
  assert (En : fexp prec emax (Zdigits2 (A / Zpos my) + e') - e' = fe - e') by lia.
  rewrite Efe in Hfe, ER, Hcan, HQl.
  rewrite En in Hn, Hm2, Hm53, ER, Hcan, HQu, HQl.
  assert (Em2 : round_div A (Zpos my * 2 ^ (fe - e')) = m2) by reflexivity.
  rewrite Em2 in Hm2, Hm53, ER, Hcan.
  fold Bn in Em2.
  assert (HA0 : 0 <= A).
  { unfold A, numerator. apply Z.mul_nonneg_nonneg; [lia|apply Z.pow_nonneg; lia]. }
  assert (Hpn : 0 < 2 ^ (fe - e')) by (apply Z.pow_pos_nonneg; lia).
  assert (HBn : 0 < Bn) by (unfold Bn; lia).
  assert (EQ : A / Zpos my / 2 ^ (fe - e') = A / Bn).
  { unfold Bn. apply Z.div_div; lia. }
  rewrite EQ in Hm2, HQu, HQl.
  assert (HQ0 : 0 <= A / Bn) by (apply Z.div_pos; lia).
  pose proof (Z.div_mod A Bn ltac:(lia)) as Hdm.
  pose proof (Z.mod_pos_bound A Bn HBn) as Hrm.
  assert (Hnorm : -1074 < fe -> 2 ^ 52 <= m2) by (intros H; specialize (HQl H); lia).
  assert (Hpf : 0 < 2 ^ (fe + 1074)) by (apply Z.pow_pos_nonneg; lia).
  split; [repeat split; try lia; exact Hnorm|].
  split.
  { change (2 ^ 53) with 9007199254740992 in *.
    change (2 ^ 52) with 4503599627370496 in *.
    split; [nia|]. intros H. specialize (HQl H). nia. }
  assert (Hover : forall m f, 2 ^ 52 <= m -> 971 < f -> overflow <= m * 2 ^ (f + 1074)).
  { intros m f Hm Hf. rewrite overflow_52.
    assert (2 ^ 2046 <= 2 ^ (f + 1074)) by (apply Z.pow_le_mono_r; lia).
    assert (0 < 2 ^ 2046) by (apply Z.pow_pos_nonneg; lia).
    change (2 ^ 52) with 4503599627370496 in *.
    set (U := 2 ^ 2046) in *. set (V := 2 ^ (f + 1074)) in *. clearbody U V. nia. }
  subst R. cbn [xorb] in ER. rewrite ER.
  destruct m2 as [|m|m] eqn:E2; try lia.
  - right. split; reflexivity.
  - destruct (Z.ltb_spec (Zpos m) (2 ^ 53)) as [Hlt|Hge].
    + destruct (Z.leb_spec fe 971) as [Hf|Hf];
        [right|left; split; [reflexivity|split; [lia|apply Hover; [apply Hnorm|]; lia]]].
      cbn [fin_nonneg val]. split; [|reflexivity].
      unfold bounded. rewrite (Hcan m eq_refl Hlt).
      apply Z.leb_le. change (emax - prec) with 971. exact Hf.
    + assert (E53 : Zpos m = 2 ^ 53) by lia.
      assert (Ecarry : Zpos m * 2 ^ (fe + 1074) = 2 ^ 52 * 2 ^ (fe + 1 + 1074)).
      { rewrite E53. replace (fe + 1 + 1074) with (1 + (fe + 1074)) by lia.
        rewrite (Z.pow_add_r 2 1 (fe + 1074)), Z.mul_assoc by lia. reflexivity. }
      destruct (Z.leb_spec (fe + 1) 971) as [Hf|Hf];
        [right|left; split; [reflexivity|split; [lia|rewrite Ecarry; apply Hover; lia]]].
      cbn [fin_nonneg val]. split.
      * unfold bounded, canonical_mantissa.
        change (Zpos (digits2_pos (Z.to_pos (2 ^ 52)))) with 53.
        rewrite fexp_eq.
        replace (Z.max (53 + (fe + 1) - 53) (-1074)) with (fe + 1) by lia.
        rewrite Z.eqb_refl. apply Z.leb_le. change (emax - prec) with 971. lia.
      * unfold scaled. change (Zpos (Z.to_pos (2 ^ 52))) with (2 ^ 52).
        symmetry. exact Ecarry.
Qed.

(** From the end on, time over duration is at least 1. *)
Lemma SFdiv_at_least_one mx ex my ey :
  bounded prec emax mx ex = true -> bounded prec emax my ey = true ->
  scaled my ey <= scaled mx ex ->
  SFleb (S754_finite false 4503599627370496 (-52))
    (SFdiv prec emax (S754_finite false mx ex) (S754_finite false my ey)) = true.
Proof.
  intros Hx Hy Hle.
  destruct (bounded_range mx ex Hx) as [_ Hex].
  destruct (bounded_range my ey Hy) as [_ Hey].
  destruct (SFdiv_value mx ex my ey) as ((He' & Hfe & Hm0 & Hnorm) & _ & [[-> _]|[HR Hv]]);
    [reflexivity|].
  cbv zeta in He', Hfe, Hm0, Hnorm, HR, Hv.
  pose proof (quotient_exp_le mx ex my ey) as Hes.
  set (e' := quotient_exp mx ex my ey) in *.
  set (fe := result_exp mx ex my ey) in *.
  set (m2 := result_mantissa mx ex my ey) in *.
  apply leb_of_val; [reflexivity|exact HR|].
  cbn [val]. rewrite SF_one_scaled, Hv.
  destruct (Z.le_gt_cases 0 fe) as [Hpos|Hneg].
  - (* a quotient of 2^52 or more *)
    specialize (Hnorm ltac:(lia)).
    assert (H : 2 ^ 1074 <= 2 ^ (fe + 1074)) by (apply Z.pow_le_mono_r; lia).
    assert (Hp : 0 < 2 ^ 1074) by (apply Z.pow_pos_nonneg; lia).
    change (2 ^ 52) with 4503599627370496 in Hnorm.
    set (U := 2 ^ 1074) in *. set (V := 2 ^ (fe + 1074)) in *. clearbody U V. nia.
  - (* the rounded mantissa is at least 2^-fe *)
    assert (Hc : 2 ^ (- fe) <= m2).
    { unfold m2, result_mantissa. fold e' fe.
      apply round_div_ge.
      - apply Z.mul_pos_pos; [lia|apply Z.pow_pos_nonneg; lia].
      - rewrite (Z.mul_comm (Zpos my)), Z.mul_assoc, <- Z.pow_add_r by lia.
        replace (- fe + (fe - e')) with (- e') by lia.
        rewrite Z.mul_comm. unfold numerator. fold e'.
        replace (ex - ey - e') with (ex - ey + - e') by lia.
        apply scaled_le_shift; first [lia|exact Hle]. }
    assert (E : 2 ^ 1074 = 2 ^ (- fe) * 2 ^ (fe + 1074)).
    { rewrite <- Z.pow_add_r by lia. f_equal. lia. }
    rewrite E. apply Z.mul_le_mono_nonneg_r; [apply Z.pow_nonneg; lia|exact Hc].
Qed.

(** Before the end, time over duration is below 1. *)
Lemma SFdiv_below_one mx ex my ey :
  bounded prec emax mx ex = true -> bounded prec emax my ey = true ->
  scaled mx ex < scaled my ey ->
  SFltb (SFdiv prec emax (S754_finite false mx ex) (S754_finite false my ey))
    (S754_finite false 4503599627370496 (-52)) = true.
Proof.
  intros Hx Hy Hlt.
  destruct (bounded_range mx ex Hx) as [_ Hex].
  destruct (bounded_range my ey Hy) as [_ Hey].
  pose proof (float_gap mx ex my ey Hx Hy Hlt) as Hgap.
  pose proof (quotient_exp_le mx ex my ey) as Hes.
  (* the quotient is taken at an exponent of -53 or less *)
  assert (He53 : quotient_exp mx ex my ey <= -53).
  { unfold quotient_exp. rewrite fexp_eq.
    pose proof (scaled_pos mx ex ltac:(lia)) as Hpx.
    pose proof (Z.log2_le_mono _ _ (Z.lt_le_incl _ _ Hlt)) as Hl.
    pose proof (scaled_log2 mx ex ltac:(lia)) as E1.
    pose proof (scaled_log2 my ey ltac:(lia)) as E2.
    lia. }
  destruct (SFdiv_value mx ex my ey) as ((He' & Hfe & Hm0 & Hnorm) & _ & HR).
  cbv zeta in He', Hfe, Hm0, Hnorm, HR.
  set (e' := quotient_exp mx ex my ey) in *.
  (* its whole part is below 2^-e', so the result is rounded at -53
     or less as well *)
  assert (HA : numerator mx ex my ey < Zpos my * 2 ^ (- e')).
  { unfold numerator. fold e'.
    replace (ex - ey - e') with (ex - ey + - e') by lia.
    apply scaled_lt_shift; first [lia|exact Hlt]. }
  assert (HA0 : 0 <= numerator mx ex my ey).
  { unfold numerator. apply Z.mul_nonneg_nonneg; [lia|apply Z.pow_nonneg; lia]. }
  assert (Hf53 : result_exp mx ex my ey <= -53).
  { unfold result_exp. fold e'. rewrite fexp_eq.
    set (M := numerator mx ex my ey / Zpos my).
    assert (HM : M < 2 ^ (- e')).
    { apply Z.div_lt_upper_bound; [lia|]. exact HA. }
    assert (HM0 : 0 <= M) by (apply Z.div_pos; lia).
    destruct (Z.eq_dec M 0) as [E0|E0]; [rewrite E0; cbn [Zdigits2]; lia|].
    rewrite Zdigits2_log2 by lia.
    apply Z.log2_lt_pow2 in HM; lia. }
  set (fe := result_exp mx ex my ey) in *.
  set (m2 := result_mantissa mx ex my ey) in *.
  destruct HR as [[_ [Hbig _]]|[HR Hv]]; [lia|].
  (* the rounded mantissa is at most (2^53 - 1) * 2^(-53 - fe) *)
  assert (Hc : m2 <= (2 ^ 53 - 1) * 2 ^ (- 53 - fe)).
  { unfold m2, result_mantissa. fold e' fe.
    apply round_div_le.
    - apply Z.mul_pos_pos; [lia|apply Z.pow_pos_nonneg; lia].
    - rewrite (Z.mul_comm (Zpos my)), !Z.mul_assoc, <- (Z.mul_assoc (2 ^ 53 - 1)),
        <- Z.pow_add_r by lia.
      replace (- 53 - fe + (fe - e')) with (- e' - 53) by lia.
      (* 2^53 * numerator <= (2^53 - 1) * m_y * 2^-e' *)
      assert (Hk : 0 <= - e' - 53) by lia.
      assert (E : 2 ^ (- e') = 2 ^ 53 * 2 ^ (- e' - 53)).
      { rewrite <- Z.pow_add_r by lia. f_equal. lia. }
      assert (Hg : 2 ^ 53 * numerator mx ex my ey
                   <= (2 ^ 53 - 1) * (Zpos my * 2 ^ (- e'))).
      { unfold numerator. fold e'. unfold scaled in Hgap.
        assert (Hpa : 0 < 2 ^ (ey + 1074)) by (apply Z.pow_pos_nonneg; lia).
        assert (E1 : 2 ^ (ex - ey - e') * 2 ^ (ey + 1074)
                     = 2 ^ (ex + 1074) * 2 ^ (- e')).
        { rewrite <- !Z.pow_add_r by lia. f_equal. lia. }
        assert (Hpk : 0 < 2 ^ (- e')) by (apply Z.pow_pos_nonneg; lia).
        change (2 ^ 53) with 9007199254740992 in *.
        set (a := 2 ^ (ey + 1074)) in *. set (b := 2 ^ (ex + 1074)) in *.
        set (K := 2 ^ (- e')) in *. set (S := 2 ^ (ex - ey - e')) in *.
        clearbody a b K S.
        apply (Z.mul_le_mono_pos_r _ _ a Hpa).
        replace (9007199254740992 * (Zpos mx * S) * a)
          with (9007199254740992 * (Zpos mx * b) * K)
          by (rewrite <- !Z.mul_assoc, E1; ring).
        replace ((9007199254740992 - 1) * (Zpos my * K) * a)
          with ((9007199254740992 - 1) * (Zpos my * a) * K) by ring.
        apply Z.mul_le_mono_nonneg_r; lia. }
      rewrite E in Hg.
      assert (Hp53 : 0 < 2 ^ (- e' - 53)) by (apply Z.pow_pos_nonneg; lia).
      change (2 ^ 53) with 9007199254740992 in *.
      set (W := 2 ^ (- e' - 53)) in *. clearbody W. nia. }
  unfold SFltb.
  rewrite (SFcompare_nonneg _ (S754_finite false 4503599627370496 (-52)) HR eq_refl).
  cbn [val]. rewrite SF_one_scaled, Hv.
  assert (H : m2 * 2 ^ (fe + 1074) < 2 ^ 1074).
  { assert (E : 2 ^ 1074 = 2 ^ 53 * 2 ^ (- 53 - fe) * 2 ^ (fe + 1074)).
    { rewrite <- !Z.pow_add_r by lia. f_equal. lia. }
    rewrite E.
    assert (Hpf : 0 < 2 ^ (fe + 1074)) by (apply Z.pow_pos_nonneg; lia).
    assert (Hpg : 0 < 2 ^ (- 53 - fe)) by (apply Z.pow_pos_nonneg; lia).
    apply Z.mul_lt_mono_pos_r; [exact Hpf|].
    change (2 ^ 53) with 9007199254740992 in *.
    set (G := 2 ^ (- 53 - fe)) in *. clearbody G. nia. }
  apply Z.compare_lt_iff in H. rewrite H. reflexivity.
Qed.

(** A time at or past the end of a duration that is a positive number:
    the quotient is at least 1 (or infinity). *)
Lemma quotient_from_the_end t d :
  (0 <? d)%float = true -> (d <? infinity)%float = true ->
  (d <=? t)%float = true ->
  (1 <=? t / d)%float = true.
Proof.
  intros Hd0 Hdf Hle.
  rewrite leb_spec, div_spec, SF_1. unfold SF64div.
  rewrite ltb_spec, SF_0 in Hd0. rewrite ltb_spec, SF_infinity in Hdf.
  rewrite leb_spec in Hle.
  pose proof (Prim2SF_valid d) as Hvd. pose proof (Prim2SF_valid t) as Hvt.
  destruct (Prim2SF d) as [?|[|]| |[|] md ed]; try discriminate.
  cbn [valid_binary] in Hvd.
  destruct (Prim2SF t) as [?|[|]| |[|] mt et]; try discriminate; [reflexivity|].
  cbn [valid_binary] in Hvt.
  apply SFdiv_at_least_one; try assumption.
  unfold SFleb in Hle.
  rewrite (SFcompare_nonneg (S754_finite false md ed) (S754_finite false mt et) Hvd Hvt)
    in Hle.
  cbn [val] in Hle.
  destruct (Z.compare_spec (scaled md ed) (scaled mt et)); try discriminate; lia.
Qed.

(** A time before the end that is not negative: the quotient is below
    1. *)
Lemma quotient_before_the_end t d :
  (0 <=? t)%float = true -> (t <? d)%float = true ->
  (t / d <? 1)%float = true /\ (1 <=? t / d)%float = false.
Proof.
  intros Ht0 Hlt.
  assert (H : SFltb (Prim2SF (t / d)%float) (Prim2SF 1) = true).
  { rewrite div_spec, SF_1. unfold SF64div.
    rewrite leb_spec, SF_0 in Ht0. rewrite ltb_spec in Hlt.
    pose proof (Prim2SF_valid d) as Hvd. pose proof (Prim2SF_valid t) as Hvt.
    destruct (Prim2SF t) as [?|[|]| |[|] mt et]; try discriminate;
      destruct (Prim2SF d) as [?|[|]| |[|] md ed]; try discriminate; try reflexivity.
    cbn [valid_binary] in Hvd, Hvt.
    apply SFdiv_below_one; try assumption.
    unfold SFltb in Hlt.
    rewrite (SFcompare_nonneg (S754_finite false mt et) (S754_finite false md ed) Hvt Hvd)
      in Hlt.
    cbn [val] in Hlt.
    destruct (Z.compare_spec (scaled mt et) (scaled md ed)); try discriminate; lia. }
  split; [rewrite ltb_spec; exact H|].
  rewrite leb_spec. unfold SFltb in H. unfold SFleb.
  rewrite (SFcompare_antisym (Prim2SF (t / d)%float) (Prim2SF 1)).
  destruct (SFcompare (Prim2SF (t / d)%float) (Prim2SF 1)) as [[| |]|];
    try discriminate; reflexivity.
Qed.

(** Time over duration grows with the time: the value of the rounded
    quotient, before the overflow to infinity is looked at. *)
Lemma quotient_value_mono m1 e1 m2 e2 md ed :
  bounded prec emax m1 e1 = true -> bounded prec emax m2 e2 = true ->
  bounded prec emax md ed = true ->
  scaled m1 e1 <= scaled m2 e2 ->
  result_mantissa m1 e1 md ed * 2 ^ (result_exp m1 e1 md ed + 1074)
  <= result_mantissa m2 e2 md ed * 2 ^ (result_exp m2 e2 md ed + 1074).
Proof.
  intros H1 H2 Hd Hle.
  destruct (bounded_range m1 e1 H1) as [_ He1].
  destruct (bounded_range m2 e2 H2) as [_ He2].
  destruct (bounded_range md ed Hd) as [_ Hed].
  destruct (SFdiv_value m1 e1 md ed) as ((Hq1 & Hf1 & Hr1 & Hn1) & (Hu1 & Hl1) & _).
  destruct (SFdiv_value m2 e2 md ed) as ((Hq2 & Hf2 & Hr2 & Hn2) & (Hu2 & Hl2) & _).
  cbv zeta in Hq1, Hf1, Hr1, Hn1, Hu1, Hl1, Hq2, Hf2, Hr2, Hn2, Hu2, Hl2.
  pose proof (quotient_exp_le m1 e1 md ed) as Hs1.
  pose proof (quotient_exp_le m2 e2 md ed) as Hs2.
  unfold result_mantissa.
  set (x1 := quotient_exp m1 e1 md ed) in *. set (x2 := quotient_exp m2 e2 md ed) in *.
  set (f1 := result_exp m1 e1 md ed) in *. set (f2 := result_exp m2 e2 md ed) in *.
  set (c := Z.min x1 x2).
  (* both numerators at one exponent, [c] *)
  assert (EN1 : numerator m1 e1 md ed * 2 ^ (x1 - c) = Zpos m1 * 2 ^ (e1 - ed - c)).
  { unfold numerator. fold x1. rewrite <- Z.mul_assoc, <- Z.pow_add_r by (unfold c; lia).
    f_equal. f_equal. lia. }
  assert (EN2 : numerator m2 e2 md ed * 2 ^ (x2 - c) = Zpos m2 * 2 ^ (e2 - ed - c)).
  { unfold numerator. fold x2. rewrite <- Z.mul_assoc, <- Z.pow_add_r by (unfold c; lia).
    f_equal. f_equal. lia. }
  assert (HN : Zpos m1 * 2 ^ (e1 - ed - c) <= Zpos m2 * 2 ^ (e2 - ed - c)).
  { replace (e2 - ed - c) with (e2 - e1 + (e1 - ed - c)) by lia.
    apply scaled_le_shift; first [unfold c; lia|exact Hle]. }
  set (A1 := numerator m1 e1 md ed) in *. set (A2 := numerator m2 e2 md ed) in *.
  set (N1 := Zpos m1 * 2 ^ (e1 - ed - c)) in *.
  set (N2 := Zpos m2 * 2 ^ (e2 - ed - c)) in *.
  assert (Hk1 : 0 < 2 ^ (x1 - c)) by (apply Z.pow_pos_nonneg; unfold c; lia).
  assert (Hk2 : 0 < 2 ^ (x2 - c)) by (apply Z.pow_pos_nonneg; unfold c; lia).
  assert (EB1 : Zpos md * 2 ^ (f1 - x1) * 2 ^ (x1 - c) = Zpos md * 2 ^ (f1 - c)).
  { rewrite <- Z.mul_assoc, <- Z.pow_add_r by (unfold c; lia). f_equal. f_equal. lia. }
  assert (EB2 : Zpos md * 2 ^ (f2 - x2) * 2 ^ (x2 - c) = Zpos md * 2 ^ (f2 - c)).
  { rewrite <- Z.mul_assoc, <- Z.pow_add_r by (unfold c; lia). f_equal. f_equal. lia. }
  assert (Hpf1 : 0 < 2 ^ (f1 - c)) by (apply Z.pow_pos_nonneg; unfold c; lia).
  assert (Hpf2 : 0 < 2 ^ (f2 - c)) by (apply Z.pow_pos_nonneg; unfold c; lia).
  (* the exponent of the result grows with the time *)
  assert (Hff : f1 <= f2).
  { destruct (Z.le_gt_cases f1 f2) as [H|H]; [exact H|]. exfalso.
    specialize (Hl1 ltac:(lia)).
    assert (G1 : 2 ^ 52 * (Zpos md * 2 ^ (f1 - c)) <= N1).
    { rewrite <- EB1, <- EN1, Z.mul_assoc. apply Z.mul_le_mono_nonneg_r; lia. }
    assert (G2 : N2 < 2 ^ 53 * (Zpos md * 2 ^ (f2 - c))).
    { rewrite <- EB2, <- EN2, Z.mul_assoc. apply Z.mul_lt_mono_pos_r; lia. }
    assert (E : 2 ^ (f1 - c) = 2 ^ (f1 - f2) * 2 ^ (f2 - c)).
    { rewrite <- Z.pow_add_r by (unfold c; lia). f_equal. lia. }
    assert (Hp : 2 <= 2 ^ (f1 - f2)).
    { change 2 with (2 ^ 1) at 1. apply Z.pow_le_mono_r; lia. }
    rewrite E in G1.
    assert (HX : 2 * (Zpos md * 2 ^ (f2 - c))
                 <= Zpos md * (2 ^ (f1 - f2) * 2 ^ (f2 - c))).
    { replace (Zpos md * (2 ^ (f1 - f2) * 2 ^ (f2 - c)))
        with (2 ^ (f1 - f2) * (Zpos md * 2 ^ (f2 - c))) by ring.
      apply Z.mul_le_mono_nonneg_r; [|exact Hp].
      apply Z.mul_nonneg_nonneg; lia. }
    change (2 ^ 52) with 4503599627370496 in *.
    change (2 ^ 53) with 9007199254740992 in *.
    set (X := Zpos md * 2 ^ (f2 - c)) in *.
    set (Y := Zpos md * (2 ^ (f1 - f2) * 2 ^ (f2 - c))) in *.
    clearbody X Y N1 N2. lia. }
  destruct (Z.eq_dec f1 f2) as [Ef|Ef].
  - (* the same exponent: the mantissas are rounded from one scale *)
    fold A1 A2. fold x1 x2. rewrite <- Ef in EB2 |- *.
    apply Z.mul_le_mono_nonneg_r; [apply Z.pow_nonneg; lia|].
    rewrite <- (round_div_scale A1 _ (2 ^ (x1 - c))) by lia.
    rewrite <- (round_div_scale A2 _ (2 ^ (x2 - c))) by lia.
    rewrite EN1, EN2, EB1, EB2.
    apply round_div_mono; [lia|exact HN].
  - (* a higher exponent: a full mantissa there is above any here *)
    specialize (Hn2 ltac:(lia)).
    fold A1 A2. fold x1 x2.
    fold (result_mantissa m1 e1 md ed) in *.
    assert (E : 2 ^ (f2 + 1074) = 2 ^ (f2 - f1) * 2 ^ (f1 + 1074)).
    { rewrite <- Z.pow_add_r by lia. f_equal. lia. }
    assert (Hp : 2 <= 2 ^ (f2 - f1)).
    { change 2 with (2 ^ 1) at 1. apply Z.pow_le_mono_r; lia. }
    assert (Hpa : 0 < 2 ^ (f1 + 1074)) by (apply Z.pow_pos_nonneg; lia).
    rewrite E.
    unfold result_mantissa in Hr1, Hn2. fold x1 x2 f1 f2 A1 A2 in Hr1, Hn2.
    set (r1 := round_div A1 (Zpos md * 2 ^ (f1 - x1))) in *.
    set (r2 := round_div A2 (Zpos md * 2 ^ (f2 - x2))) in *.
    apply Z.le_trans with (2 ^ 53 * 2 ^ (f1 + 1074)).
    { apply Z.mul_le_mono_nonneg_r; lia. }
    rewrite Z.mul_assoc. apply Z.mul_le_mono_nonneg_r; [lia|].
    apply Z.le_trans with (2 ^ 52 * 2).
    { reflexivity. }
    apply Z.mul_le_mono_nonneg; lia.
Qed.

(** Time over a duration that is a positive number grows with the
    time. *)
Lemma quotient_grows t t' d :
  (0 <? d)%float = true -> (d <? infinity)%float = true ->
  (0 <=? t)%float = true -> (t <=? t')%float = true ->
  (t / d <=? t' / d)%float = true.
Proof.
  intros Hd0 Hdf Ht0 Hle.
  rewrite leb_spec, !div_spec. unfold SF64div.
  rewrite ltb_spec, SF_0 in Hd0. rewrite ltb_spec, SF_infinity in Hdf.
  rewrite leb_spec, SF_0 in Ht0. rewrite leb_spec in Hle.
  pose proof (Prim2SF_valid d) as Hvd.
  pose proof (Prim2SF_valid t) as Hvt. pose proof (Prim2SF_valid t') as Hvt'.
  destruct (Prim2SF d) as [?|[|]| |[|] md ed]; try discriminate.
  cbn [valid_binary] in Hvd.
  assert (Hval : forall m e, bounded prec emax m e = true ->
            let R := SFdiv prec emax (S754_finite false m e) (S754_finite false md ed) in
            fin_nonneg R = true \/ R = S754_infinity false).
  { intros m e Hb R.
    destruct (SFdiv_value m e md ed) as (_ & _ & [[HR _]|[HR _]]); auto. }
  destruct (Prim2SF t) as [s|[|]| |[|] m e]; try discriminate;
    destruct (Prim2SF t') as [s'|[|]| |[|] m' e']; try discriminate;
    cbn [valid_binary] in Hvt, Hvt'; try reflexivity.
  - (* from time 0 *)
    pose proof (Hval m' e' Hvt') as H. cbv zeta in H.
    set (R' := SFdiv prec emax (S754_finite false m' e') (S754_finite false md ed)) in *.
    cbn [SFdiv xorb].
    destruct H as [H|H]; [|rewrite H; reflexivity].
    apply leb_of_val; [reflexivity|exact H|].
    destruct (fin_nonneg_val _ H) as [[H0 _] _]. exact H0.
  - (* up to an unbounded time *)
    pose proof (Hval m e Hvt) as H. cbv zeta in H.
    set (R := SFdiv prec emax (S754_finite false m e) (S754_finite false md ed)) in *.
    cbn [SFdiv xorb].
    destruct H as [H|H]; [apply leb_infinity, H|rewrite H; reflexivity].
  - (* two positive times *)
    assert (Hs : scaled m e <= scaled m' e').
    { unfold SFleb in Hle.
      rewrite (SFcompare_nonneg (S754_finite false m e) (S754_finite false m' e') Hvt Hvt')
        in Hle.
      cbn [val] in Hle.
      destruct (Z.compare_spec (scaled m e) (scaled m' e')); try discriminate; lia. }
    pose proof (quotient_value_mono m e m' e' md ed Hvt Hvt' Hvd Hs) as Hmono.
    destruct (SFdiv_value m' e' md ed) as (_ & _ & [(HR' & _)|(HR' & Hv')]).
    + rewrite HR'. destruct (Hval m e Hvt) as [H|H]; [apply leb_infinity, H|].
      cbv zeta in H. rewrite H. reflexivity.
    + destruct (SFdiv_value m e md ed) as (_ & _ & [(_ & _ & Hov)|(HR & Hv)]).
      * exfalso. destruct (fin_nonneg_val _ HR') as [[_ Hlt] _]. lia.
      * apply leb_of_val; try assumption. lia.
Qed.

(** The cap of [getPercent] keeps the order. *)
Lemma cap_grows q q' :
  (q <=? q')%float = true ->
  ((if (1 <=? q)%float then 1%float else q)
   <=? (if (1 <=? q')%float then 1%float else q'))%float = true.
Proof.
  intros Hle.
  pose proof Hle as H. rewrite leb_spec in H.
  pose proof (Prim2SF_valid q) as Hvq. pose proof (Prim2SF_valid q') as Hvq'.
  destruct (1 <=? q)%float eqn:H1; destruct (1 <=? q')%float eqn:H1'.
  - reflexivity.
  - (* 1 <= q <= q' *)
    exfalso. rewrite leb_spec, SF_1 in H1, H1'.
    assert (Hone : fin_nonneg (S754_finite false 4503599627370496 (-52)) = true)
      by reflexivity.
    assert (Hp : 0 < val (S754_finite false 4503599627370496 (-52))).
    { cbn [val]. rewrite SF_one_scaled. apply Z.pow_pos_nonneg; lia. }
    destruct (leb_true_cases _ _ Hone Hp Hvq H1) as [Eq|[Hq Hvle]].
    + rewrite Eq in H.
      destruct (Prim2SF q') as [?|[|]| |[|] ? ?]; discriminate.
    + destruct (leb_true_cases _ _ Hq ltac:(lia) Hvq' H) as [Eq'|[Hq' Hvle']].
      * rewrite Eq' in H1'. discriminate H1'.
      * rewrite (leb_of_val _ _ Hone Hq' ltac:(lia)) in H1'. discriminate H1'.
  - (* q < 1 *)
    rewrite leb_spec in H1 |- *. unfold SFleb in H1 |- *.
    rewrite (SFcompare_antisym (Prim2SF 1) (Prim2SF q)).
    destruct (SFcompare (Prim2SF 1) (Prim2SF q)) as [[| |]|] eqn:Ec;
      try discriminate; try reflexivity.
    exfalso. unfold SFleb in H.
    destruct (Prim2SF q) as [?|[|]| |[|] ? ?]; try discriminate.
  - exact Hle.
Qed.

End FloatFacts.

Local Open Scope float_scope.
Local Open Scope method_scope.

(** ** Properties of the seek bar *)

Lemma seeksOf_app (cs ds : list Player.call) :
  Player.seeksOf (cs ++ ds) = Player.seeksOf cs ++ Player.seeksOf ds.
Proof.
  induction cs as [|c cs IH]; [reflexivity|].
  destruct c; cbn [Player.seeksOf app]; rewrite IH; reflexivity.
Qed.

Section Properties.

Variable Event : Type.
Variable calculateDistance : Event -> float.
Variable Slider_update : SeekBar -> float.
Variable formatTime : float -> float -> string.
Variable toFixed : float -> nat -> string.

(** C8: the time that [getPercent] divides by the duration and the time
    that [update] formats into [aria-valuetext] are both the cached
    current time while the player is scrubbing and the live
    [currentTime()] otherwise, the spec's [currentDisplayTime()]. *)
Theorem display_time_is_cache_while_scrubbing (this : SeekBar) :
  let p := player_ this in
  let time := if Player.scrubbing p then Player.getCache_currentTime p
              else Player.currentTime p in
  let percent := time / Player.duration p in
  eval getPercent this = (if 1 <=? percent then 1 else percent) /\
  aria_valuetext (exec (update Slider_update formatTime toFixed) this)
  = Some (formatTime time (Player.duration p)) /\
  time = currentDisplayTime p.
Proof.
  destruct this as [p w n t b]. cbn [player_].
  unfold eval, exec, getPercent, update, bind, get, ret, setAttributes,
    bar_update, currentDisplayTime.
  cbn [player_ fst snd].
  destruct (Player.scrubbing p); cbn [player_ fst snd aria_valuetext]; auto.
Qed.

(** C6: a mouse down immediately followed by a mouse up, with no drag
    between them, leaves [paused()] as it was before the mouse down and
    leaves [scrubbing()] false. *)
Theorem begin_end_restores_paused (down up : Event) (this : SeekBar) :
  let this' := exec (handleMouseDown Event down ;; handleMouseUp Event up) this in
  Player.paused (player_ this') = Player.paused (player_ this) /\
  Player.scrubbing (player_ this') = false.
Proof.
  destruct this as [[tm len sc pa ca cs] w n t b].
  destruct pa; split; reflexivity.
Qed.

(** The one call of a drag. *)
Lemma handleMouseMove_seeks (event : Event) (this : SeekBar) :
  let d := Player.duration (player_ this) in
  let newTime := calculateDistance event * d in
  Player.seeks (player_ (exec (handleMouseMove Event calculateDistance event) this))
  = Player.seeks (player_ this)
      ++ [if newTime =? d then newTime - 0.1 else newTime].
Proof.
  destruct this as [[tm len sc pa ca cs] w n t b].
  unfold Player.seeks. cbn. rewrite seeksOf_app. reflexivity.
Qed.

(** C5: a drag seeks to ratio * duration(), except that 0.1 is taken
    off first when that product equals duration(); a ratio of 1 on a
    duration of 100 seeks to 99.9. *)
Theorem drag_seeks_to_ratio_of_duration (event : Event) (this : SeekBar) :
  let d := Player.duration (player_ this) in
  let newTime := calculateDistance event * d in
  let this' := exec (handleMouseMove Event calculateDistance event) this in
  Player.seeks (player_ this')
  = Player.seeks (player_ this)
      ++ [if newTime =? d then newTime - 0.1 else newTime] /\
  (calculateDistance event = 1 -> d = 100 ->
   Player.seeks (player_ this') = Player.seeks (player_ this) ++ [99.9]).
Proof.
  intros d newTime this'. subst this'.
  pose proof (handleMouseMove_seeks event this) as E. cbv zeta in E.
  fold d in E. fold newTime in E.
  split; [exact E|].
  intros Hr Hd. rewrite E. subst newTime. rewrite Hr, Hd. reflexivity.
Qed.

(** C10: when duration() is 0, every drag whose ratio lies in [0, 1]
    seeks to -0.1: ratio * 0 equals the duration, so the 0.1 meant to
    keep the video from ending is taken off a zero target. *)
Theorem drag_on_zero_duration_seeks_below_zero (event : Event) (this : SeekBar) :
  (Player.duration (player_ this) =? 0) = true ->
  (0 <=? calculateDistance event) = true ->
  (calculateDistance event <=? 1) = true ->
  Player.seeks (player_ (exec (handleMouseMove Event calculateDistance event) this))
  = Player.seeks (player_ this) ++ [-0.1].
Proof.
  intros Hd H0 H1.
  rewrite handleMouseMove_seeks.
  destruct (FloatFacts.drag_zero_duration _ _ Hd H0 H1) as [-> ->]. reflexivity.
Qed.


Lemma exec_bind {A B : Type} (m : M A) (k : A -> M B) (this : SeekBar) :
  exec (bind m k) this = exec (k (eval m this)) (exec m this).
Proof. unfold exec, eval, bind. destruct (m this); reflexivity. Qed.

(** No method but the mouse up clears the flag. *)
Lemma step_keeps_scrubbing (o : op Event) (this : SeekBar) :
  isMouseUp o = false ->
  Player.scrubbing (player_ this) = true ->
  Player.scrubbing
    (player_ (exec (step Event calculateDistance Slider_update formatTime toFixed o) this))
  = true.
Proof.
  intros Ho Hs. destruct this as [[tm len sc pa ca cs] w n t b].
  cbn in Hs. subst sc.
  destruct o; try discriminate; reflexivity.
Qed.

Lemma steps_keep_scrubbing (os : list (op Event)) :
  forallb (fun o => negb (isMouseUp o)) os = true ->
  forall this, Player.scrubbing (player_ this) = true ->
  Player.scrubbing
    (player_ (exec (steps Event calculateDistance Slider_update formatTime toFixed os) this))
  = true.
Proof.
  induction os as [|o os IH]; intros Hos this Hs; [exact Hs|].
  cbn [forallb] in Hos. apply andb_true_iff in Hos. destruct Hos as [Ho Hos].
  cbn [steps]. rewrite exec_bind. apply IH; [exact Hos|].
  apply step_keeps_scrubbing; [|exact Hs].
  destruct (isMouseUp o); [discriminate|reflexivity].
Qed.

(** C7: from a mouse down until the next mouse up the player is
    scrubbing: the mouse down sets the flag, every state reached from
    it through handlers other than the mouse up (drags, display
    updates, percent reads, keyboard steps, further mouse downs) has it
    set, a handler that clears it can only be the mouse up, and the
    mouse up does clear it. *)
Theorem scrubbing_from_mouse_down_to_mouse_up :
  (forall (down : Event) (os : list (op Event)) (this : SeekBar),
      forallb (fun o => negb (isMouseUp o)) os = true ->
      Player.scrubbing
        (player_ (exec (steps Event calculateDistance Slider_update formatTime
                          toFixed (MouseDown down :: os)) this)) = true) /\
  (forall (o : op Event) (this : SeekBar),
      Player.scrubbing (player_ this) = true ->
      Player.scrubbing
        (player_ (exec (step Event calculateDistance Slider_update formatTime
                          toFixed o) this)) = false ->
      isMouseUp o = true) /\
  (forall (up : Event) (this : SeekBar),
      Player.scrubbing (player_ (exec (handleMouseUp Event up) this)) = false).
Proof.
  split; [|split].
  - intros down os this Hos. cbn [steps]. rewrite exec_bind.
    apply steps_keep_scrubbing; [exact Hos|].
    destruct this as [[tm len sc pa ca cs] w n t b]. reflexivity.
  - intros o this Hs Hc. destruct (isMouseUp o) eqn:Ho; [reflexivity|].
    rewrite (step_keeps_scrubbing o this Ho Hs) in Hc. discriminate.
  - intros up this. destruct this as [[tm len sc pa ca cs] [[|]|] n t b]; reflexivity.
Qed.


(** [getPercent], as one expression. *)
Lemma getPercent_value (this : SeekBar) :
  let percent := currentDisplayTime (player_ this) / Player.duration (player_ this) in
  eval getPercent this = if 1 <=? percent then 1 else percent.
Proof.
  destruct this as [[tm len sc pa ca cs] w n t b]. destruct sc; reflexivity.
Qed.

(** C3, as the code has it: for every display time t that is a number
    and not negative and every duration d > 0, [getPercent] returns
    clamp(t/d, 0, 1), a value of the closed interval [0, 1].  The code
    caps the quotient at 1 and has no lower bound of its own: the
    result is not below 0 because t is not. *)
Theorem getPercent_clamps_nonnegative_time (this : SeekBar) :
  let t := currentDisplayTime (player_ this) in
  let d := Player.duration (player_ this) in
  (0 <=? t) = true -> (t <? infinity) = true -> (0 <? d) = true ->
  eval getPercent this = clamp (t / d) 0 1 /\
  (0 <=? eval getPercent this) = true /\
  (eval getPercent this <=? 1) = true.
Proof.
  intros t d H0 Hf Hd. rewrite getPercent_value. cbv zeta. fold t d.
  destruct (FloatFacts.cap_unit (t / d) (FloatFacts.div_sign_nonneg t d H0 Hf Hd))
    as (Hlo & Hhi & Hc).
  auto.
Qed.


(** C2, as the code has it: the handlers keep no record of whether a
    session is active.  Every mouse up calls scrubbing(false) and, as
    long as [videoWasPlaying] is true (nothing clears it), play(): a
    second mouse up in succession leaves scrubbing(), paused(), the
    clock and [videoWasPlaying] as the first left them, yet calls
    play() once more.  [videoWasPlaying] is what the last mouse down
    recorded, !paused(): a mouse down during a session keeps the player
    scrubbing and paused and overwrites the record with false. *)
Theorem mouse_up_and_down_have_no_session_guard
    (up up' down down' : Event) (this : SeekBar) :
  let wasPlaying := match videoWasPlaying this with Some b => b | None => false end in
  let issued := Player.Scrubbing false :: if wasPlaying then [Player.Play] else [] in
  let once := exec (handleMouseUp Event up) this in
  let twice := exec (handleMouseUp Event up') once in
  let begun := exec (handleMouseDown Event down) this in
  let again := exec (handleMouseDown Event down') begun in
  (Player.calls (player_ once) = Player.calls (player_ this) ++ issued /\
   Player.calls (player_ twice) = Player.calls (player_ once) ++ issued /\
   Player.plays (player_ twice)
   = (Player.plays (player_ this) + if wasPlaying then 2 else 0)%nat) /\
  (Player.scrubbing (player_ twice) = Player.scrubbing (player_ once) /\
   Player.paused (player_ twice) = Player.paused (player_ once) /\
   Player.currentTime (player_ twice) = Player.currentTime (player_ once) /\
   videoWasPlaying twice = videoWasPlaying once) /\
  (videoWasPlaying begun = Some (negb (Player.paused (player_ this))) /\
   Player.scrubbing (player_ again) = true /\
   Player.paused (player_ again) = true /\
   videoWasPlaying again = Some false).
Proof.
  destruct this as [[tm len sc pa ca cs] [[|]|] n t b]; cbv zeta;
    (split; [|split]); try (repeat split; reflexivity).
  all: unfold exec, handleMouseUp, Slider_handleMouseUp, bind, ret, call,
         get_videoWasPlaying, Player.play, Player.setScrubbing, Player.record,
         Player.plays;
       cbn [player_ videoWasPlaying fst snd Player.calls];
       rewrite <- ?app_assoc; cbn [app];
       rewrite ?filter_app, ?length_app;
       cbn [filter Player.call_eqb Datatypes.length];
       repeat split; lia.
Qed.

End Properties.

Section ThrottledUpdate.

Variable Slider_update : SeekBar -> float.
Variable formatTime : float -> float -> string.
Variable toFixed : float -> nat -> string.
Variable clock : Z -> Player.t.

Local Open Scope Z_scope.








End ThrottledUpdate.

(** ** The theorems at concrete players *)


(** A drag to the end of the track of a 100-second video. *)
Lemma drag_seeks_to_ratio_of_duration_witness :
  let this := exampleSeekBar (examplePlayer 0 100 true) in
  (1 = 1 /\ Player.duration (player_ this) = 100) /\
  Player.seeks (player_ (exec (handleMouseMove float (fun ratio => ratio) 1) this))
  = Player.seeks (player_ this) ++ [99.9].
Proof.
  cbv zeta. split; [split; reflexivity|].
  apply (proj2 (drag_seeks_to_ratio_of_duration float (fun ratio => ratio) 1
                  (exampleSeekBar (examplePlayer 0 100 true)))); reflexivity.
Defined.

(** A drag to the middle of the track before the duration is known. *)
Lemma drag_on_zero_duration_witness :
  let this := exampleSeekBar (examplePlayer 0 0 true) in
  ((Player.duration (player_ this) =? 0) = true /\
   (0 <=? 0.5) = true /\ (0.5 <=? 1) = true) /\
  Player.seeks (player_ (exec (handleMouseMove float (fun ratio => ratio) 0.5) this))
  = Player.seeks (player_ this) ++ [-0.1].
Proof.
  cbv zeta. split; [repeat split; reflexivity|].
  apply (drag_on_zero_duration_seeks_below_zero float (fun ratio => ratio) 0.5
           (exampleSeekBar (examplePlayer 0 0 true))); reflexivity.
Defined.

(** A session with drags, an update and a keyboard step in it. *)
Lemma scrubbing_from_mouse_down_witness :
  let os := [MouseMove 0.5; Update; StepForward; MouseMove 1; GetPercent] in
  forallb (fun o => negb (isMouseUp o)) os = true /\
  Player.scrubbing
    (player_ (exec (steps float (fun ratio => ratio) plainSliderUpdate emptyFormatTime
                      emptyToFixed (MouseDown 0.25 :: os))
                (exampleSeekBar (examplePlayer 30 120 false)))) = true.
Proof.
  cbv zeta. split; [reflexivity|].
  apply (proj1 (scrubbing_from_mouse_down_to_mouse_up float (fun ratio => ratio)
                  plainSliderUpdate emptyFormatTime emptyToFixed)).
  reflexivity.
Defined.


(** 30 seconds of 120. *)
Lemma getPercent_clamps_witness :
  let this := exampleSeekBar (examplePlayer 30 120 false) in
  ((0 <=? 30) = true /\ (30 <? infinity) = true /\ (0 <? 120) = true) /\
  eval getPercent this = clamp (30 / 120) 0 1 /\
  (0 <=? eval getPercent this) = true /\
  (eval getPercent this <=? 1) = true.
Proof.
  cbv zeta. split; [repeat split; reflexivity|].
  apply (getPercent_clamps_nonnegative_time
           (exampleSeekBar (examplePlayer 30 120 false))); reflexivity.
Defined.



(** ** Where a guard that the spec describes is missing *)


(** C3 fails: a time of -1 over a duration of 2 gives -0.5, where the
    clamp gives 0; and an infinite time over an infinite duration gives
    [NaN], which is no member of [0, 1]. *)
Lemma getPercent_negative_time_counterexample :
  let this := exampleSeekBar (examplePlayer (-1) 2 false) in
  let live := exampleSeekBar (examplePlayer infinity infinity false) in
  ((0 <? Player.duration (player_ this)) = true /\
   eval getPercent this = -0.5 /\
   clamp (-1 / 2) 0 1 = 0 /\
   (0 <=? eval getPercent this) = false) /\
  ((0 <? Player.duration (player_ live)) = true /\
   (0 <=? eval getPercent live) = false /\
   (eval getPercent live <=? 1) = false).
Proof. repeat split. Qed.

(** C2 fails: after one mouse down on a playing video, two mouse ups
    call play() twice; and a second mouse down replaces the recorded
    [videoWasPlaying], true, by false. *)
Lemma redundant_transitions_counterexample :
  let this := exampleSeekBar (examplePlayer 30 120 false) in
  let begun := exec (handleMouseDown unit tt) this in
  Player.plays
    (player_ (exec (handleMouseUp unit tt ;; handleMouseUp unit tt) begun)) = 2%nat /\
  videoWasPlaying begun = Some true /\
  videoWasPlaying (exec (handleMouseDown unit tt) begun) = Some false.
Proof. repeat split. Qed.

(** ** Further properties of the seek bar *)

Section FurtherProperties.

Variable Event : Type.
Variable calculateDistance : Event -> float.
Variable Slider_update : SeekBar -> float.
Variable formatTime : float -> float -> string.
Variable toFixed : float -> nat -> string.

(** *** What the handlers ask of the player *)

(** What one handler adds to the calls the player has received. *)
Lemma step_calls (o : op Event) (this : SeekBar) :
  exists cs,
    Player.calls (player_ (exec (step Event calculateDistance Slider_update formatTime
        toFixed o) this)) = Player.calls (player_ this) ++ cs /\
    List.length (Player.seeksOf cs) = (if isSeek o then 1 else 0)%nat /\
    List.length (filter (Player.call_eqb Player.Pause) cs)
      = (if isMouseDown o then 1 else 0)%nat /\
    (List.length (filter (Player.call_eqb Player.Play) cs)
      <= (if isMouseUp o then 1 else 0))%nat /\
    List.length (filter isScrubbingCall cs)
      = (if isMouseDown o || isMouseUp o then 1 else 0)%nat.
Proof.
  destruct this as [[tm len sc pa ca cs] w n t b].
  destruct o as [e|e|e| | | |].
  - exists [Player.Scrubbing true; Player.Pause]. cbn. rewrite <- app_assoc. added_calls.
  - eexists [Player.CurrentTime _]. cbn. added_calls.
  - destruct w as [[|]|].
    + exists [Player.Scrubbing false; Player.Play]. cbn. rewrite <- app_assoc. added_calls.
    + exists [Player.Scrubbing false]. cbn. added_calls.
    + exists [Player.Scrubbing false]. cbn. added_calls.
  - exists []. destruct sc; cbn; rewrite app_nil_r; added_calls.
  - exists []. destruct sc; cbn; rewrite app_nil_r; added_calls.
  - eexists [Player.CurrentTime _]. cbn. added_calls.
  - eexists [Player.CurrentTime _]. cbn. added_calls.
Qed.

Lemma steps_calls (os : list (op Event)) : forall this : SeekBar,
  exists cs,
    Player.calls (player_ (exec (steps Event calculateDistance Slider_update formatTime
        toFixed os) this)) = Player.calls (player_ this) ++ cs /\
    List.length (Player.seeksOf cs) = List.length (filter isSeek os) /\
    List.length (filter (Player.call_eqb Player.Pause) cs)
      = List.length (filter isMouseDown os) /\
    (List.length (filter (Player.call_eqb Player.Play) cs)
      <= List.length (filter isMouseUp os))%nat /\
    List.length (filter isScrubbingCall cs)
      = (List.length (filter isMouseDown os) + List.length (filter isMouseUp os))%nat.
Proof.
  induction os as [|o os IH]; intros this.
  - exists []. cbn. rewrite app_nil_r. added_calls.
  - cbn [steps]. rewrite exec_bind.
    destruct (step_calls o this) as (c1 & E1 & S1 & P1 & L1 & C1).
    destruct (IH (exec (step Event calculateDistance Slider_update formatTime toFixed o)
        this)) as (c2 & E2 & S2 & P2 & L2 & C2).
    exists (c1 ++ c2). rewrite E2, E1, <- app_assoc.
    rewrite seeksOf_app, !filter_app, !length_app, S1, S2, P1, P2, C1, C2.
    cbn [filter].
    destruct o; cbn [isSeek isMouseDown isMouseUp orb] in *; cbn [List.length];
      repeat split; lia.
Qed.

(** Until a mouse down sets it, [videoWasPlaying] stays undefined, and
    no handler plays or pauses. *)
Lemma step_keeps_undefined (o : op Event) (this : SeekBar) :
  isMouseDown o = false -> videoWasPlaying this = None ->
  videoWasPlaying (exec (step Event calculateDistance Slider_update formatTime toFixed o)
      this) = None /\
  Player.plays (player_ (exec (step Event calculateDistance Slider_update formatTime
      toFixed o) this)) = Player.plays (player_ this) /\
  pauses (player_ (exec (step Event calculateDistance Slider_update formatTime toFixed o)
      this)) = pauses (player_ this).
Proof.
  intros Ho Hw. destruct this as [[tm len sc pa ca cs] w n t b].
  cbn in Hw. subst w. unfold Player.plays, pauses.
  destruct o; try discriminate Ho; destruct sc; cbn;
    rewrite ?filter_app, ?length_app; cbn; repeat split; lia.
Qed.

(** What a mouse down recorded stays as it is until the next mouse
    down, and a player it found paused stays paused. *)
Lemma step_keeps_record (o : op Event) (this : SeekBar) (wasPlaying : bool) :
  isMouseDown o = false ->
  videoWasPlaying this = Some wasPlaying ->
  (wasPlaying = false -> Player.paused (player_ this) = true) ->
  videoWasPlaying (exec (step Event calculateDistance Slider_update formatTime toFixed o)
      this) = Some wasPlaying /\
  (wasPlaying = false -> Player.paused (player_ (exec (step Event calculateDistance
      Slider_update formatTime toFixed o) this)) = true).
Proof.
  intros Ho Hw Hp. destruct this as [[tm len sc pa ca cs] w n t b].
  cbn in Hw, Hp. subst w.
  destruct o; try discriminate Ho; destruct sc, wasPlaying; cbn; split; auto.
Qed.

Lemma steps_keep_record (os : list (op Event)) (wasPlaying : bool) :
  forallb (fun o => negb (isMouseDown o)) os = true ->
  forall this : SeekBar,
  videoWasPlaying this = Some wasPlaying ->
  (wasPlaying = false -> Player.paused (player_ this) = true) ->
  videoWasPlaying (exec (steps Event calculateDistance Slider_update formatTime toFixed os)
      this) = Some wasPlaying /\
  (wasPlaying = false -> Player.paused (player_ (exec (steps Event calculateDistance
      Slider_update formatTime toFixed os) this)) = true).
Proof.
  induction os as [|o os IH]; intros Hos this Hw Hp; [cbn; auto|].
  cbn [forallb] in Hos. apply andb_true_iff in Hos. destruct Hos as [Ho Hos].
  apply negb_true_iff in Ho.
  destruct (step_keeps_record o this wasPlaying Ho Hw Hp) as (W1 & P1).
  cbn [steps]. rewrite exec_bind. apply IH; assumption.
Qed.

Lemma steps_app (os ps : list (op Event)) (this : SeekBar) :
  exec (steps Event calculateDistance Slider_update formatTime toFixed (os ++ ps)) this =
      exec (steps Event calculateDistance Slider_update formatTime toFixed ps) (exec (steps
      Event calculateDistance Slider_update formatTime toFixed os) this).
Proof.
  revert this. induction os as [|o os IH]; intros this; [reflexivity|].
  cbn [app steps]. rewrite !exec_bind. apply IH.
Qed.

(** [update] sets the ARIA value and the bar from one percent. *)
Lemma step_keeps_aria (o : op Event) (this : SeekBar) :
  aria_valuenow this
  = option_map (fun percent => toFixed (percent * 100) 2) (barPercent this) ->
  aria_valuenow (exec (step Event calculateDistance Slider_update formatTime toFixed o)
      this)
  = option_map (fun percent => toFixed (percent * 100) 2) (barPercent (exec (step Event
      calculateDistance Slider_update formatTime toFixed o) this)).
Proof.
  intros H. destruct this as [[tm len sc pa ca cs] w n t b].
  unfold barPercent in *. cbn [bar aria_valuenow] in H.
  destruct o; try (destruct w as [[|]|]; exact H); try (destruct sc; exact H).
  destruct sc; cbn -[last map]; rewrite map_app; cbn [map]; rewrite last_last; reflexivity.
Qed.

Lemma stepForward_seeks (this : SeekBar) :
  Player.seeks (player_ (exec stepForward this))
  = Player.seeks (player_ this) ++ [Player.currentTime (player_ this) + STEP_SECONDS].
Proof.
  destruct this as [[tm len sc pa ca cs] w n t b]. unfold Player.seeks. cbn.
  rewrite seeksOf_app. reflexivity.
Qed.

Lemma stepBack_seeks (this : SeekBar) :
  Player.seeks (player_ (exec stepBack this))
  = Player.seeks (player_ this) ++ [Player.currentTime (player_ this) - STEP_SECONDS].
Proof.
  destruct this as [[tm len sc pa ca cs] w n t b]. unfold Player.seeks. cbn.
  rewrite seeksOf_app. reflexivity.
Qed.

(** X1: whatever the time and the duration are, [getPercent] never
    returns a number above 1, and it returns [NaN] exactly when the
    quotient time / duration() is [NaN] (0/0, Infinity/Infinity, or a
    [NaN] operand): the cap [percent >= 1 ? 1 : percent] lets [NaN]
    through. *)
Theorem getPercent_is_never_above_one (this : SeekBar) :
  let quotient := currentDisplayTime (player_ this) / Player.duration (player_ this) in
  (1 <? eval getPercent this) = false /\
  is_nan (eval getPercent this) = is_nan quotient.
Proof.
  cbv zeta. rewrite getPercent_value. apply FloatFacts.cap_not_above.
Qed.

(** X2: for a duration that is a positive number, [getPercent] returns
    1 exactly from the end on: it is 1 for every display time at or
    past the duration; and for a display time t with 0 <= t before the
    duration (an unbounded duration included) it is the quotient
    t / duration(), which is below 1. *)
Theorem getPercent_is_one_from_the_end_on (this : SeekBar) :
  let t := currentDisplayTime (player_ this) in
  let d := Player.duration (player_ this) in
  ((0 <? d) = true -> (d <? infinity) = true -> (d <=? t) = true ->
   eval getPercent this = 1) /\
  ((0 <=? t) = true -> (t <? d) = true ->
   eval getPercent this = t / d /\ (eval getPercent this <? 1) = true).
Proof.
  intros t d. rewrite getPercent_value. cbv zeta. fold t d. split.
  - intros Hd0 Hdf Hle. rewrite (FloatFacts.quotient_from_the_end t d Hd0 Hdf Hle).
      reflexivity.
  - intros Ht0 Hlt. destruct (FloatFacts.quotient_before_the_end t d Ht0 Hlt) as [Hb Hn].
    rewrite Hn. split; [reflexivity|exact Hb].
Qed.

(** X3: the bar never moves back while the time moves on: over one
    duration that is a positive number, a display time that is not
    negative and a later one (Infinity included) give percents in the
    same order. *)
Theorem getPercent_grows_with_time (this later : SeekBar) :
  let d := Player.duration (player_ this) in
  let t := currentDisplayTime (player_ this) in
  let t' := currentDisplayTime (player_ later) in
  Player.duration (player_ later) = d ->
  (0 <? d) = true -> (d <? infinity) = true ->
  (0 <=? t) = true -> (t <=? t') = true ->
  (eval getPercent this <=? eval getPercent later) = true.
Proof.
  intros d t t' Ed Hd0 Hdf Ht0 Hle. rewrite !getPercent_value. cbv zeta.
  rewrite Ed. fold d t t'.
  apply FloatFacts.cap_grows, FloatFacts.quotient_grows; assumption.
Qed.


(** X5: playback is touched by the mouse down and the mouse up only:
    after any series of handlers [pause()] was called once for each
    mouse down, [play()] at most once for each mouse up, and
    [scrubbing(b)] once for each of either; drags, keyboard steps,
    [update] and [getPercent] call none of them. *)
Theorem pause_per_mouse_down_play_per_mouse_up (os : list (op Event)) (this : SeekBar) :
  let after := exec (steps Event calculateDistance Slider_update formatTime toFixed os)
      this in
  pauses (player_ after)
  = (pauses (player_ this) + List.length (filter isMouseDown os))%nat /\
  (Player.plays (player_ this) <= Player.plays (player_ after)
   <= Player.plays (player_ this) + List.length (filter isMouseUp os))%nat /\
  scrubbingCalls (player_ after)
  = (scrubbingCalls (player_ this)
     + List.length (filter isMouseDown os) + List.length (filter isMouseUp os))%nat.
Proof.
  cbv zeta. destruct (steps_calls os this) as (cs & E & _ & P & L & C).
  unfold pauses, Player.plays, scrubbingCalls.
  rewrite E, !filter_app, !length_app, P, C. lia.
Qed.

(** X6: [videoWasPlaying] is undefined until the first mouse down, and
    [if (this.videoWasPlaying)] takes undefined as false: on a seek bar
    that has seen no mouse down, no series of other handlers (mouse ups
    included) calls [play()] or [pause()], and the field stays
    undefined. *)
Theorem no_play_before_the_first_mouse_down (os : list (op Event)) :
  forallb (fun o => negb (isMouseDown o)) os = true ->
  forall this : SeekBar, videoWasPlaying this = None ->
  let after := exec (steps Event calculateDistance Slider_update formatTime toFixed os)
      this in
  videoWasPlaying after = None /\
  Player.plays (player_ after) = Player.plays (player_ this) /\
  pauses (player_ after) = pauses (player_ this).
Proof.
  induction os as [|o os IH]; intros Hos this Hw; [cbn; auto|].
  cbn [forallb] in Hos. apply andb_true_iff in Hos. destruct Hos as [Ho Hos].
  apply negb_true_iff in Ho.
  destruct (step_keeps_undefined o this Ho Hw) as (W1 & P1 & Q1).
  specialize (IH Hos _ W1). cbv zeta in IH |- *.
  cbn [steps]. rewrite exec_bind.
  destruct IH as (W2 & P2 & Q2). rewrite W2, P2, Q2, P1, Q1. auto.
Qed.

(** X7: a whole scrub session: a mouse down, then any handlers but a
    further mouse down (drags, keyboard steps, display updates, even
    mouse ups), then a mouse up.  It ends with [scrubbing(false)],
    followed by [play()] exactly when the player was not paused at the
    mouse down; the player is no longer scrubbing and is paused or
    playing as it was before the session, and [videoWasPlaying] still
    holds what the mouse down recorded. *)
Theorem scrub_session_restores_playback
    (down up : Event) (between : list (op Event)) (this : SeekBar) :
  forallb (fun o => negb (isMouseDown o)) between = true ->
  let after := exec (steps Event calculateDistance Slider_update formatTime toFixed
                       (MouseDown down :: between ++ [MouseUp up])) this in
  let wasPaused := Player.paused (player_ this) in
  Player.paused (player_ after) = wasPaused /\
  Player.scrubbing (player_ after) = false /\
  videoWasPlaying after = Some (negb wasPaused) /\
  exists earlier,
    Player.calls (player_ after)
    = earlier ++ Player.Scrubbing false :: (if wasPaused then [] else [Player.Play]).
Proof.
  intros Hb. cbv zeta.
  cbn [steps]. rewrite exec_bind, steps_app.
  set (pressed := exec (step Event calculateDistance Slider_update formatTime toFixed
      (MouseDown down)) this).
  assert (Hw : videoWasPlaying pressed = Some (negb (Player.paused (player_ this)))).
  { destruct this as [[tm len sc pa ca cs] w n t b]. reflexivity. }
  assert (Hp : Player.paused (player_ pressed) = true).
  { destruct this as [[tm len sc pa ca cs] w n t b]. reflexivity. }
  destruct (steps_keep_record between _ Hb pressed Hw (fun _ => Hp)) as [Hw' Hp'].
  set (dragged := exec (steps Event calculateDistance Slider_update formatTime toFixed
      between) pressed) in *.
  clearbody dragged. clear Hw Hp pressed.
  destruct dragged as [[tm len sc pa ca cs] w n t b].
  cbn in Hw', Hp'. subst w.
  destruct (Player.paused (player_ this)); cbn [negb] in *.
  - rewrite (Hp' eq_refl). cbn. repeat split. eexists. reflexivity.
  - cbn. repeat split. exists cs. rewrite <- app_assoc. reflexivity.
Qed.

(** X8: [update] sets aria-valuenow and the [PlayProgressBar] from one
    percent, and nothing else writes either: once aria-valuenow is
    [toFixed(2)] of 100 times the percent the bar was handed last (or
    both are still unset), it stays so through every series of
    handlers. *)
Theorem aria_value_follows_the_bar (os : list (op Event)) : forall this : SeekBar,
  aria_valuenow this
  = option_map (fun percent => toFixed (percent * 100) 2) (barPercent this) ->
  let after := exec (steps Event calculateDistance Slider_update formatTime toFixed os)
      this in
  aria_valuenow after
  = option_map (fun percent => toFixed (percent * 100) 2) (barPercent after).
Proof.
  induction os as [|o os IH]; intros this H; [exact H|].
  cbv zeta. cbn [steps]. rewrite exec_bind.
  apply IH, step_keeps_aria, H.
Qed.

(** X9: "don't let video end while scrubbing": for a duration that is
    not negative and below 2^49 seconds, no drag seeks to the duration
    itself, whatever ratio the pointer gives ([NaN] included). *)
Theorem drag_never_seeks_to_the_end (event : Event) (this : SeekBar) :
  let d := Player.duration (player_ this) in
  (0 <=? d) = true -> (d <? 0x1p49) = true ->
  exists target,
    Player.seeks (player_ (exec (handleMouseMove Event calculateDistance event) this))
    = Player.seeks (player_ this) ++ [target] /\
    (target =? d) = false.
Proof.
  intros d H0 Hlt. rewrite handleMouseMove_seeks. fold d.
  eexists. split; [reflexivity|].
  destruct (calculateDistance event * d =? d) eqn:E; [|exact E].
  apply FloatFacts.drag_guard_works; assumption.
Qed.

(** X10: from 2^53 seconds on the guard of a drag is lost in rounding:
    when ratio * duration() equals the duration, the 0.1 taken off is
    less than half a unit in the last place, [newTime - 0.1] is the
    duration again, and the drag seeks to the very end. *)
Theorem drag_guard_is_lost_in_rounding (event : Event) (this : SeekBar) :
  let d := Player.duration (player_ this) in
  (0x1p53 <=? d) = true -> (d <? infinity) = true ->
  (calculateDistance event * d =? d) = true ->
  Player.seeks (player_ (exec (handleMouseMove Event calculateDistance event) this))
  = Player.seeks (player_ this) ++ [d].
Proof.
  intros d Hge Hfin Hend. rewrite handleMouseMove_seeks. fold d. rewrite Hend.
  rewrite (FloatFacts.drag_guard_absorbed _ d Hend Hge Hfin). reflexivity.
Qed.

(** X11: a drag on a duration that is no finite number.  On a duration
    of Infinity every ratio above 0 seeks to Infinity (the product
    equals the duration, and Infinity - 0.1 is Infinity); on a [NaN]
    duration, and on Infinity at a ratio of 0, the drag seeks to
    [NaN]. *)
Theorem drag_without_a_finite_duration (event : Event) (this : SeekBar) :
  let d := Player.duration (player_ this) in
  let ratio := calculateDistance event in
  let after := exec (handleMouseMove Event calculateDistance event) this in
  (d = infinity -> (0 <? ratio) = true ->
   Player.seeks (player_ after) = Player.seeks (player_ this) ++ [infinity]) /\
  (is_nan d = true \/ (d = infinity /\ (ratio =? 0) = true) ->
   exists target,
     Player.seeks (player_ after) = Player.seeks (player_ this) ++ [target] /\
     is_nan target = true).
Proof.
  cbv zeta. rewrite handleMouseMove_seeks. split.
  - intros -> Hr. destruct (FloatFacts.drag_unbounded _ Hr) as [-> ->]. reflexivity.
  - intros H. destruct (FloatFacts.drag_undefined _ _ H) as [Hn ->].
    eexists. split; [reflexivity|exact Hn].
Qed.

(** X12: for a ratio in [0, 1] and a duration that is a number and not
    negative, a drag never seeks past the duration, and once the
    duration is 0.1 second or more it never seeks below 0. *)
Theorem drag_stays_within_the_media (event : Event) (this : SeekBar) :
  let d := Player.duration (player_ this) in
  let ratio := calculateDistance event in
  (0 <=? ratio) = true -> (ratio <=? 1) = true ->
  (0 <=? d) = true -> (d <? infinity) = true ->
  exists target,
    Player.seeks (player_ (exec (handleMouseMove Event calculateDistance event) this))
    = Player.seeks (player_ this) ++ [target] /\
    (target <=? d) = true /\
    ((0.1 <=? d) = true -> (0 <=? target) = true).
Proof.
  intros d ratio Hr0 Hr1 Hd0 Hdf. rewrite handleMouseMove_seeks. fold d ratio.
  eexists. split; [reflexivity|].
  exact (FloatFacts.drag_target_within ratio d Hr0 Hr1 Hd0 Hdf).
Qed.

(** X13: [stepBack] has no lower bound of its own: from a time t with
    0 <= t < 5 it asks the player for t - 5, a negative time. *)
Theorem stepBack_below_five_seconds_seeks_below_zero (this : SeekBar) :
  let t := Player.currentTime (player_ this) in
  (0 <=? t) = true -> (t <? STEP_SECONDS) = true ->
  Player.seeks (player_ (exec stepBack this))
  = Player.seeks (player_ this) ++ [t - STEP_SECONDS] /\
  (t - STEP_SECONDS <? 0) = true.
Proof.
  intros t H0 Hlt. split; [apply stepBack_seeks|].
  apply FloatFacts.step_back_negative; assumption.
Qed.

(** X14: below 2^53 seconds a keyboard step always moves the target:
    [stepForward] asks for a time strictly later than currentTime(),
    [stepBack] for one strictly earlier. *)
Theorem steps_are_not_lost_in_rounding (this : SeekBar) :
  let t := Player.currentTime (player_ this) in
  (0 <=? t) = true -> (t <? 0x1p53) = true ->
  (exists later,
     Player.seeks (player_ (exec stepForward this))
     = Player.seeks (player_ this) ++ [later] /\ (t <? later) = true) /\
  (exists earlier,
     Player.seeks (player_ (exec stepBack this))
     = Player.seeks (player_ this) ++ [earlier] /\ (earlier <? t) = true).
Proof.
  intros t H0 Hlt. destruct (FloatFacts.steps_move t H0 Hlt) as [Hf Hb].
  split; eexists; (split; [first [apply stepForward_seeks|apply stepBack_seeks]|]);
    assumption.
Qed.

(** X15: the other round trip: from a time t that is a number with
    5 <= t <= duration(), a step back followed by a step forward (both
    targets are in range, so the player applies them as they are)
    leaves the clock within rounding of t, and never later than t. *)
Theorem step_back_then_forward_returns (this : SeekBar) :
  let t := Player.currentTime (player_ this) in
  let returned := Player.currentTime (player_ (exec (stepBack ;; stepForward) this)) in
  (STEP_SECONDS <=? t) = true -> (t <? infinity) = true ->
  (t <=? Player.duration (player_ this)) = true ->
  withinTolerance returned t /\ (returned <=? t) = true.
Proof.
  destruct this as [[tm len sc pa ca cs] w n t b]. cbv zeta.
  cbn [player_ Player.currentTime Player.time_ Player.duration Player.duration_].
  intros H5 Hf Hd.
  destruct (FloatFacts.step_roundtrip_back_float tm len H5 Hf Hd) as (Er & Es & Htol & Hle).
  unfold exec, stepForward, stepBack, bind, get, call, Player.setCurrentTime,
    Player.record.
  cbn [player_ fst snd Player.currentTime Player.time_ Player.duration_].
  rewrite Er, Es. split; assumption.
Qed.

End FurtherProperties.

(** X16: whatever [IE_VERSION] is, the default children start with the
    load progress bar and end with the play progress bar, which is the
    child that [barName] names; no child is listed twice; and the
    mouse time display is a child, the second one, exactly when
    [IE_VERSION] is unset (null, 0 or [NaN]) or above 8. *)
Theorem default_children_hold_the_bar (IE_VERSION : option float) :
  let o := options_ IE_VERSION in
  In (barName o) (children o) /\
  hd_error (children o) = Some "loadProgressBar"%string /\
  last (children o) EmptyString = barName o /\
  NoDup (children o) /\
  (In "mouseTimeDisplay"%string (children o)
   <-> falsy IE_VERSION || above8 IE_VERSION = true) /\
  nth_error (children o) 1
  = Some (if falsy IE_VERSION || above8 IE_VERSION
          then "mouseTimeDisplay" else "playProgressBar")%string.
Proof.
  cbv zeta. unfold options_.
  destruct (falsy IE_VERSION || above8 IE_VERSION);
    cbn [children barName splice_insert firstn skipn app hd_error last In nth_error].
  - repeat split; auto.
    + repeat constructor; cbn [In]; intros H;
        repeat (destruct H as [H|H]; [discriminate H|]); exact H.
  - repeat split; auto.
    + repeat constructor; cbn [In]; intros H;
        repeat (destruct H as [H|H]; [discriminate H|]); exact H.
    + intros H. repeat (destruct H as [H|H]; [discriminate H|]). destruct H.
    + discriminate.
Qed.

(** ** The further properties on concrete players *)

(** Two mouse ups, a drag, a step and an update on a fresh seek bar. *)
Lemma no_play_before_the_first_mouse_down_witness :
  let os := [MouseUp 1; Update; MouseMove 0.5; MouseUp 1; StepBack] in
  let this := exampleSeekBar (examplePlayer 30 120 false) in
  let after :=
    exec (steps float (fun ratio => ratio) plainSliderUpdate emptyFormatTime
            emptyToFixed os) this in
  (forallb (fun o => negb (isMouseDown o)) os = true /\ videoWasPlaying this = None) /\
  videoWasPlaying after = None /\
  Player.plays (player_ after) = Player.plays (player_ this) /\
  pauses (player_ after) = pauses (player_ this).
Proof.
  cbv zeta. split; [split; reflexivity|].
  apply (no_play_before_the_first_mouse_down float (fun ratio => ratio)
           plainSliderUpdate emptyFormatTime emptyToFixed
           [MouseUp 1; Update; MouseMove 0.5; MouseUp 1; StepBack]);
    reflexivity.
Defined.

(** A session on a playing video, with a drag, a step and an update
    between the mouse down and the mouse up. *)
Lemma scrub_session_restores_playback_witness :
  let between := [MouseMove 0.5; StepForward; Update] in
  let this := exampleSeekBar (examplePlayer 30 120 false) in
  let after :=
    exec (steps float (fun ratio => ratio) plainSliderUpdate emptyFormatTime
            emptyToFixed (MouseDown 0.25 :: between ++ [MouseUp 0.5])) this in
  forallb (fun o => negb (isMouseDown o)) between = true /\
  Player.paused (player_ after) = false /\
  Player.scrubbing (player_ after) = false /\
  videoWasPlaying after = Some true /\
  exists earlier,
    Player.calls (player_ after) = earlier ++ [Player.Scrubbing false; Player.Play].
Proof.
  cbv zeta. split; [reflexivity|].
  apply (scrub_session_restores_playback float (fun ratio => ratio)
           plainSliderUpdate emptyFormatTime emptyToFixed 0.25 0.5
           [MouseMove 0.5; StepForward; Update]
           (exampleSeekBar (examplePlayer 30 120 false))).
  reflexivity.
Defined.

(** A fresh seek bar: no ARIA value and an empty bar. *)
Lemma aria_value_follows_the_bar_witness :
  let os := [Update; MouseDown 0.25; MouseMove 0.5; Update] in
  let this := exampleSeekBar (examplePlayer 30 120 false) in
  let after :=
    exec (steps float (fun ratio => ratio) plainSliderUpdate emptyFormatTime
            emptyToFixed os) this in
  aria_valuenow this
  = option_map (fun percent => emptyToFixed (percent * 100) 2) (barPercent this) /\
  aria_valuenow after
  = option_map (fun percent => emptyToFixed (percent * 100) 2) (barPercent after).
Proof.
  cbv zeta. split; [reflexivity|].
  apply (aria_value_follows_the_bar float (fun ratio => ratio)
           plainSliderUpdate emptyFormatTime emptyToFixed
           [Update; MouseDown 0.25; MouseMove 0.5; Update]
           (exampleSeekBar (examplePlayer 30 120 false))).
  reflexivity.
Defined.

(** A drag to the far end of 100 seconds. *)
Lemma drag_never_seeks_to_the_end_witness :
  let this := exampleSeekBar (examplePlayer 30 100 false) in
  ((0 <=? 100) = true /\ (100 <? 0x1p49) = true) /\
  exists target,
    Player.seeks (player_ (exec (handleMouseMove float (fun ratio => ratio) 1) this))
    = Player.seeks (player_ this) ++ [target] /\
    (target =? 100) = false.
Proof.
  cbv zeta. split; [split; reflexivity|].
  apply (drag_never_seeks_to_the_end float (fun ratio => ratio) 1
           (exampleSeekBar (examplePlayer 30 100 false))); reflexivity.
Defined.

(** A drag to the far end of 2^53 seconds. *)
Lemma drag_guard_is_lost_in_rounding_witness :
  let this := exampleSeekBar (examplePlayer 30 0x1p53 false) in
  ((0x1p53 <=? 0x1p53) = true /\ (0x1p53 <? infinity) = true /\
   (1 * 0x1p53 =? 0x1p53) = true) /\
  Player.seeks (player_ (exec (handleMouseMove float (fun ratio => ratio) 1) this))
  = Player.seeks (player_ this) ++ [0x1p53].
Proof.
  cbv zeta. split; [repeat split; reflexivity|].
  apply (drag_guard_is_lost_in_rounding float (fun ratio => ratio) 1
           (exampleSeekBar (examplePlayer 30 0x1p53 false))); reflexivity.
Defined.

(** A drag to the middle of a live stream. *)
Lemma drag_without_a_finite_duration_witness :
  let this := exampleSeekBar (examplePlayer 30 infinity false) in
  (infinity = infinity /\ (0 <? 0.5) = true) /\
  Player.seeks (player_ (exec (handleMouseMove float (fun ratio => ratio) 0.5) this))
  = Player.seeks (player_ this) ++ [infinity].
Proof.
  cbv zeta. split; [split; reflexivity|].
  apply (proj1 (drag_without_a_finite_duration float (fun ratio => ratio) 0.5
                  (exampleSeekBar (examplePlayer 30 infinity false))));
    reflexivity.
Defined.

(** A drag to the middle of 100 seconds. *)
Lemma drag_stays_within_the_media_witness :
  let this := exampleSeekBar (examplePlayer 30 100 false) in
  ((0 <=? 0.5) = true /\ (0.5 <=? 1) = true /\
   (0 <=? 100) = true /\ (100 <? infinity) = true) /\
  exists target,
    Player.seeks (player_ (exec (handleMouseMove float (fun ratio => ratio) 0.5) this))
    = Player.seeks (player_ this) ++ [target] /\
    (target <=? 100) = true /\
    ((0.1 <=? 100) = true -> (0 <=? target) = true).
Proof.
  cbv zeta. split; [repeat split; reflexivity|].
  apply (drag_stays_within_the_media float (fun ratio => ratio) 0.5
           (exampleSeekBar (examplePlayer 30 100 false))); reflexivity.
Defined.

(** A step back at 2 seconds. *)
Lemma stepBack_below_five_seconds_witness :
  let this := exampleSeekBar (examplePlayer 2 120 false) in
  ((0 <=? 2) = true /\ (2 <? STEP_SECONDS) = true) /\
  Player.seeks (player_ (exec stepBack this))
  = Player.seeks (player_ this) ++ [2 - STEP_SECONDS] /\
  (2 - STEP_SECONDS <? 0) = true.
Proof.
  cbv zeta. split; [split; reflexivity|].
  apply (stepBack_below_five_seconds_seeks_below_zero
           (exampleSeekBar (examplePlayer 2 120 false))); reflexivity.
Defined.

(** The two steps at 30 seconds. *)
Lemma steps_are_not_lost_in_rounding_witness :
  let this := exampleSeekBar (examplePlayer 30 120 false) in
  ((0 <=? 30) = true /\ (30 <? 0x1p53) = true) /\
  (exists later,
     Player.seeks (player_ (exec stepForward this))
     = Player.seeks (player_ this) ++ [later] /\ (30 <? later) = true) /\
  (exists earlier,
     Player.seeks (player_ (exec stepBack this))
     = Player.seeks (player_ this) ++ [earlier] /\ (earlier <? 30) = true).
Proof.
  cbv zeta. split; [split; reflexivity|].
  apply (steps_are_not_lost_in_rounding
           (exampleSeekBar (examplePlayer 30 120 false))); reflexivity.
Defined.

(** A step back and forward at 30 seconds of 120. *)
Lemma step_back_then_forward_witness :
  let this := exampleSeekBar (examplePlayer 30 120 false) in
  let returned := Player.currentTime (player_ (exec (stepBack ;; stepForward) this)) in
  ((STEP_SECONDS <=? 30) = true /\ (30 <? infinity) = true /\ (30 <=? 120) = true) /\
  withinTolerance returned 30 /\ (returned <=? 30) = true.
Proof.
  cbv zeta. split; [repeat split; reflexivity|].
  apply (step_back_then_forward_returns
           (exampleSeekBar (examplePlayer 30 120 false))); reflexivity.
Defined.

(** The bar at the end of 120 seconds. *)
Lemma getPercent_is_one_from_the_end_on_witness :
  let this := exampleSeekBar (examplePlayer 120 120 false) in
  ((0 <? 120) = true /\ (120 <? infinity) = true /\ (120 <=? 120) = true) /\
  eval getPercent this = 1.
Proof.
  cbv zeta. split; [repeat split; reflexivity|].
  apply (proj1 (getPercent_is_one_from_the_end_on
                  (exampleSeekBar (examplePlayer 120 120 false))));
    reflexivity.
Defined.

(** 30 and then 60 seconds of 120. *)
Lemma getPercent_grows_with_time_witness :
  let this := exampleSeekBar (examplePlayer 30 120 false) in
  let later := exampleSeekBar (examplePlayer 60 120 false) in
  (120 = 120 /\ (0 <? 120) = true /\ (120 <? infinity) = true /\
   (0 <=? 30) = true /\ (30 <=? 60) = true) /\
  (eval getPercent this <=? eval getPercent later) = true.
Proof.
  cbv zeta. split; [repeat split; reflexivity|].
  apply (getPercent_grows_with_time
           (exampleSeekBar (examplePlayer 30 120 false))
           (exampleSeekBar (examplePlayer 60 120 false)));
    reflexivity.
Defined.
